(** * RagSystemPPGTE: the PDF text-recovery pipeline of [extrair_docling.py]

    A shallow embedding of [UniversalPDFProcessor] and the properties its
    specification states about it.

    Python strings are lists of Unicode code points.  The scores, which are
    Python floats, are given twice: as the exact rationals of the
    expressions, and as the floats that the rounding of every operation
    leaves.  The regular expressions
    of the source are transcribed as syntax trees and run by a backtracking
    matcher that follows the priorities of Python's [re] module (leftmost
    match, first alternative first, greedy repetition).  Everything the module
    imports (PyMuPDF, pdfplumber, unidecode, chardet, docling, the codecs, the
    part of the Unicode database above Latin-1, the file system) is gathered
    in one record, [Env].

    Two helpers of the question-answering front end, [app.py], are embedded
    as well: [slugify] and the retry loop of [call_ollama]. *)

From Stdlib Require Import Strings.Ascii Strings.String.
From Stdlib Require Import ZArith List Bool Lia QArith Lqa Qround Qpower Permutation.
From Stdlib Require Import Floats.
Import ListNotations.
Open Scope Z_scope.

(** ** Python strings *)

Definition char := Z.
Definition str := list char.

(** An ASCII literal of the source as a list of code points. *)
Definition lit (s : String.string) : str :=
  map (fun a => Z.of_N (Ascii.N_of_ascii a)) (String.list_ascii_of_string s).
Arguments lit s%_string.

Definition in_range (lo hi c : char) : bool := (lo <=? c) && (c <=? hi).

Fixpoint mem (c : char) (l : str) : bool :=
  match l with
  | [] => false
  | d :: l' => (c =? d) || mem c l'
  end.

Fixpoint str_eqb (a b : str) : bool :=
  match a, b with
  | [], [] => true
  | x :: a', y :: b' => (x =? y) && str_eqb a' b'
  | _, _ => false
  end.

(** [s.startswith(w)] *)
Fixpoint startswith (w s : str) : bool :=
  match w, s with
  | [], _ => true
  | x :: w', y :: s' => (x =? y) && startswith w' s'
  | _ :: _, [] => false
  end.

(** [s.count(w)]: occurrences found by a left-to-right scan that resumes after
    each one, so they do not overlap.  [skip] is the number of characters of
    the last occurrence still to step over. *)
Fixpoint count_from (w s : str) (skip : nat) : nat :=
  match s with
  | [] => 0%nat
  | _ :: s' =>
      match skip with
      | S n => count_from w s' n
      | O => if startswith w s
             then S (count_from w s' (Nat.pred (length w)))
             else count_from w s' 0%nat
      end
  end.

Definition count (w s : str) : nat :=
  match w with
  | [] => S (length s)
  | _ => count_from w s 0%nat
  end.

(** [w in s] *)
Fixpoint contains (w s : str) : bool :=
  startswith w s ||
  match s with
  | [] => false
  | _ :: s' => contains w s'
  end.

(** [s.replace(old, new)] *)
Fixpoint replace_from (old new s : str) (skip : nat) : str :=
  match s with
  | [] => []
  | c :: s' =>
      match skip with
      | S n => replace_from old new s' n
      | O => if startswith old s
             then new ++ replace_from old new s' (Nat.pred (length old))
             else c :: replace_from old new s' 0%nat
      end
  end.

Definition replace (old new s : str) : str :=
  match old with
  | [] => new ++ flat_map (fun c => c :: new) s
  | _ => replace_from old new s 0%nat
  end.

(** [s.isascii()] *)
Definition isascii (s : str) : bool := forallb (fun c => c <? 128) s.

(** Lone surrogates are the code points of a Python string that UTF-8 cannot
    encode. *)
Definition is_surrogate (c : char) : bool := in_range 0xD800 0xDFFF c.

(** [s.encode('utf-8', 'ignore').decode('utf-8', 'ignore')]: the encoder drops
    what it cannot encode, and the decoder reads back every encoded code
    point. *)
Definition utf8_ignore_roundtrip (s : str) : str :=
  filter (fun c => negb (is_surrogate c)) s.

(** [s.encode('ascii', errors='ignore').decode('ascii', 'ignore')] *)
Definition ascii_ignore_roundtrip (s : str) : str :=
  filter (fun c => c <? 128) s.

(** [c.isspace()], which is also [\s] of a [str] pattern. *)
Definition isspace (c : char) : bool :=
  in_range 0x09 0x0D c || in_range 0x1C 0x20 c || (c =? 0x85) || (c =? 0xA0) ||
  (c =? 0x1680) || in_range 0x2000 0x200A c || in_range 0x2028 0x2029 c ||
  (c =? 0x202F) || (c =? 0x205F) || (c =? 0x3000).

(** [c.isalnum()] on ASCII and Latin-1. *)
Definition isalnum_latin1 (c : char) : bool :=
  in_range 0x30 0x39 c || in_range 0x41 0x5A c || in_range 0x61 0x7A c ||
  (c =? 0xAA) || in_range 0xB2 0xB3 c || (c =? 0xB5) || in_range 0xB9 0xBA c ||
  in_range 0xBC 0xBE c || in_range 0xC0 0xD6 c || in_range 0xD8 0xF6 c ||
  in_range 0xF8 0xFF c.

(** [c.lower()] on ASCII and Latin-1. *)
Definition lower_latin1 (c : char) : char :=
  if in_range 0x41 0x5A c || in_range 0xC0 0xD6 c || in_range 0xD8 0xDE c
  then c + 32 else c.

(** The rest of the Unicode database, which depends on the Python build. *)
Record UnicodeDB := {
  alnum_hi : char -> bool;      (* isalnum above U+00FF *)
  decimal_hi : char -> bool;    (* isdecimal above U+00FF *)
  lower_hi : str -> str         (* lower of a text that leaves Latin-1 *)
}.

(** ** Regular expressions *)

Module Re.

Inductive re : Type :=
| Eps
| Chr (p : char -> bool)
| Seq (a b : re)
| Alt (a b : re)
| Star (p : char -> bool)
| WordB
| Group (i : nat) (a : re).

Definition Lit1 (c : char) : re := Chr (Z.eqb c).
Definition Plus (p : char -> bool) : re := Seq (Chr p) (Star p).
Definition Opt (a : re) : re := Alt a Eps.

Fixpoint Lit (s : str) : re :=
  match s with
  | [] => Eps
  | [c] => Lit1 c
  | c :: s' => Seq (Lit1 c) (Lit s')
  end.

Definition caps := list (nat * str).

Fixpoint group (i : nat) (cs : caps) : str :=
  match cs with
  | [] => []
  | (j, v) :: cs' => if Nat.eqb i j then v else group i cs'
  end.

Inductive titem := TLit (s : str) | TGroup (i : nat).

Fixpoint expand (tpl : list titem) (cs : caps) : str :=
  match tpl with
  | [] => []
  | TLit s :: tpl' => s ++ expand tpl' cs
  | TGroup i :: tpl' => group i cs ++ expand tpl' cs
  end.

Section Engine.
Variable is_word : char -> bool.
Context {R : Type}.

Definition word_at (o : option char) : bool :=
  match o with Some c => is_word c | None => false end.

(** Greedy [p*]: take one more character when that leads to a match,
    otherwise go on from here. *)
Fixpoint star (p : char -> bool) (k : option char -> str -> option R)
    (prev : option char) (s : str) : option R :=
  match s with
  | c :: s' =>
      if p c then
        match star p k (Some c) s' with
        | Some x => Some x
        | None => k prev s
        end
      else k prev s
  | [] => k prev s
  end.

(** [run r prev s cs k]: match [r] at the front of [s], [prev] being the
    character just before, then hand the position reached and the groups
    captured to [k]; a failing [k] makes the matcher backtrack. *)
Fixpoint run (r : re) (prev : option char) (s : str) (cs : caps)
    (k : option char -> str -> caps -> option R) : option R :=
  match r with
  | Eps => k prev s cs
  | Chr p =>
      match s with
      | c :: s' => if p c then k (Some c) s' cs else None
      | [] => None
      end
  | Seq a b => run a prev s cs (fun prev' s' cs' => run b prev' s' cs' k)
  | Alt a b =>
      match run a prev s cs k with
      | Some x => Some x
      | None => run b prev s cs k
      end
  | Star p => star p (fun prev' s' => k prev' s' cs) prev s
  | WordB =>
      if xorb (word_at prev) (word_at (hd_error s)) then k prev s cs else None
  | Group i a =>
      run a prev s cs (fun prev' s' cs' =>
        k prev' s' ((i, firstn (length s - length s') s) :: cs'))
  end.
End Engine.

Section Search.
Variable is_word : char -> bool.

(** A match of [r] starting exactly here: what follows it, and its groups. *)
Definition match_here (r : re) (prev : option char) (s : str)
    : option (str * caps) :=
  run is_word r prev s [] (fun _ s' cs => Some (s', cs)).

(** [re.sub(r, tpl, s)]: every position not inside an earlier match is tried
    from left to right. *)
Fixpoint sub_from (r : re) (tpl : list titem) (prev : option char) (s : str)
    (skip : nat) : str :=
  match s with
  | [] =>
      match skip, match_here r prev [] with
      | O, Some (_, cs) => expand tpl cs
      | _, _ => []
      end
  | c :: s' =>
      match skip with
      | S n => sub_from r tpl (Some c) s' n
      | O =>
          match match_here r prev s with
          | Some (rest, cs) =>
              match (length s - length rest)%nat with
              | O => expand tpl cs ++ c :: sub_from r tpl (Some c) s' 0
              | S n => expand tpl cs ++ sub_from r tpl (Some c) s' n
              end
          | None => c :: sub_from r tpl (Some c) s' 0
          end
      end
  end.

Definition sub (r : re) (tpl : list titem) (s : str) : str :=
  sub_from r tpl None s 0.

(** [re.findall(r, s)] for a pattern without groups: the matched texts. *)
Fixpoint findall_from (r : re) (prev : option char) (s : str) (skip : nat)
    : list str :=
  match s with
  | [] =>
      match skip, match_here r prev [] with
      | O, Some _ => [[]]
      | _, _ => []
      end
  | c :: s' =>
      match skip with
      | S n => findall_from r (Some c) s' n
      | O =>
          match match_here r prev s with
          | Some (rest, _) =>
              let n := (length s - length rest)%nat in
              firstn n s :: findall_from r (Some c) s' (Nat.pred n)
          | None => findall_from r (Some c) s' 0
          end
      end
  end.

Definition findall (r : re) (s : str) : list str := findall_from r None s 0.
End Search.

End Re.

(** ** The environment of the module *)

Inductive exn := UnicodeEncodeError | OtherException.

Inductive result (A : Type) : Type :=
| Ok (a : A)
| Raise (e : exn).
Arguments Ok {A} a.
Arguments Raise {A} e.

Definition bytes := list Z.
Definition path := str.

Record Env := {
  udb : UnicodeDB;
  (* unidecode.unidecode *)
  unidecode : str -> str;
  (* chardet.detect(b)['encoding'], None included *)
  chardet_detect : bytes -> option str;
  (* text.encode(enc, errors='ignore').decode('utf-8', errors='ignore');
     None when a codec raises *)
  recode : str -> str -> option str;
  (* os.path.exists *)
  path_exists : path -> bool;
  (* page.get_text("text", sort=True) of every page of fitz.open(path);
     None when PyMuPDF raises *)
  fitz_pages : path -> option (list str);
  (* page.extract_text() of every page of pdfplumber.open(path), a page
     without text giving None; None when pdfplumber raises *)
  pdfplumber_pages : path -> option (list (option str));
  (* the text staged in a temporary .md file, converted by
     DocumentConverter and exported to markdown *)
  docling : str -> result str
}.

(** [text.encode('utf-8', errors='replace')] *)
Definition utf8_char (c : char) : bytes :=
  if c <? 0x80 then [c]
  else if c <? 0x800 then
    [Z.lor 0xC0 (Z.shiftr c 6); Z.lor 0x80 (Z.land c 0x3F)]
  else if c <? 0x10000 then
    [Z.lor 0xE0 (Z.shiftr c 12); Z.lor 0x80 (Z.land (Z.shiftr c 6) 0x3F);
     Z.lor 0x80 (Z.land c 0x3F)]
  else
    [Z.lor 0xF0 (Z.shiftr c 18); Z.lor 0x80 (Z.land (Z.shiftr c 12) 0x3F);
     Z.lor 0x80 (Z.land (Z.shiftr c 6) 0x3F); Z.lor 0x80 (Z.land c 0x3F)].

Definition encode_utf8_replace (s : str) : bytes :=
  flat_map (fun c => if is_surrogate c then [0x3F] else utf8_char c) s.

(** [text.encode('latin1', errors='replace')] *)
Definition encode_latin1_replace (s : str) : bytes :=
  map (fun c => if c <? 256 then c else 0x3F) s.

(** ** Processor state *)

Inductive Language := Auto | Portuguese | English | Unknown.

Definition Language_eqb (a b : Language) : bool :=
  match a, b with
  | Auto, Auto | Portuguese, Portuguese | English, English
  | Unknown, Unknown => true
  | _, _ => false
  end.

(** A [Counter] and a [dict] keep their keys in insertion order. *)
Definition Counter := list (str * nat).
Definition Dict := list (str * str).

Fixpoint counter_add (k : str) (c : Counter) : Counter :=
  match c with
  | [] => [(k, 1%nat)]
  | (k', n) :: c' =>
      if str_eqb k k' then (k', S n) :: c' else (k', n) :: counter_add k c'
  end.

(** [c.update(items)] *)
Definition counter_update (items : list str) (c : Counter) : Counter :=
  fold_left (fun acc k => counter_add k acc) items c.

(** [d[k] = v] *)
Fixpoint dict_set (k v : str) (d : Dict) : Dict :=
  match d with
  | [] => [(k, v)]
  | (k', v') :: d' =>
      if str_eqb k k' then (k', v) :: d' else (k', v') :: dict_set k v d'
  end.

Fixpoint dict_get (k : str) (d : Dict) : option str :=
  match d with
  | [] => None
  | (k', v) :: d' => if str_eqb k k' then Some v else dict_get k d'
  end.

Record ProcessorState := {
  error_patterns : Counter;
  correction_map : Dict;
  detected_encoding : option str;
  language : Language;
  sanitization_attempted : bool
}.

(** [UniversalPDFProcessor.__init__] *)
Definition init : ProcessorState := {|
  error_patterns := [];
  correction_map := [];
  detected_encoding := None;
  language := Auto;
  sanitization_attempted := false
|}.

Definition set_language (l : Language) (st : ProcessorState) := {|
  error_patterns := error_patterns st;
  correction_map := correction_map st;
  detected_encoding := detected_encoding st;
  language := l;
  sanitization_attempted := sanitization_attempted st
|}.

Definition set_sanitization_attempted (b : bool) (st : ProcessorState) := {|
  error_patterns := error_patterns st;
  correction_map := correction_map st;
  detected_encoding := detected_encoding st;
  language := language st;
  sanitization_attempted := b
|}.

Definition set_detected_encoding (e : str) (st : ProcessorState) := {|
  error_patterns := error_patterns st;
  correction_map := correction_map st;
  detected_encoding := Some e;
  language := language st;
  sanitization_attempted := sanitization_attempted st
|}.

Definition set_error_patterns (c : Counter) (st : ProcessorState) := {|
  error_patterns := c;
  correction_map := correction_map st;
  detected_encoding := detected_encoding st;
  language := language st;
  sanitization_attempted := sanitization_attempted st
|}.

Definition set_correction_map (d : Dict) (st : ProcessorState) := {|
  error_patterns := error_patterns st;
  correction_map := d;
  detected_encoding := detected_encoding st;
  language := language st;
  sanitization_attempted := sanitization_attempted st
|}.

(** ** Exact rationals for the scores

    The scores of the source are Python floats.  [_evaluate_text_quality]
    gives the rationals that the float expressions denote; the module
    [Double] further down gives the floats themselves, every operation
    rounded as the machine rounds it. *)

Definition qlt (a b : Q) : bool := negb (Qle_bool b a).

(** [min(a, b)] *)
Definition qmin (a b : Q) : Q := if qlt b a then b else a.

Definition ratio (n len : nat) : Q := Z.of_nat n # Pos.of_nat len.

Definition sum (l : list nat) : nat := fold_right Nat.add 0%nat l.

(** ** Trace and result of a run *)

(** The files that [process_file] writes, by path; two paths are taken to
    name two files.  The temporary file in which [process_with_docling]
    stages the text for the formatter is not among them: it gets a name
    that no file has, is removed once the formatter has returned, and
    stays when the formatter raises. *)
Definition Files := list (path * str).

(** [open(path, "w")] and [write]: the file is created, or its content
    replaced. *)
Definition write_file (p : path) (content : str) (fs : Files) : Files :=
  dict_set p content fs.

Definition read_file (p : path) (fs : Files) : option str := dict_get p fs.

Inductive event :=
| FallbackBranch (input : str)      (* the retry of process_file is taken *)
| Written (file : path) (content : str).  (* the output file is written *)

Record Outcome := {
  returned : result (option str);
  final_state : ProcessorState;
  files : Files;
  trace : list event
}.

(** [os.path.basename] and [os.path.join] of POSIX paths. *)
Fixpoint basename_from (p : str) (acc : str) : str :=
  match p with
  | [] => acc
  | c :: p' => if c =? 47 then basename_from p' [] else basename_from p' (acc ++ [c])
  end.

Definition basename (p : path) : str := basename_from p [].

Definition path_join (a b : path) : path :=
  if startswith [47] b then b
  else match a with
       | [] => b
       | _ => if (last a 0 =? 47) then a ++ b else a ++ [47] ++ b
       end.

Section Processor.
Variable E : Env.

(** *** Character classes *)

Definition isalnum (c : char) : bool :=
  if c <? 256 then isalnum_latin1 c
  else negb (isspace c) && alnum_hi (udb E) c.

(** No white-space code point is a letter or a number, in any version of
    Unicode; [isalnum] keeps the two apart whatever [alnum_hi] says. *)

Definition isdecimal (c : char) : bool :=
  if c <? 256 then in_range 0x30 0x39 c else decimal_hi (udb E) c.

(** [\w] *)
Definition is_word (c : char) : bool := isalnum c || (c =? 0x5F).

(** [text.lower()]: one character at a time on Latin-1 text; above it the
    mapping may look at the neighbours (final sigma). *)
Definition lower (s : str) : str :=
  if forallb (fun c => c <? 256) s then map lower_latin1 s
  else lower_hi (udb E) s.

Definition sub := Re.sub is_word.
Definition findall := Re.findall is_word.

Definition Cat (l : list Re.re) : Re.re := fold_right Re.Seq Re.Eps l.

Fixpoint Alts (l : list Re.re) : Re.re :=
  match l with
  | [] => Re.Chr (fun _ => false)
  | [a] => a
  | a :: l' => Re.Alt a (Alts l')
  end.

(** *** detect_language *)

Definition pt_words : list str :=
  [lit "o"; lit "a"; lit "de"; lit "que"; lit "e"].
Definition en_words : list str :=
  [lit "the"; lit "and"; lit "of"; lit "to"; lit "in"].

Definition indicators (words : list str) (text : str) : nat :=
  sum (map (fun word => count word (lower text)) words).

Definition detect_language (text : str) : Language :=
  let pt_indicators := indicators pt_words text in
  let en_indicators := indicators en_words text in
  if (en_indicators <? pt_indicators)%nat then Portuguese
  else if (pt_indicators <? en_indicators)%nat then English
  else Unknown.

(** *** _evaluate_text_quality *)

Definition valid_punctuation : str := lit ",.;:!?()[]{}@#$%&*_+-=/".

Definition valid_char (c : char) : bool :=
  isalnum c || isspace c || mem c valid_punctuation.

Definition valid_chars (text : str) : nat :=
  length (filter valid_char text).

(** The list of the source names U+FFFD twice: once written out, once as
    an escape. *)
Definition problem_markers : list str := [[0xFFFD]; [0x00]; [0xFFFD]].

Definition problem_chars (text : str) : nat :=
  sum (map (fun char => count char text) problem_markers).

Definition valid_ratio (text : str) : Q :=
  ratio (valid_chars text) (length text).
Definition space_ratio (text : str) : Q :=
  ratio (count [0x20] text) (length text).
Definition problem_ratio (text : str) : Q :=
  ratio (problem_chars text) (length text).

Definition space_bonus (text : str) : Q :=
  if qlt (1 # 10) (space_ratio text) && qlt (space_ratio text) (3 # 10)
  then 1 # 10 else 0.

Definition _evaluate_text_quality (text : str) : Q :=
  if (length text <? 100)%nat then 0
  else
    valid_ratio text * (6 # 10) +
    space_bonus text * (2 # 10) +
    (1 - qmin (problem_ratio text * 10) 1) * (2 # 10).

(** *** The extractors *)

Definition newline : str := [0x0A].

Definition _extract_with_fitz (file_path : path) : str :=
  match fitz_pages E file_path with
  | Some pages => flat_map (fun page => page ++ newline) pages
  | None => []
  end.

(** [page.extract_text() + "\n"] raises on a page without text, and the
    handler gives up the pages read so far. *)
Fixpoint join_pages (pages : list (option str)) : option str :=
  match pages with
  | [] => Some []
  | None :: _ => None
  | Some page :: rest =>
      match join_pages rest with
      | Some text => Some (page ++ newline ++ text)
      | None => None
      end
  end.

Definition _extract_with_pdfplumber (file_path : path) : str :=
  match pdfplumber_pages E file_path with
  | Some pages =>
      match join_pages pages with
      | Some text => text
      | None => []
      end
  | None => []
  end.

(** *** extract_text *)

Definition is_empty (s : str) : bool :=
  match s with [] => true | _ => false end.

Definition methods : list (path -> str) :=
  [_extract_with_fitz; _extract_with_pdfplumber].

(** One turn of the loop over [methods]; the extractors catch their own
    exceptions, so the handler of the loop has nothing to catch.  The
    scores compared here are the exact values; [Double.try_method] compares
    the floats. *)
Definition try_method (file_path : path) (best : str * Q)
    (method : path -> str) : str * Q :=
  let text := method file_path in
  if is_empty text then best
  else
    let score := _evaluate_text_quality text in
    if qlt (snd best) score then (text, score) else best.

Definition best_extraction (file_path : path) : str * Q :=
  fold_left (try_method file_path) methods ([], 0%Q).

Definition extract_text (st : ProcessorState) (file_path : path)
    : str * ProcessorState :=
  let best_text := fst (best_extraction file_path) in
  if is_empty best_text then ([], st)
  else (best_text, set_language (detect_language best_text) st).

(** *** analyze_errors *)

(** The negated class of [invalid_chars]: [\w], [\s], the punctuation
    below (the double quote is U+0022) and the range U+00C0..U+00FF. *)
Definition allowed_punctuation : str :=
  lit ".,;:?!@#$%&*()_+=-[]{}\|" ++ [0x22] ++ lit "'<>/".

Definition invalid_char (c : char) : bool :=
  negb (is_word c || isspace c || mem c allowed_punctuation ||
        in_range 0xC0 0xFF c).

Definition invalid_re : Re.re := Re.Chr invalid_char.

(** [Ã[çãáéóõêâàúí]|PîS|Gradua,ÌO|CAPêTULO] *)
Definition pt_errors_re : Re.re :=
  Alts [Re.Seq (Re.Lit1 0xC3)
          (Re.Chr (fun c => mem c [0xE7; 0xE3; 0xE1; 0xE9; 0xF3; 0xF5; 0xEA;
                                   0xE2; 0xE0; 0xFA; 0xED]));
        Re.Lit (lit "P" ++ [0xEE] ++ lit "S");
        Re.Lit (lit "Gradua," ++ [0xCC] ++ lit "O");
        Re.Lit (lit "CAP" ++ [0xEA] ++ lit "TULO")].

(** The five alternatives start with the same two characters, U+00E2
    U+20AC, followed by nothing, U+201C, U+2122, U+0153, nothing. *)
Definition en_errors_re : Re.re :=
  Alts [Re.Lit [0xE2; 0x20AC];
        Re.Lit [0xE2; 0x20AC; 0x201C];
        Re.Lit [0xE2; 0x20AC; 0x2122];
        Re.Lit [0xE2; 0x20AC; 0x153];
        Re.Lit [0xE2; 0x20AC]].

(** [\b\w+-\s*\n\s*\w+\b] *)
Definition hyphenated_re : Re.re :=
  Cat [Re.WordB; Re.Plus is_word; Re.Lit1 0x2D; Re.Star isspace;
       Re.Lit1 0x0A; Re.Star isspace; Re.Plus is_word; Re.WordB].

Definition common_fixes : Dict :=
  [([0xC3; 0xA7], [0xE7]); ([0xC3; 0xA3], [0xE3]); ([0xC3; 0xA1], [0xE1]);
   ([0xC3; 0xA9], [0xE9]); ([0xC3; 0xB3], [0xF3]); ([0xC3; 0xB5], [0xF5]);
   ([0xC3; 0xAA], [0xEA]); ([0xC3; 0xA2], [0xE2]); ([0xC3; 0x20], [0xE0]);
   ([0xC3; 0xBA], [0xFA]); ([0xC3; 0xAD], [0xED]);
   (lit "P" ++ [0xEE] ++ lit "S", lit "P" ++ [0xF3] ++ lit "s");
   (lit "Gradua," ++ [0xCC] ++ lit "O", lit "Gradua" ++ [0xE7; 0xE3] ++ lit "o");
   (lit "CAP" ++ [0xEA] ++ lit "TULO", lit "CAP" ++ [0xCD] ++ lit "TULO");
   ([0xE2; 0x20AC; 0x153], [0x22]); ([0xE2; 0x20AC], [0x22]);
   ([0xE2; 0x20AC; 0x2122], lit "'"); ([0xE2; 0x20AC; 0x201C], lit "-")].

(** [x or default] on an encoding name *)
Definition or_default (x : option str) (default : str) : str :=
  match x with
  | Some e => if is_empty e then default else e
  | None => default
  end.

(** The body of [for error in self.error_patterns]. *)
Definition resolve (cm : Dict) (error : str) : Dict :=
  match dict_get error common_fixes with
  | Some known => dict_set error known cm
  | None =>
      let corrected := unidecode E error in
      if negb (str_eqb corrected error) && (0 <? length corrected)%nat
      then dict_set error corrected cm
      else cm
  end.

Definition collect_patterns (l : Language) (text : str) (c : Counter)
    : Counter :=
  let c := counter_update (findall invalid_re text) c in
  let c :=
    match l with
    | Portuguese => counter_update (findall pt_errors_re text) c
    | English => counter_update (findall en_errors_re text) c
    | _ => c
    end in
  counter_update
    (repeat (lit "hyphenated_word") (length (findall hyphenated_re text))) c.

Definition analyze_errors (st : ProcessorState) (text : str)
    : ProcessorState :=
  let encoding :=
    or_default (chardet_detect E (encode_utf8_replace text)) (lit "utf-8") in
  let st := set_detected_encoding encoding st in
  let patterns := collect_patterns (language st) text (error_patterns st) in
  let st := set_error_patterns patterns st in
  set_correction_map
    (fold_left resolve (map fst patterns) (correction_map st)) st.

(** *** auto_correct *)

(** [(\b\w+)-\s*\n\s*(\w+\b)] *)
Definition dehyphenate_re : Re.re :=
  Cat [Re.Group 1 (Re.Seq Re.WordB (Re.Plus is_word)); Re.Lit1 0x2D;
       Re.Star isspace; Re.Lit1 0x0A; Re.Star isspace;
       Re.Group 2 (Re.Seq (Re.Plus is_word) Re.WordB)].

(** [\s+] *)
Definition spaces_re : Re.re := Re.Plus isspace.

(** [(\w)\s*-\s*(\w)] *)
Definition hyphen_re : Re.re :=
  Cat [Re.Group 1 (Re.Chr is_word); Re.Star isspace; Re.Lit1 0x2D;
       Re.Star isspace; Re.Group 2 (Re.Chr is_word)].

(** [([a-zà-ÿ])\.\s([A-ZÀ-Ÿ])] *)
Definition sentence_re : Re.re :=
  Cat [Re.Group 1 (Re.Chr (fun c => in_range 0x61 0x7A c || in_range 0xE0 0xFF c));
       Re.Lit1 0x2E; Re.Chr isspace;
       Re.Group 2 (Re.Chr (fun c => in_range 0x41 0x5A c || in_range 0xC0 0x178 c))].

(** [Art\.\s*(\d+)[º°]?] *)
Definition article_re : Re.re :=
  Cat [Re.Lit (lit "Art"); Re.Lit1 0x2E; Re.Star isspace;
       Re.Group 1 (Re.Plus isdecimal);
       Re.Opt (Re.Chr (fun c => mem c [0xBA; 0xB0]))].

Definition apply_corrections (cm : Dict) (text : str) : str :=
  fold_left (fun t kv => replace (fst kv) (snd kv) t) cm text.

Definition auto_correct (st : ProcessorState) (text : str) : str :=
  let text := if negb (isascii text) then utf8_ignore_roundtrip text else text in
  let text := apply_corrections (correction_map st) text in
  let text := sub dehyphenate_re [Re.TGroup 1; Re.TGroup 2] text in
  let text := sub spaces_re [Re.TLit (lit " ")] text in
  let text := sub hyphen_re [Re.TGroup 1; Re.TLit (lit "-"); Re.TGroup 2] text in
  if Language_eqb (language st) Portuguese then
    let text :=
      sub sentence_re
        [Re.TGroup 1; Re.TLit (lit ". " ++ [0x0A; 0x0A]); Re.TGroup 2] text in
    sub article_re [Re.TLit (lit "**Art. "); Re.TGroup 1; Re.TLit (lit "**")] text
  else text.

(** *** enhance_structure *)

(** The chapter pattern: a newline, group 1 [\s*], group 2
    [CAP[ÍI]TULO|CHAPTER], [\s+], group 3 [[IVXLCDM]+], group 4 [\s*]. *)
Definition chapter_re : Re.re :=
  Cat [Re.Lit1 0x0A; Re.Group 1 (Re.Star isspace);
       Re.Group 2
         (Re.Alt (Cat [Re.Lit (lit "CAP"); Re.Chr (fun c => mem c [0xCD; 0x49]);
                       Re.Lit (lit "TULO")])
                 (Re.Lit (lit "CHAPTER")));
       Re.Plus isspace;
       Re.Group 3 (Re.Plus (fun c => mem c (lit "IVXLCDM")));
       Re.Group 4 (Re.Star isspace)].

(** [\n(\d+\.\d+\.?\s+)([^\n]+)] *)
Definition numbered_re : Re.re :=
  Cat [Re.Lit1 0x0A;
       Re.Group 1 (Cat [Re.Plus isdecimal; Re.Lit1 0x2E; Re.Plus isdecimal;
                        Re.Opt (Re.Lit1 0x2E); Re.Plus isspace]);
       Re.Group 2 (Re.Plus (fun c => negb (c =? 0x0A)))].

(** [\n(\s*[-*•])\s+] *)
Definition bullet_re : Re.re :=
  Cat [Re.Lit1 0x0A;
       Re.Group 1 (Re.Seq (Re.Star isspace)
                          (Re.Chr (fun c => mem c [0x2D; 0x2A; 0x2022])));
       Re.Plus isspace].

Definition enhance_structure (text : str) : str :=
  let text :=
    sub chapter_re
      [Re.TLit ([0x0A] ++ lit "## "); Re.TGroup 2; Re.TLit (lit " ");
       Re.TGroup 3; Re.TLit [0x0A]] text in
  let text :=
    sub numbered_re
      [Re.TLit ([0x0A] ++ lit "### "); Re.TGroup 1; Re.TGroup 2;
       Re.TLit [0x0A]] text in
  sub bullet_re [Re.TLit ([0x0A] ++ lit "- ")] text.

(** *** sanitize_text *)

(** [[\x00-\x1F\x7F-\x9F]] *)
Definition is_control (c : char) : bool :=
  in_range 0x00 0x1F c || in_range 0x7F 0x9F c.

Definition control_re : Re.re := Re.Chr is_control.

(** [\n{3,}] *)
Definition blank_lines_re : Re.re :=
  Cat [Re.Lit1 0x0A; Re.Lit1 0x0A; Re.Lit1 0x0A; Re.Star (Z.eqb 0x0A)].

Definition replacements : Dict :=
  [([0xFFFD], []); ([0xAD], []); ([0x200B], [])].

(** The text before the last step of [sanitize_text], the one that
    collapses blank lines. *)
Definition sanitize_before_blank_lines (text : str) : str :=
  let sanitized := sub control_re [] text in
  let sanitized := utf8_ignore_roundtrip sanitized in
  let sanitized := apply_corrections replacements sanitized in
  sub spaces_re [Re.TLit (lit " ")] sanitized.

Definition sanitize_text (text : str) : str :=
  sub blank_lines_re [Re.TLit [0x0A; 0x0A]] (sanitize_before_blank_lines text).

(** *** fallback_sanitization *)

Definition fallback_sanitization (text : str) : result str :=
  let detected_encoding :=
    or_default (chardet_detect E (encode_latin1_replace text)) (lit "latin1") in
  match recode E detected_encoding text with
  | Some recoded => Ok (sanitize_text recoded)
  | None => Ok (ascii_ignore_roundtrip text)
  end.

(** *** process_with_docling *)

Definition process_with_docling (text : str) : result str :=
  let sanitized_text := sanitize_text text in
  match docling E sanitized_text with
  | Ok md_text => Ok md_text
  | Raise UnicodeEncodeError => fallback_sanitization text
  | Raise OtherException => fallback_sanitization text
  end.

(** *** process_file *)

Definition replacement_character : str := [0xFFFD].

Definition stop (r : result (option str)) (st : ProcessorState) (fs : Files)
    (tr : list event) : Outcome :=
  {| returned := r; final_state := st; files := fs; trace := tr |}.

(** Writing [final_text] and returning it. *)
Definition write_output (st : ProcessorState) (fs : Files) (tr : list event)
    (input_path output_dir : path) (final_text : str) : Outcome :=
  let output_path := path_join output_dir (basename input_path ++ lit ".md") in
  stop (Ok (Some final_text)) st (write_file output_path final_text fs)
       (tr ++ [Written output_path final_text]).

Definition process_file (st : ProcessorState) (fs : Files)
    (input_path output_dir : path) : Outcome :=
  let st := set_sanitization_attempted false st in
  if negb (path_exists E input_path) then stop (Ok None) st fs []
  else
    let (raw_text, st) := extract_text st input_path in
    if is_empty raw_text then stop (Ok None) st fs []
    else
      let st := analyze_errors st raw_text in
      let corrected_text := auto_correct st raw_text in
      let structured_text := enhance_structure corrected_text in
      match process_with_docling structured_text with
      | Raise e => stop (Raise e) st fs []
      | Ok final_text =>
          if contains replacement_character final_text
             && negb (sanitization_attempted st)
          then
            let st := set_sanitization_attempted true st in
            let tr := [FallbackBranch raw_text] in
            match fallback_sanitization raw_text with
            | Raise e => stop (Raise e) st fs tr
            | Ok sanitized_text =>
                match process_with_docling sanitized_text with
                | Raise e => stop (Raise e) st fs tr
                | Ok final_text =>
                    write_output st fs tr input_path output_dir final_text
                end
            end
          else write_output st fs [] input_path output_dir final_text
      end.

(** *** main *)

Definition PDF_FILES : list path := [lit "Regulamento_Aprovado_2019.pdf"].
Definition OUTPUT_DIR : path := lit "processed_documents".

(** The loop of [main]: every file is given to a processor that has just
    been created. *)
Fixpoint process_all (pdf_files : list path) (fs : Files) : Files :=
  match pdf_files with
  | [] => fs
  | pdf_file :: rest =>
      process_all rest (files (process_file init fs pdf_file OUTPUT_DIR))
  end.

Definition main (fs : Files) : Files := process_all PDF_FILES fs.

End Processor.

(** ** The scores in double precision

    [_evaluate_text_quality] returns a Python float, and [extract_text]
    compares such floats.  A float is the rational it stands for; an
    operation gives the exact result rounded to the nearest float of 53
    significant bits, to the even one when two are as near.  The exponent
    is left unbounded: the scores and what they are computed from lie
    between [2^-63] and 2, where no double overflows or is denormal. *)

Module Double.

Definition pow2 (e : Z) : Q := (2 ^ e)%Q.

(** The exponent [e] of a positive [q]: [2^e <= q < 2^(e+1)]. *)
Definition ilog2 (q : Q) : Z :=
  if Qle_bool 1 q then Z.log2 (Qfloor q)
  else - Z.log2_up (Qceiling (/ q)).

(** The nearest integer, the even one of two. *)
Definition nearest_even (q : Q) : Z :=
  let f := Qfloor q in
  match (q - inject_Z f ?= 1 # 2)%Q with
  | Lt => f
  | Gt => f + 1
  | Eq => if Z.even f then f else f + 1
  end.

Definition round_pos (q : Q) : Q :=
  let e := ilog2 q in
  (inject_Z (nearest_even (q * pow2 (52 - e))) * pow2 (e - 52))%Q.

Definition round64 (q : Q) : Q :=
  match Qnum q with
  | Z0 => 0%Q
  | Zpos _ => Qred (round_pos q)
  | Zneg _ => Qred (- round_pos (- q))
  end.

(** [a + b], [a - b] and [a * b] on floats. *)
Definition fadd (a b : Q) : Q := round64 (a + b).
Definition fsub (a b : Q) : Q := round64 (a - b).
Definition fmul (a b : Q) : Q := round64 (a * b).

(** [n / len] on two integers, which Python rounds once. *)
Definition fdiv (n len : nat) : Q := round64 (ratio n len).

(** A decimal literal of the source, such as [0.6]. *)
Definition literal (q : Q) : Q := round64 q.

Section Quality.
Variable E : Env.

Definition valid_ratio (text : str) : Q :=
  fdiv (valid_chars E text) (length text).
Definition space_ratio (text : str) : Q :=
  fdiv (count [0x20] text) (length text).
Definition problem_ratio (text : str) : Q :=
  fdiv (problem_chars text) (length text).

(** [0.1 if 0.1 < space_ratio < 0.3 else 0] *)
Definition space_bonus (text : str) : Q :=
  if qlt (literal (1 # 10)) (space_ratio text) &&
     qlt (space_ratio text) (literal (3 # 10))
  then literal (1 # 10) else 0.

(** The sum is taken from left to right. *)
Definition _evaluate_text_quality (text : str) : Q :=
  if (length text <? 100)%nat then 0
  else
    fadd (fadd (fmul (valid_ratio text) (literal (6 # 10)))
               (fmul (space_bonus text) (literal (2 # 10))))
         (fmul (fsub 1 (qmin (fmul (problem_ratio text) 10) 1))
               (literal (2 # 10))).

(** The loop of [extract_text], on these scores. *)
Definition try_method (file_path : path) (best : str * Q)
    (method : path -> str) : str * Q :=
  let text := method file_path in
  if is_empty text then best
  else
    let score := _evaluate_text_quality text in
    if qlt (snd best) score then (text, score) else best.

Definition best_extraction (file_path : path) : str * Q :=
  fold_left (try_method file_path) (methods E) ([], 0%Q).

Definition extract_text (st : ProcessorState) (file_path : path)
    : str * ProcessorState :=
  let best_text := fst (best_extraction file_path) in
  if is_empty best_text then ([], st)
  else (best_text, set_language (detect_language E best_text) st).

End Quality.

End Double.

(** ** The scores on the floats of the machine

    The computation of [_evaluate_text_quality] on binary64 floats, to
    compare [Double] with.  The counts are below [2^53], where an integer
    is a float and the quotient of two integers is the quotient of the two
    floats. *)

Module Machine.

Definition of_nat (n : nat) : float :=
  PrimFloat.of_uint63 (Uint63.of_Z (Z.of_nat n)).

(** The rational that a finite float stands for. *)
Definition value (f : float) : option Q :=
  match Prim2SF f with
  | S754_zero _ => Some 0%Q
  | S754_finite s m e =>
      let v := (inject_Z (Zpos m) * Double.pow2 e)%Q in
      Some (Qred (if s then - v else v))
  | _ => None
  end.

Section Quality.
Variable E : Env.

Definition _evaluate_text_quality (text : str) : float :=
  if (length text <? 100)%nat then 0%float
  else
    let tenth := (of_nat 1 / of_nat 10)%float in
    let valid_ratio := (of_nat (valid_chars E text) / of_nat (length text))%float in
    let space_ratio := (of_nat (count [0x20%Z] text) / of_nat (length text))%float in
    let problem_ratio := (of_nat (problem_chars text) / of_nat (length text))%float in
    let space_bonus :=
      if (tenth <? space_ratio)%float && (space_ratio <? of_nat 3 / of_nat 10)%float
      then tenth else 0%float in
    let capped :=
      if (of_nat 1 <? problem_ratio * of_nat 10)%float then of_nat 1
      else (problem_ratio * of_nat 10)%float in
    (valid_ratio * (of_nat 6 / of_nat 10) + space_bonus * (of_nat 2 / of_nat 10) +
     (of_nat 1 - capped) * (of_nat 2 / of_nat 10))%float.

End Quality.

End Machine.

(** ** Definitions used to state and prove the properties *)

(** The character before the position reached after reading [u]. *)
Definition last_char (prev : option char) (u : str) : option char :=
  fold_left (fun _ c => Some c) u prev.

Fixpoint drop_while (p : char -> bool) (s : str) : str :=
  match s with
  | c :: s' => if p c then drop_while p s' else s
  | [] => []
  end.

Fixpoint take_while (p : char -> bool) (s : str) : str :=
  match s with
  | c :: s' => if p c then c :: take_while p s' else []
  | [] => []
  end.

(** [re.sub(p+, l, s)] written as a scan with one flag. *)
Fixpoint collapse_from (p : char -> bool) (l : str) (in_run : bool) (s : str) : str :=
  match s with
  | [] => []
  | c :: s' =>
      if p c then
        if in_run then collapse_from p l true s' else l ++ collapse_from p l true s'
      else c :: collapse_from p l false s'
  end.

(** What [sanitize_text] leaves of a character. *)
Definition sanitized_char (c : char) : Prop :=
  (isspace c = true -> c = 0x20) /\ is_control c = false /\
  is_surrogate c = false /\ c <> 0xFFFD /\ c <> 0xAD /\ c <> 0x200B.

(** The positions of [s] at which [w] occurs, overlapping or not. *)
Fixpoint occurrences (w s : str) : nat :=
  ((if startswith w s then 1 else 0) +
   match s with
   | [] => 0
   | _ :: s' => occurrences w s'
   end)%nat.

Definition occurrences_of (words : list str) (text : str) : nat :=
  sum (map (fun word => occurrences word text) words).

(** No proper suffix of [w] is a prefix of [w]: two occurrences of [w]
    cannot overlap. *)
Definition unbordered (w : str) : bool :=
  forallb (fun k => negb (startswith (skipn k w) w)) (seq 1 (length w - 1)).

(** The match of the hyphen pattern of [auto_correct] at [c :: s], if any:
    the second word character and what follows it. *)
Definition hyphen_match (w : char -> bool) (c : char) (s : str) : option (char * str) :=
  if w c then
    match drop_while isspace s with
    | d :: s2 =>
        if 0x2D =? d then
          match drop_while isspace s2 with
          | e :: rest => if w e then Some (e, rest) else None
          | [] => None
          end
        else None
    | [] => None
    end
  else None.

Definition hyphen_tpl : list Re.titem :=
  [Re.TGroup 1; Re.TLit (lit "-"); Re.TGroup 2].

(** The steps of [auto_correct], one by one. *)
Definition drop_surrogates (text : str) : str :=
  if negb (isascii text) then utf8_ignore_roundtrip text else text.

Definition dehyphenate (E : Env) (s : str) : str :=
  sub E (dehyphenate_re E) [Re.TGroup 1; Re.TGroup 2] s.

Definition rejoin (E : Env) (s : str) : str := sub E (hyphen_re E) hyphen_tpl s.

Definition tidy (E : Env) (s : str) : str :=
  rejoin E (sub E spaces_re [Re.TLit (lit " ")] (dehyphenate E s)).

Definition no_surrogate (t : str) : Prop := forall x, In x t -> is_surrogate x = false.

(** Every white-space character is a space, and no two are adjacent;
    [after_space] tells whether the character before the text is one. *)
Fixpoint normal_from (after_space : bool) (s : str) : bool :=
  match s with
  | [] => true
  | c :: s' =>
      if isspace c then (c =? 0x20) && negb after_space && normal_from true s'
      else normal_from false s'
  end.

(** [a] is nowhere followed by [b]; [after_a] tells whether the character
    before the text is [a]. *)
Fixpoint pair_free (a b : char) (after_a : bool) (s : str) : bool :=
  match s with
  | [] => true
  | c :: s' => negb (after_a && (c =? b)) && pair_free a b (c =? a) s'
  end.

Fixpoint ends_with (a : char) (after_a : bool) (u : str) : bool :=
  match u with
  | [] => after_a
  | c :: u' => ends_with a (c =? a) u'
  end.

Definition head_is (b : char) (s : str) : bool :=
  match s with
  | d :: _ => d =? b
  | [] => false
  end.

(** The two characters that [en_errors] looks for. *)
Definition euro_pair : str := [0xE2; 0x20AC].

(** An entry of the correction map made from one invalid character. *)
Definition single_fix (kv : str * str) : Prop :=
  exists c, fst kv = [c] /\ 128 <= c /\ isascii (snd kv) = true.

(** At most the entry of the mojibake pair. *)
Definition pair_tail (tail : Dict) : Prop :=
  tail = [] \/ tail = [(euro_pair, [0x22])].

(** ** The front end, [app.py] *)

(** [s.strip()] *)
Definition strip (s : str) : str :=
  rev (drop_while isspace (rev (drop_while isspace s))).

(** The class [[a-zA-Z0-9 ]] of [slugify]. *)
Definition slug_source (c : char) : bool :=
  in_range 0x61 0x7A c || in_range 0x41 0x5A c || in_range 0x30 0x39 c || (c =? 0x20).

(** [[^a-zA-Z0-9 ]] *)
Definition not_slug_re : Re.re := Re.Chr (fun c => negb (slug_source c)).

Definition slugify (E : Env) (text : str) : str :=
  let s := lower E (strip (sub E not_slug_re [] text)) in
  replace (lit " ") (lit "-") s.


Section Ollama.
Context {Payload Json : Type}.

(** The outcome of the request made at each turn of the loop: the decoded
    answer, or the exception raised by the request, by raise_for_status or
    by the decoder. *)
Variable server : Payload -> nat -> result Json.


End Ollama.

(** ** Further definitions used to state the properties *)

(** A pattern that may match the empty text. *)
Fixpoint nullable (r : Re.re) : bool :=
  match r with
  | Re.Eps | Re.Star _ | Re.WordB => true
  | Re.Chr _ => false
  | Re.Seq a b => nullable a && nullable b
  | Re.Alt a b => nullable a || nullable b
  | Re.Group _ a => nullable a
  end.

(** An entry of the correction map that replaces something by something
    else. *)
Definition sound_entry (kv : str * str) : Prop :=
  fst kv <> [] /\ snd kv <> [] /\ fst kv <> snd kv.

(** The dict without one key. *)
Definition without_key (k : str) (d : Dict) : Dict :=
  filter (fun kv => negb (str_eqb k (fst kv))) d.

(** Where [process_file] writes. *)
Definition output_file (input_path output_dir : path) : path :=
  path_join output_dir (basename input_path ++ lit ".md").

(** The characters of a slug, and the ASCII letters and digits. *)
Definition slug_char (c : char) : bool :=
  in_range 0x61 0x7A c || in_range 0x30 0x39 c || (c =? 0x2D).

Definition ascii_alnum (c : char) : bool :=
  in_range 0x61 0x7A c || in_range 0x41 0x5A c || in_range 0x30 0x39 c.

(** One character of a slug, from the character of the text it stands for. *)
Definition slug_of (c : char) : char :=
  if 0x20 =? lower_latin1 c then 0x2D else lower_latin1 c.

(** The second characters that [pt_errors] accepts after U+00C3. *)
Definition pt_second : str :=
  [0xE7; 0xE3; 0xE1; 0xE9; 0xF3; 0xF5; 0xEA; 0xE2; 0xE0; 0xFA; 0xED].

Definition garbled_words : list str :=
  [lit "P" ++ [0xEE] ++ lit "S"; lit "Gradua," ++ [0xCC] ++ lit "O";
   lit "CAP" ++ [0xEA] ++ lit "TULO"].

(** What [analyze_errors] can record as a pattern: one character, U+00C3
    and one of [pt_second], one of the three garbled words, the mojibake
    pair, or the name under which broken words are counted. *)
Definition recordable (k : str) : bool :=
  match k with
  | [_] => true
  | [a; x] => ((a =? 0xC3) && mem x pt_second) || str_eqb k euro_pair
  | _ => existsb (str_eqb k) garbled_words || str_eqb k (lit "hyphenated_word")
  end.

(** The keys of [common_fixes] that can be recorded. *)
Definition reachable_fixes : list str := garbled_words ++ [euro_pair].



(** ** Concrete environments

    Runs on documents whose text stays within Latin-1 (and U+FFFD), so that
    nothing is asked of the Unicode database above U+00FF except about
    U+FFFD, which is neither a letter nor a digit. *)

Definition latin1_db : UnicodeDB := {|
  alnum_hi := fun _ => false;
  decimal_hi := fun _ => false;
  lower_hi := fun s => s
|}.

(** A formatter that returns the staged text as it is. *)
Definition formatter_ok (staged : str) : result str := Ok staged.



(** unidecode on ASCII text and on the euro sign; any other character is
    dropped, as unidecode drops what it has no transliteration for. *)
Definition transliterate (s : str) : str :=
  flat_map (fun c => if c <? 128 then [c]
                     else if c =? 0x20AC then lit "EUR" else []) s.

(** An environment with one extraction result per extractor and path:
    chardet names ASCII bytes "ascii" and anything else "utf-8", and the
    two codecs behave as Python's; any other codec name raises. *)
Definition world (fitz : path -> option (list str))
    (plumber : path -> option (list (option str)))
    (formatter : str -> result str) : Env := {|
  udb := latin1_db;
  unidecode := transliterate;
  chardet_detect := fun b =>
    if forallb (fun x => x <? 128) b then Some (lit "ascii") else Some (lit "utf-8");
  recode := fun enc s =>
    if str_eqb enc (lit "ascii") then Some (ascii_ignore_roundtrip s)
    else if str_eqb enc (lit "utf-8") then Some (utf8_ignore_roundtrip s)
    else None;
  path_exists := fun p => match fitz p, plumber p with None, None => false | _, _ => true end;
  fitz_pages := fitz;
  pdfplumber_pages := plumber;
  docling := formatter
|}.

Definition doc_a : path := lit "a.pdf".
Definition doc_b : path := lit "b.pdf".
Definition out_dir : path := lit "processed_documents".

(** A page of Portuguese text with one article header. *)
Definition regulamento : str :=
  lit "Art. 1 O regulamento do programa de mestrado define as normas que orientam a pesquisa e o ensino dos alunos.".

(** The same kind of page with the garbled word that the table of known
    fixes repairs (U+00EE in the middle). *)
Definition regulamento_garbled : str :=
  lit "O regulamento do programa de P" ++ [0xEE] ++
  lit "S graduacao define as normas que orientam a pesquisa e o ensino dos alunos do curso.".

(** A page of English text in which the same three characters occur. *)
Definition rules_page : str :=
  lit "Mr. Smith brings thin tin bins in which P" ++ [0xEE] ++
  lit "S kings sit; this interim bulk bin is within his million dim rings in spring.".

Definition one_page (file : path) (page : str) (p : path) : option (list str) :=
  if str_eqb p file then Some [page] else None.

Definition no_plumber (p : path) : option (list (option str)) := None.

(** One Portuguese document, read by PyMuPDF only. *)
Definition world_pt : Env := world (one_page doc_a regulamento) no_plumber formatter_ok.

(** Two documents, the first Portuguese and garbled, the second English. *)
Definition two_pages (p : path) : option (list str) :=
  if str_eqb p doc_a then Some [regulamento_garbled]
  else if str_eqb p doc_b then Some [rules_page]
  else None.

Definition world_two : Env := world two_pages no_plumber formatter_ok.

(** Both extractors return the same three characters. *)
Definition world_short : Env :=
  world (one_page doc_a (lit "abc"))
        (fun p => if str_eqb p doc_a then Some [Some (lit "abc")] else None)
        formatter_ok.

(** Two candidate extractions of 200 characters. *)
Definition candidate_plain : str := repeat 0x61 200.
Definition candidate_spaced : str := [0x00] ++ repeat 0x20 40 ++ repeat 0x61 159.

(** One hundred characters, five of them U+FFFD. *)
Definition candidate_marked : str := repeat 0xFFFD 5 ++ repeat 0x61 95.

(** Two hundred clean characters, forty of them spaces. *)
Definition candidate_clean : str := repeat 0x20 40 ++ repeat 0x61 160.

(** ** The score as the specification words it *)

Definition corruption_marker (c : char) : bool := (c =? 0xFFFD) || (c =? 0x00).

Definition marker_ratio (text : str) : Q :=
  ratio (length (filter corruption_marker text)) (length text).

Definition spec_quality (E : Env) (text : str) : Q :=
  if (length text <? 100)%nat then 0
  else
    ((6 # 10) * valid_ratio E text +
     (2 # 10) * (if qlt (1 # 10) (space_ratio text) && qlt (space_ratio text) (3 # 10)
                 then 1 # 10 else 0) +
     (2 # 10) * (1 - qmin (10 * marker_ratio text) 1))%Q.

Definition char_count (c : char) (s : str) : nat := length (filter (Z.eqb c) s).



(** ** Reading a trace *)


(** An extraction that [extract_text] cannot keep. *)
Definition unusable (E : Env) (text : str) : Prop :=
  text = [] \/ (_evaluate_text_quality E text == 0)%Q.

Definition keys {V : Type} (d : list (str * V)) : list str := map fst d.

(** A page of English text with the mojibake pair, a euro sign and a word
    broken at the end of a line. *)
Definition inn_page : str :=
  lit "Mr. Smith brings thin tin bins in which kings sit " ++ euro_pair ++
  lit "within" ++ euro_pair ++ lit " his dim inn; bill: 5" ++ [0x20AC] ++
  lit " in spring, with this twin -" ++ [0x0A] ++ lit "ring and a win-" ++ [0x0A] ++
  lit "dow." .

Definition world_en : Env := world (one_page doc_a inn_page) no_plumber formatter_ok.

(** A document whose second page has no text for pdfplumber. *)
Definition blank_second_page (p : path) : option (list (option str)) :=
  if str_eqb p doc_a then Some [Some (lit "abc"); None] else None.

Definition world_blank : Env :=
  world (one_page doc_a (lit "abc")) blank_second_page formatter_ok.

(** One hundred replacement characters. *)
Definition candidate_lost : str := repeat 0xFFFD 100.

(** Two extractions of one hundred characters whose scores are both 0.698
    in exact arithmetic. *)
Definition candidate_tilde : str := repeat 0x7E 17 ++ repeat 0x61 82.
Definition candidate_nul : str := repeat 0x00 3 ++ repeat 0x7E 4 ++ repeat 0x61 92.

Definition world_rounding : Env :=
  world (one_page doc_a candidate_tilde)
        (fun p => if str_eqb p doc_a then Some [Some candidate_nul] else None)
        formatter_ok.

(** Two hundred characters: three U+FFFD, or four U+0000. *)
Definition candidate_replaced : str := repeat 0xFFFD 3 ++ repeat 0x61 197.
Definition candidate_nulled : str := repeat 0x00 4 ++ repeat 0x61 196.

(** Texts of U+FFFD, U+0000, spaces, tildes and letters in many
    proportions. *)
Definition sample_texts : list str :=
  flat_map (fun i =>
    flat_map (fun j =>
      map (fun k =>
             repeat 0xFFFD i ++ repeat 0x00 (j / 7) ++ repeat 0x20 j ++
             repeat 0x7E (i + 3) ++ repeat 0x61 k)
          [60; 99; 157; 200; 333]%nat)
      [0; 10; 11; 29; 30; 31; 40; 90]%nat)
    [0; 1; 3; 7; 10; 20]%nat.

(** U+0000 followed by [n] letters. *)
Definition long_text (n : Z) : str := [0x00] ++ repeat 0x61 (Z.to_nat n).



(** Two documents of the same name in two directories. *)
Definition doc_x : path := lit "x/a.pdf".
Definition doc_y : path := lit "y/a.pdf".

Definition same_name_pages (p : path) : option (list str) :=
  if str_eqb p doc_x then Some [regulamento]
  else if str_eqb p doc_y then Some [rules_page]
  else None.

Definition world_same_name : Env := world same_name_pages no_plumber formatter_ok.

(** The third term of the float score, from the problem ratio. *)
Definition double_marker_term (p : Q) : Q :=
  Double.fmul (Double.fsub 1 (qmin (Double.fmul p 10) 1)) (Double.literal (2 # 10)).

(** The text that the last of [pdf_files] with the output path [p] returns,
    every document being processed alone by a new processor. *)
Fixpoint last_written (E : Env) (pdf_files : list path) (p : path) : option str :=
  match pdf_files with
  | [] => None
  | pdf_file :: rest =>
      match last_written E rest p with
      | Some text => Some text
      | None =>
          match returned (process_file E init [] pdf_file OUTPUT_DIR) with
          | Ok (Some text) =>
              if str_eqb (output_file pdf_file OUTPUT_DIR) p then Some text else None
          | _ => None
          end
      end
  end.

(** * Properties *)

(** ** The scan of [re.sub] *)

Lemma length_app_sub {A} (u rest : list A) :
  (length (u ++ rest) - length rest)%nat = length u.
Proof. rewrite length_app. lia. Qed.

Section RegexFacts.
Variable w : char -> bool.

(** Stepping over the rest of a match. *)
Lemma sub_from_skip r tpl (u rest : str) prev :
  Re.sub_from w r tpl prev (u ++ rest) (length u) =
  Re.sub_from w r tpl (last_char prev u) rest 0.
Proof.
  revert prev; induction u as [|c u IH]; intros prev.
  - destruct rest; reflexivity.
  - cbn [app length Re.sub_from]. rewrite IH. reflexivity.
Qed.

(** Where nothing matches, the character is copied. *)
Lemma sub_from_nomatch r tpl prev c s :
  Re.match_here w r prev (c :: s) = None ->
  Re.sub_from w r tpl prev (c :: s) 0 = c :: Re.sub_from w r tpl (Some c) s 0.
Proof. intros H. cbn [Re.sub_from]. rewrite H. reflexivity. Qed.

(** Where [c :: u] matches, the template is written and the scan resumes
    after it. *)
Lemma sub_from_match r tpl prev c u rest cs :
  Re.match_here w r prev (c :: u ++ rest) = Some (rest, cs) ->
  Re.sub_from w r tpl prev (c :: u ++ rest) 0 =
  Re.expand tpl cs ++ Re.sub_from w r tpl (last_char (Some c) u) rest 0.
Proof.
  intros H. cbn [Re.sub_from]. rewrite H.
  change (c :: u ++ rest) with ((c :: u) ++ rest).
  rewrite length_app_sub. cbn [length].
  rewrite sub_from_skip. reflexivity.
Qed.

(** Replacing one character class by nothing filters it out. *)
Lemma sub_chr_delete (p : char -> bool) (s : str) (prev : option char) :
  Re.sub_from w (Re.Chr p) [] prev s 0 = filter (fun c => negb (p c)) s.
Proof.
  revert prev; induction s as [|c s IH]; intros prev; [reflexivity|].
  cbn [filter]. destruct (p c) eqn:Hp; cbn [negb].
  - rewrite (sub_from_match _ _ _ c [] s []).
    + cbn. apply IH.
    + cbn. rewrite Hp. reflexivity.
  - rewrite sub_from_nomatch.
    + f_equal. apply IH.
    + cbn. rewrite Hp. reflexivity.
Qed.

Lemma take_drop_while p s : take_while p s ++ drop_while p s = s.
Proof. induction s as [|c s IH]; cbn; [reflexivity|]. destruct (p c); cbn; congruence. Qed.

Lemma star_total {R} p (f : str -> R) prev s :
  Re.star p (fun _ s' => Some (f s')) prev s = Some (f (drop_while p s)).
Proof.
  revert prev; induction s as [|c s IH]; intros prev; cbn; [reflexivity|].
  destruct (p c); [|reflexivity]. rewrite IH. reflexivity.
Qed.

Lemma match_here_plus p prev c s :
  Re.match_here w (Re.Plus p) prev (c :: s) =
  if p c then Some (drop_while p s, []) else None.
Proof.
  unfold Re.match_here, Re.Plus. cbn [Re.run]. destruct (p c); [|reflexivity].
  apply (star_total p (fun s' => (s', @nil (nat * str)))).
Qed.

Lemma collapse_from_true p l s :
  collapse_from p l true s = collapse_from p l false (drop_while p s).
Proof.
  induction s as [|c s IH]; cbn; [reflexivity|].
  destruct (p c) eqn:Hp; [exact IH|]. cbn. rewrite Hp. reflexivity.
Qed.

Lemma length_drop_while p s : (length (drop_while p s) <= length s)%nat.
Proof. induction s as [|c s IH]; cbn; [lia|]. destruct (p c); cbn; lia. Qed.

Lemma sub_plus_collapse p l tpl :
  (forall cs, Re.expand tpl cs = l) ->
  forall n s prev, (length s <= n)%nat ->
    Re.sub_from w (Re.Plus p) tpl prev s 0 = collapse_from p l false s.
Proof.
  intros Hl. induction n as [|n IH]; intros s prev Hn.
  - destruct s; [reflexivity|cbn in Hn; lia].
  - destruct s as [|c s]; [reflexivity|]. cbn [collapse_from].
    destruct (p c) eqn:Hp.
    + rewrite <- (take_drop_while p s) at 1.
      rewrite (sub_from_match _ _ _ c _ _ []).
      * rewrite Hl, collapse_from_true. f_equal. apply IH.
        pose proof (length_drop_while p s). cbn in Hn. lia.
      * rewrite take_drop_while, match_here_plus, Hp. reflexivity.
    + rewrite sub_from_nomatch.
      * f_equal. apply IH. cbn in Hn. lia.
      * rewrite match_here_plus, Hp. reflexivity.
Qed.
End RegexFacts.

(** ** The sanitizer *)

Lemma replace_delete_char k s :
  replace [k] [] s = filter (fun c => negb (k =? c)) s.
Proof.
  unfold replace. induction s as [|c s IH]; [reflexivity|].
  cbn [replace_from startswith filter]. rewrite andb_true_r.
  destruct (k =? c); cbn [negb app length Nat.pred]; [exact IH|].
  f_equal. exact IH.
Qed.

Lemma collapse_from_chars p l b s c :
  In c (collapse_from p l b s) -> In c l \/ (In c s /\ p c = false).
Proof.
  revert b; induction s as [|c0 s IH]; intros b H; cbn in H; [contradiction|].
  destruct (p c0) eqn:Hp.
  - destruct b.
    + apply IH in H as [H|[H1 H2]]; auto. right; split; auto. right; auto.
    + apply in_app_or in H as [H|H]; auto.
      apply IH in H as [H|[H1 H2]]; auto. right; split; auto. right; auto.
  - destruct H as [<-|H].
    + right; split; auto. left; auto.
    + apply IH in H as [H|[H1 H2]]; auto. right; split; auto. right; auto.
Qed.

Section Sanitizer.
Variable E : Env.

Lemma sub_spaces_collapse s :
  sub E (spaces_re) [Re.TLit (lit " ")] s = collapse_from isspace (lit " ") false s.
Proof.
  unfold sub, Re.sub, spaces_re.
  apply (sub_plus_collapse _ _ (lit " ") _) with (n := length s); [|lia].
  intros cs. reflexivity.
Qed.

Lemma blank_lines_nothing tpl s prev :
  ~ In 0x0A s -> Re.sub_from (is_word E) blank_lines_re tpl prev s 0 = s.
Proof.
  revert prev; induction s as [|c s IH]; intros prev H; [reflexivity|].
  rewrite sub_from_nomatch.
  - f_equal. apply IH. intros H'. apply H. right; exact H'.
  - unfold Re.match_here, blank_lines_re, Cat, Re.Lit1. cbn [fold_right Re.run].
    destruct (10 =? c) eqn:Hc; [|reflexivity].
    apply Z.eqb_eq in Hc. exfalso. apply H. left. symmetry; exact Hc.
Qed.

Lemma sanitize_before_blank_lines_chars text c :
  In c (sanitize_before_blank_lines E text) -> sanitized_char c.
Proof.
  unfold sanitize_before_blank_lines. rewrite sub_spaces_collapse.
  intros H. apply collapse_from_chars in H as [H|[H Hs]].
  - destruct H as [<-|[]]. repeat split; try reflexivity; intros ?; discriminate.
  - unfold apply_corrections, replacements in H. cbn [fold_left fst snd] in H.
    rewrite !replace_delete_char in H.
    unfold sub, Re.sub, control_re in H. rewrite sub_chr_delete in H.
    unfold utf8_ignore_roundtrip in H.
    repeat (apply filter_In in H as [H ?]).
    repeat match goal with
           | X : negb _ = true |- _ => apply negb_true_iff in X
           | X : (_ =? _) = false |- _ => apply Z.eqb_neq in X
           end.
    repeat split; auto; congruence.
Qed.

(** C10: the output of [sanitize_text] holds no newline, no C0 or C1
    control character, no U+FFFD, U+00AD or U+200B; its last step, which
    collapses blank lines, leaves the text as it was; and this output is
    what [process_with_docling] stages for the formatter. *)
Theorem sanitize_text_single_line text :
  (forall c, In c (sanitize_text E text) ->
     c <> 0x0A /\ is_control c = false /\
     c <> 0xFFFD /\ c <> 0xAD /\ c <> 0x200B) /\
  sanitize_text E text = sanitize_before_blank_lines E text /\
  process_with_docling E text =
    match docling E (sanitize_text E text) with
    | Ok md_text => Ok md_text
    | Raise _ => fallback_sanitization E text
    end.
Proof.
  assert (Hnl : ~ In 0x0A (sanitize_before_blank_lines E text)).
  { intros H. apply sanitize_before_blank_lines_chars in H as (H & _).
    specialize (H eq_refl). discriminate. }
  assert (Heq : sanitize_text E text = sanitize_before_blank_lines E text).
  { unfold sanitize_text, sub, Re.sub. apply blank_lines_nothing, Hnl. }
  split; [|split].
  - intros c H. rewrite Heq in H.
    apply sanitize_before_blank_lines_chars in H as (H1 & H2 & H3 & H4 & H5 & H6).
    repeat split; auto. intros ->. specialize (H1 eq_refl). discriminate.
  - exact Heq.
  - unfold process_with_docling.
    destruct (docling E (sanitize_text E text)) as [md|[]]; reflexivity.
Qed.
End Sanitizer.

(** ** The language detector *)

Lemma startswith_split w s : startswith w s = true -> exists t, s = w ++ t.
Proof.
  revert s; induction w as [|x w IH]; intros s H; cbn in H.
  - exists s. reflexivity.
  - destruct s as [|y s]; [discriminate|].
    apply andb_true_iff in H as [Hxy H]. apply Z.eqb_eq in Hxy as ->.
    apply IH in H as [t ->]. exists t. reflexivity.
Qed.

Lemma startswith_shorter a : forall w t,
  startswith w (a ++ t) = true -> (length a <= length w)%nat -> startswith a w = true.
Proof.
  induction a as [|x a IH]; intros w t H Hlen; [reflexivity|].
  destruct w as [|y w]; [cbn in Hlen; lia|]. cbn in H |- *.
  apply andb_true_iff in H as [Hxy H]. apply Z.eqb_eq in Hxy as ->.
  rewrite Z.eqb_refl. cbn. apply (IH w t H). cbn in Hlen. lia.
Qed.

Lemma overlap_is_border w s k :
  startswith w s = true -> startswith w (skipn k s) = true ->
  (k < length w)%nat -> startswith (skipn k w) w = true.
Proof.
  intros H1 H2 Hk. apply startswith_split in H1 as [t ->].
  rewrite skipn_app in H2.
  replace (k - length w)%nat with 0%nat in H2 by lia. cbn [skipn] in H2.
  apply (startswith_shorter _ _ t H2). rewrite length_skipn. lia.
Qed.

Lemma unbordered_no_overlap w s k :
  unbordered w = true -> startswith w s = true ->
  (0 < k < length w)%nat -> startswith w (skipn k s) = false.
Proof.
  intros Hu H1 Hk. destruct (startswith w (skipn k s)) eqn:H2; [|reflexivity].
  pose proof (overlap_is_border w s k H1 H2 (proj2 Hk)) as Hb.
  unfold unbordered in Hu. rewrite forallb_forall in Hu.
  specialize (Hu k). rewrite Hb in Hu. cbn in Hu. symmetry. apply Hu.
  apply in_seq. lia.
Qed.

(** The scan of [str.count] finds every occurrence of a word that cannot
    overlap itself. *)
Lemma count_from_occurrences w :
  w <> [] -> unbordered w = true ->
  forall s skip,
    (forall j, (j < skip)%nat -> startswith w (skipn j s) = false) ->
    count_from w s skip = occurrences w s.
Proof.
  intros Hw Hu. induction s as [|c s IH]; intros skip Hskip.
  - cbn. destruct skip.
    + destruct w; [contradiction|reflexivity].
    + specialize (Hskip 0%nat ltac:(lia)). cbn [skipn] in Hskip. rewrite Hskip. reflexivity.
  - cbn [count_from occurrences]. destruct skip as [|n].
    + destruct (startswith w (c :: s)) eqn:Hst.
      * cbn [Nat.add]. f_equal. apply IH. intros j Hj.
        apply (unbordered_no_overlap w (c :: s) (S j) Hu Hst).
        destruct w; [contradiction|]. cbn [length Nat.pred] in Hj |- *. lia.
      * apply IH. intros j Hj. lia.
    + pose proof (Hskip 0%nat ltac:(lia)) as H0. cbn [skipn] in H0. rewrite H0.
      cbn [Nat.add]. apply IH.
      intros j Hj. apply (Hskip (S j)). lia.
Qed.

Lemma count_occurrences w s :
  w <> [] -> unbordered w = true -> count w s = occurrences w s.
Proof.
  intros Hw Hu. destruct w as [|x w]; [contradiction|]. unfold count.
  apply count_from_occurrences; [exact Hw|exact Hu|]. intros j Hj. lia.
Qed.

Section Detector.
Variable E : Env.

Lemma indicators_pt text :
  indicators E pt_words text = occurrences_of pt_words (lower E text).
Proof.
  unfold indicators, occurrences_of, pt_words. cbn [map].
  rewrite !count_occurrences by (reflexivity || discriminate). reflexivity.
Qed.

Lemma indicators_en text :
  indicators E en_words text = occurrences_of en_words (lower E text).
Proof.
  unfold indicators, occurrences_of, en_words. cbn [map].
  rewrite !count_occurrences by (reflexivity || discriminate). reflexivity.
Qed.

(** C9: [detect_language] compares the occurrences of the five Portuguese
    words with those of the five English words in the lowercased text:
    Portuguese exactly when the first count is greater, English exactly
    when the second is, unknown exactly when they are equal. *)
Theorem detect_language_vote text :
  let pt := occurrences_of pt_words (lower E text) in
  let en := occurrences_of en_words (lower E text) in
  (detect_language E text = Portuguese <-> (en < pt)%nat) /\
  (detect_language E text = English <-> (pt < en)%nat) /\
  (detect_language E text = Unknown <-> pt = en).
Proof.
  cbv zeta. unfold detect_language. rewrite indicators_pt, indicators_en.
  set (pt := occurrences_of pt_words (lower E text)).
  set (en := occurrences_of en_words (lower E text)).
  destruct (en <? pt)%nat eqn:H1; [apply Nat.ltb_lt in H1|apply Nat.ltb_ge in H1].
  - repeat split; intros; try reflexivity; try discriminate; lia.
  - destruct (pt <? en)%nat eqn:H2; [apply Nat.ltb_lt in H2|apply Nat.ltb_ge in H2];
      repeat split; intros; try reflexivity; try discriminate; lia.
Qed.
End Detector.

(** ** The quality scorer and the choice of an extraction *)

Lemma qlt_iff a b : qlt a b = true <-> (a < b)%Q.
Proof.
  unfold qlt. rewrite negb_true_iff. split; intros H.
  - apply Qnot_le_lt. intros Hle. apply Qle_bool_iff in Hle. congruence.
  - destruct (Qle_bool b a) eqn:Hb; [|reflexivity].
    apply Qle_bool_iff in Hb. exfalso. apply (Qlt_not_le _ _ H Hb).
Qed.

Lemma qlt_false_iff a b : qlt a b = false <-> (b <= a)%Q.
Proof.
  unfold qlt. rewrite negb_false_iff. apply Qle_bool_iff.
Qed.

Lemma qmin_spec a b :
  (qmin a b <= a /\ qmin a b <= b /\ (qmin a b == a \/ qmin a b == b))%Q.
Proof.
  unfold qmin. destruct (qlt b a) eqn:H.
  - apply qlt_iff in H. split; [|split]; lra.
  - apply qlt_false_iff in H. split; [|split]; lra.
Qed.

Lemma qmin_mono a b c : (a <= b -> qmin a c <= qmin b c)%Q.
Proof.
  intros H. destruct (qmin_spec a c) as (H1 & H2 & _).
  destruct (qmin_spec b c) as (_ & _ & [H3|H3]); rewrite H3; lra.
Qed.

Lemma ratio_nonneg n len : (0 <= ratio n len)%Q.
Proof. unfold ratio, Qle. cbn. lia. Qed.

Lemma ratio_le_1 n len : (n <= len)%nat -> (0 < len)%nat -> (ratio n len <= 1)%Q.
Proof.
  intros H Hlen. unfold ratio, Qle. cbn. rewrite Z.mul_1_r.
  rewrite <- positive_nat_Z, Nat2Pos.id by lia. lia.
Qed.

Lemma count_char c s : count [c] s = char_count c s.
Proof.
  unfold count, char_count. induction s as [|d s IH]; [reflexivity|].
  cbn [count_from startswith filter]. rewrite andb_true_r.
  destruct (c =? d); cbn [length Nat.pred]; [f_equal|]; exact IH.
Qed.

Section Scorer.
Variable E : Env.

Lemma valid_chars_le text : (valid_chars E text <= length text)%nat.
Proof. unfold valid_chars. apply filter_length_le. Qed.

(** A text of fewer than one hundred characters scores 0. *)
Lemma quality_of_short_text text :
  (length text < 100)%nat -> _evaluate_text_quality E text = 0%Q.
Proof.
  intros H. unfold _evaluate_text_quality.
  apply Nat.ltb_lt in H. rewrite H. reflexivity.
Qed.

Lemma space_bonus_range text : (0 <= space_bonus text <= 1 # 10)%Q.
Proof. unfold space_bonus. destruct (_ && _); split; lra || (unfold Qle; cbn; lia). Qed.

(** The scorer rejects a text of fewer than one hundred characters. *)
Theorem quality_zero_below_hundred text :
  (length text < 100)%nat -> _evaluate_text_quality E text = 0%Q.
Proof.
  intros H. unfold _evaluate_text_quality.
  destruct (length text <? 100)%nat eqn:Hlen; [reflexivity|].
  apply Nat.ltb_ge in Hlen. lia.
Qed.

(** Every score lies between 0 and 1. *)
Theorem quality_in_unit_interval text :
  (0 <= _evaluate_text_quality E text <= 1)%Q.
Proof.
  unfold _evaluate_text_quality.
  destruct (length text <? 100)%nat eqn:Hlen; [split; lra|].
  apply Nat.ltb_ge in Hlen.
  pose proof (ratio_nonneg (valid_chars E text) (length text)) as Hv0.
  pose proof (ratio_le_1 _ _ (valid_chars_le text) ltac:(lia)) as Hv1.
  pose proof (space_bonus_range text) as [Hs0 Hs1].
  pose proof (ratio_nonneg (problem_chars text) (length text)) as Hp0.
  fold (valid_ratio E text) in Hv0, Hv1. fold (problem_ratio text) in Hp0.
  destruct (qmin_spec (problem_ratio text * 10) 1) as (Hm1 & Hm2 & [Hm|Hm]);
    rewrite Hm; split; lra.
Qed.


Lemma try_method_step file_path best method :
  (0 <= snd best)%Q ->
  try_method E file_path best method =
  if qlt (snd best) (_evaluate_text_quality E (method file_path))
  then (method file_path, _evaluate_text_quality E (method file_path))
  else best.
Proof.
  intros Hb. unfold try_method.
  destruct (method file_path) as [|c t] eqn:Ht; [|reflexivity].
  cbn [is_empty].
  assert (Hq : qlt (snd best) (_evaluate_text_quality E []) = false).
  { apply qlt_false_iff. rewrite quality_of_short_text by (cbn; lia). exact Hb. }
  rewrite Hq. reflexivity.
Qed.

Lemma extract_text_best st file_path :
  fst (extract_text E st file_path) = fst (best_extraction E file_path).
Proof.
  unfold extract_text. destruct (fst (best_extraction E file_path)); reflexivity.
Qed.

Lemma best_extraction_cases file_path :
  let t1 := _extract_with_fitz E file_path in
  let t2 := _extract_with_pdfplumber E file_path in
  let s1 := _evaluate_text_quality E t1 in
  let s2 := _evaluate_text_quality E t2 in
  best_extraction E file_path =
  if qlt 0 s1 then (if qlt s1 s2 then (t2, s2) else (t1, s1))
  else (if qlt 0 s2 then (t2, s2) else ([], 0%Q)).
Proof.
  cbv zeta. unfold best_extraction, methods. cbn [fold_left].
  rewrite (try_method_step _ ([], 0%Q)) by (cbn; lra). cbn [snd].
  destruct (qlt 0 (_evaluate_text_quality E (_extract_with_fitz E file_path))) eqn:H1.
  - apply qlt_iff in H1.
    rewrite try_method_step by (cbn [snd]; apply Qlt_le_weak, H1). reflexivity.
  - rewrite try_method_step by (cbn [snd]; lra). reflexivity.
Qed.

End Scorer.

Lemma problem_chars_counts text :
  problem_chars text = (2 * char_count 0xFFFD%Z text + char_count 0x00%Z text)%nat.
Proof.
  unfold problem_chars, problem_markers. cbn [map sum fold_right].
  rewrite !count_char. lia.
Qed.

(** C3: what the code computes where the claim fails.  [problem_chars]
    counts U+FFFD twice, so on one hundred characters with five U+FFFD the
    score is 0.57 where the formula of the specification gives 0.67. *)
Theorem quality_counts_replacement_character_twice :
  (forall text,
     problem_chars text = (2 * char_count 0xFFFD%Z text + char_count 0x00%Z text)%nat) /\
  (_evaluate_text_quality world_pt candidate_marked == 57 # 100)%Q /\
  (spec_quality world_pt candidate_marked == 67 # 100)%Q.
Proof.
  split; [exact problem_chars_counts|]. split; vm_compute; reflexivity.
Qed.

(** Three characters score 0. *)
Lemma quality_zero_below_hundred_witness :
  _evaluate_text_quality world_short (lit "abc") = 0%Q.
Proof.
  apply (quality_zero_below_hundred world_short (lit "abc")). vm_compute. lia.
Defined.

(** ** The scores in double precision *)

(** *** Rounding *)

Lemma pow2_pos e : (0 < Double.pow2 e)%Q.
Proof. apply Qpower_0_lt. reflexivity. Qed.

Lemma pow2_add a b : (Double.pow2 (a + b) == Double.pow2 a * Double.pow2 b)%Q.
Proof. apply Qpower_plus. discriminate. Qed.

Lemma pow2_le a b : a <= b -> (Double.pow2 a <= Double.pow2 b)%Q.
Proof. intros H. apply Qpower_le_compat_l; [exact H|discriminate]. Qed.

Lemma pow2_Z n : 0 <= n -> (Double.pow2 n == inject_Z (2 ^ n))%Q.
Proof. intros H. unfold Double.pow2. rewrite Zpower_Qpower by exact H. reflexivity. Qed.

Lemma pow2_cancel a : (Double.pow2 a * Double.pow2 (- a) == 1)%Q.
Proof. rewrite <- pow2_add, Z.add_opp_diag_r. reflexivity. Qed.

Lemma nearest_even_bounds q :
  Qfloor q <= Double.nearest_even q <= Qfloor q + 1.
Proof.
  unfold Double.nearest_even. destruct (_ ?= _)%Q; [destruct (Z.even _)| |]; lia.
Qed.

Lemma nearest_even_Z z : Double.nearest_even (inject_Z z) = z.
Proof.
  unfold Double.nearest_even. rewrite Qfloor_Z.
  assert (H : (inject_Z z - inject_Z z ?= 1 # 2)%Q = Lt).
  { rewrite <- Qlt_alt. generalize (inject_Z z) as a. intros a. lra. }
  rewrite H. reflexivity.
Qed.

Lemma nearest_even_mono x y :
  (x <= y)%Q -> Double.nearest_even x <= Double.nearest_even y.
Proof.
  intros H. pose proof (Qfloor_resp_le x y H) as Hf.
  pose proof (nearest_even_bounds x) as Bx. pose proof (nearest_even_bounds y) as By.
  destruct (Z.eq_dec (Qfloor x) (Qfloor y)) as [He|Hne]; [|lia].
  unfold Double.nearest_even in *. rewrite He in *.
  destruct (x - inject_Z (Qfloor y) ?= 1 # 2)%Q eqn:Hx;
    destruct (y - inject_Z (Qfloor y) ?= 1 # 2)%Q eqn:Hy;
    try (destruct (Z.even (Qfloor y))); try lia;
    try rewrite <- Qeq_alt in Hx; try rewrite <- Qlt_alt in Hx; try rewrite <- Qgt_alt in Hx;
    try rewrite <- Qeq_alt in Hy; try rewrite <- Qlt_alt in Hy; try rewrite <- Qgt_alt in Hy;
    exfalso; lra.
Qed.

Lemma ilog2_spec q : (0 < q)%Q ->
  (Double.pow2 (Double.ilog2 q) <= q /\ q < Double.pow2 (Double.ilog2 q + 1))%Q.
Proof.
  intros Hq. unfold Double.ilog2. destruct (Qle_bool 1 q) eqn:H1.
  - apply Qle_bool_iff in H1.
    assert (Hf : 0 < Qfloor q).
    { pose proof (Qfloor_resp_le 1 q H1) as H. change (Qfloor 1) with 1 in H. lia. }
    destruct (Z.log2_spec _ Hf) as [Ha Hb].
    pose proof (Z.log2_nonneg (Qfloor q)) as Hn.
    rewrite !pow2_Z by lia. split.
    + apply Qle_trans with (inject_Z (Qfloor q)); [|apply Qfloor_le].
      rewrite <- Zle_Qle. exact Ha.
    + apply Qlt_le_trans with (inject_Z (Qfloor q + 1)); [apply Qlt_floor|].
      rewrite <- Zle_Qle.
      change (Z.log2 (Qfloor q) + 1) with (Z.succ (Z.log2 (Qfloor q))). lia.
  - assert (Hlt : (q < 1)%Q).
    { apply Qnot_le_lt. intros H. apply Qle_bool_iff in H. congruence. }
    assert (Hinv : (1 < / q)%Q).
    { apply Qlt_shift_inv_l; [exact Hq|]. lra. }
    set (c := Qceiling (/ q)).
    assert (Hc : 1 < c).
    { pose proof (Qle_ceiling (/ q)) as H. fold c in H.
      assert (H' : (inject_Z 1 < inject_Z c)%Q) by (change (inject_Z 1) with 1%Q; lra).
      rewrite <- Zlt_Qlt in H'. exact H'. }
    destruct (Z.log2_up_spec _ Hc) as [Ha Hb].
    pose proof (Z.log2_up_pos _ Hc) as Hk.
    set (k := Z.log2_up c) in *.
    assert (Hqq : (/ q * q == 1)%Q).
    { rewrite Qmult_comm. apply Qmult_inv_r. lra. }
    split.
    + unfold Double.pow2. rewrite Qpower_opp. fold (Double.pow2 k).
      apply Qle_shift_inv_r; [apply pow2_pos|].
      assert (H : (/ q <= Double.pow2 k)%Q).
      { rewrite pow2_Z by lia.
        apply Qle_trans with (inject_Z c); [apply Qle_ceiling|].
        rewrite <- Zle_Qle. exact Hb. }
      apply (Qmult_le_compat_r _ _ q) in H; [|lra].
      rewrite Hqq in H. rewrite Qmult_comm. exact H.
    + replace (- k + 1) with (- (k - 1)) by lia.
      unfold Double.pow2. rewrite Qpower_opp. fold (Double.pow2 (k - 1)).
      apply Qlt_shift_inv_l; [apply pow2_pos|].
      assert (H : (Double.pow2 (k - 1) < / q)%Q).
      { rewrite pow2_Z by lia.
        apply Qle_lt_trans with (inject_Z (c - 1)); [|apply Qceiling_lt].
        rewrite <- Zle_Qle. change (Z.pred k) with (k - 1) in Ha. lia. }
      apply (Qmult_lt_compat_r _ _ q) in H; [|exact Hq].
      rewrite Hqq in H. rewrite Qmult_comm. exact H.
Qed.

Lemma ilog2_mono x y : (0 < x)%Q -> (x <= y)%Q -> Double.ilog2 x <= Double.ilog2 y.
Proof.
  intros Hx Hxy.
  destruct (ilog2_spec x Hx) as [A _].
  destruct (ilog2_spec y) as [_ B]; [lra|].
  destruct (Z_lt_le_dec (Double.ilog2 y) (Double.ilog2 x)) as [H|H]; [|exact H].
  exfalso.
  assert (H' : (Double.pow2 (Double.ilog2 y + 1) <= Double.pow2 (Double.ilog2 x))%Q)
    by (apply pow2_le; lia).
  lra.
Qed.

Lemma scaled_range q : (0 < q)%Q ->
  (Double.pow2 52 <= q * Double.pow2 (52 - Double.ilog2 q) /\
   q * Double.pow2 (52 - Double.ilog2 q) <= Double.pow2 53)%Q.
Proof.
  intros Hq. destruct (ilog2_spec q Hq) as [A B].
  pose proof (pow2_pos (52 - Double.ilog2 q)) as Hp.
  split.
  - replace 52 with (Double.ilog2 q + (52 - Double.ilog2 q)) at 1 by lia.
    rewrite pow2_add. apply Qmult_le_compat_r; [exact A|lra].
  - replace 53 with ((Double.ilog2 q + 1) + (52 - Double.ilog2 q)) by lia.
    rewrite pow2_add. apply Qmult_le_compat_r; [lra|lra].
Qed.

Lemma round_pos_range q : (0 < q)%Q ->
  (Double.pow2 (Double.ilog2 q) <= Double.round_pos q /\
   Double.round_pos q <= Double.pow2 (Double.ilog2 q + 1))%Q.
Proof.
  intros Hq. destruct (scaled_range q Hq) as [A B].
  unfold Double.round_pos. cbv zeta.
  set (m := (q * Double.pow2 (52 - Double.ilog2 q))%Q) in *.
  pose proof (pow2_pos (Double.ilog2 q - 52)) as Hp.
  rewrite (pow2_Z 52) in A by lia. rewrite (pow2_Z 53) in B by lia.
  apply nearest_even_mono in A, B. rewrite nearest_even_Z in A, B.
  split.
  - replace (Double.ilog2 q) with (52 + (Double.ilog2 q - 52)) at 1 by lia.
    rewrite pow2_add. apply Qmult_le_compat_r; [|lra].
    rewrite pow2_Z by lia. rewrite <- Zle_Qle. exact A.
  - replace (Double.ilog2 q + 1) with (53 + (Double.ilog2 q - 52)) by lia.
    rewrite pow2_add. apply Qmult_le_compat_r; [|lra].
    rewrite pow2_Z by lia. rewrite <- Zle_Qle. exact B.
Qed.

Lemma round_pos_mono x y : (0 < x)%Q -> (x <= y)%Q ->
  (Double.round_pos x <= Double.round_pos y)%Q.
Proof.
  intros Hx Hxy. pose proof (ilog2_mono x y Hx Hxy) as He.
  destruct (Z.eq_dec (Double.ilog2 x) (Double.ilog2 y)) as [Heq|Hne].
  - unfold Double.round_pos. cbv zeta. rewrite Heq.
    pose proof (pow2_pos (Double.ilog2 y - 52)) as Hp.
    pose proof (pow2_pos (52 - Double.ilog2 y)) as Hp'.
    apply Qmult_le_compat_r; [|lra]. rewrite <- Zle_Qle.
    apply nearest_even_mono. apply Qmult_le_compat_r; [exact Hxy|lra].
  - destruct (round_pos_range x Hx) as [_ A].
    destruct (round_pos_range y) as [B _]; [lra|].
    assert (H : (Double.pow2 (Double.ilog2 x + 1) <= Double.pow2 (Double.ilog2 y))%Q)
      by (apply pow2_le; lia).
    lra.
Qed.

Lemma Qnum_sign q :
  match Qnum q with
  | Z0 => (q == 0)%Q
  | Zpos _ => (0 < q)%Q
  | Zneg _ => (q < 0)%Q
  end.
Proof. destruct q as [[|n|n] d]; unfold Qeq, Qlt; cbn; lia. Qed.

Lemma round64_pos q : (0 < q)%Q -> (Double.round64 q == Double.round_pos q)%Q.
Proof.
  intros H. unfold Double.round64. pose proof (Qnum_sign q) as Hs.
  destruct (Qnum q); [lra|apply Qred_correct|lra].
Qed.

Lemma round64_zero q : (q == 0)%Q -> Double.round64 q = 0%Q.
Proof.
  intros H. unfold Double.round64. pose proof (Qnum_sign q) as Hs.
  destruct (Qnum q); [reflexivity|lra|lra].
Qed.

Lemma round64_positive q : (0 < q)%Q -> (0 < Double.round64 q)%Q.
Proof.
  intros H. rewrite round64_pos by exact H.
  destruct (round_pos_range q H) as [A _]. pose proof (pow2_pos (Double.ilog2 q)). lra.
Qed.

Lemma round64_nonneg q : (0 <= q)%Q -> (0 <= Double.round64 q)%Q.
Proof.
  intros H. destruct (Qlt_le_dec 0 q) as [Hq|Hq].
  - apply Qlt_le_weak, round64_positive, Hq.
  - rewrite round64_zero by lra. lra.
Qed.

(** Rounding keeps the order. *)
Lemma round64_mono x y : (0 <= x)%Q -> (x <= y)%Q ->
  (Double.round64 x <= Double.round64 y)%Q.
Proof.
  intros Hx Hxy. destruct (Qlt_le_dec 0 x) as [Hq|Hq].
  - rewrite !round64_pos by lra. apply round_pos_mono; assumption.
  - rewrite (round64_zero x) by lra. apply round64_nonneg. lra.
Qed.

Lemma round64_comp x y : (0 <= x)%Q -> (x == y)%Q ->
  (Double.round64 x == Double.round64 y)%Q.
Proof.
  intros Hx H. apply Qle_antisym; apply round64_mono; lra.
Qed.

(** *** The score *)

(** The operations keep the order of what is not negative. *)
Lemma fmul_mono a b c : (0 <= a)%Q -> (a <= b)%Q -> (0 <= c)%Q ->
  (Double.fmul a c <= Double.fmul b c)%Q.
Proof.
  intros Ha Hab Hc. unfold Double.fmul. apply round64_mono.
  - apply Qmult_le_0_compat; assumption.
  - apply Qmult_le_compat_r; assumption.
Qed.

Lemma fadd_mono a b c d : (0 <= a)%Q -> (a <= b)%Q -> (0 <= c)%Q -> (c <= d)%Q ->
  (Double.fadd a c <= Double.fadd b d)%Q.
Proof.
  intros Ha Hab Hc Hcd. unfold Double.fadd. apply round64_mono; lra.
Qed.

Lemma fdiv_mono n len n' len' :
  (ratio n len <= ratio n' len')%Q -> (Double.fdiv n len <= Double.fdiv n' len')%Q.
Proof.
  intros H. unfold Double.fdiv. apply round64_mono; [apply ratio_nonneg|exact H].
Qed.

(** Two ratios that are ordered as floats are ordered as rationals. *)
Lemma fdiv_reflects n len n' len' :
  (Double.fdiv n len < Double.fdiv n' len')%Q -> (ratio n len < ratio n' len')%Q.
Proof.
  intros H. apply Qnot_le_lt. intros Hle.
  apply (Qlt_not_le _ _ H), fdiv_mono, Hle.
Qed.

Lemma fmul_nonneg a b : (0 <= a)%Q -> (0 <= b)%Q -> (0 <= Double.fmul a b)%Q.
Proof. intros Ha Hb. apply round64_nonneg, Qmult_le_0_compat; assumption. Qed.

Lemma fdiv_nonneg n len : (0 <= Double.fdiv n len)%Q.
Proof. apply round64_nonneg, ratio_nonneg. Qed.

Lemma literal_nonneg q : (0 <= q)%Q -> (0 <= Double.literal q)%Q.
Proof. apply round64_nonneg. Qed.

Section DoubleScorer.
Variable E : Env.

Lemma double_quality_of_short_text text :
  (length text < 100)%nat -> Double._evaluate_text_quality E text = 0%Q.
Proof.
  intros H. unfold Double._evaluate_text_quality.
  apply Nat.ltb_lt in H. rewrite H. reflexivity.
Qed.

Lemma double_space_bonus_cases text :
  Double.space_bonus text = 0%Q \/ Double.space_bonus text = Double.literal (1 # 10).
Proof. unfold Double.space_bonus. destruct (_ && _); auto. Qed.

Lemma double_space_bonus_range text :
  (0 <= Double.space_bonus text <= Double.literal (1 # 10))%Q.
Proof.
  assert (H : (0 <= Double.literal (1 # 10))%Q) by (apply literal_nonneg; lra).
  destruct (double_space_bonus_cases text) as [->| ->]; lra.
Qed.

Lemma double_marker_term_antitone p p' : (0 <= p)%Q -> (p <= p')%Q ->
  (0 <= double_marker_term p' <= double_marker_term p)%Q.
Proof.
  intros Hp Hpp. unfold double_marker_term.
  assert (H2 : (0 <= Double.literal (2 # 10))%Q) by (apply literal_nonneg; lra).
  assert (Hm : (qmin (Double.fmul p 10) 1 <= qmin (Double.fmul p' 10) 1)%Q).
  { apply qmin_mono, fmul_mono; lra. }
  destruct (qmin_spec (Double.fmul p' 10) 1) as (_ & Hle & _).
  assert (Hs : (0 <= Double.fsub 1 (qmin (Double.fmul p' 10) 1))%Q).
  { apply round64_nonneg. lra. }
  split.
  - apply fmul_nonneg; assumption.
  - apply fmul_mono; [exact Hs| |exact H2].
    unfold Double.fsub. apply round64_mono; lra.
Qed.

Lemma double_quality_long text : (100 <= length text)%nat ->
  Double._evaluate_text_quality E text =
  Double.fadd
    (Double.fadd (Double.fmul (Double.valid_ratio E text) (Double.literal (6 # 10)))
                 (Double.fmul (Double.space_bonus text) (Double.literal (2 # 10))))
    (double_marker_term (Double.problem_ratio text)).
Proof.
  intros H. unfold Double._evaluate_text_quality.
  apply Nat.ltb_ge in H. rewrite H. reflexivity.
Qed.

Lemma double_quality_nonneg text : (0 <= Double._evaluate_text_quality E text)%Q.
Proof.
  unfold Double._evaluate_text_quality. destruct (_ <? _)%nat; [lra|].
  apply round64_nonneg.
  pose proof (double_marker_term_antitone _ _ (fdiv_nonneg (problem_chars text) (length text))
                (Qle_refl _)) as [H _].
  unfold double_marker_term, Double.problem_ratio in *.
  assert (H1 : (0 <= Double.fadd (Double.fmul (Double.valid_ratio E text) (Double.literal (6 # 10)))
                        (Double.fmul (Double.space_bonus text) (Double.literal (2 # 10))))%Q).
  { apply round64_nonneg.
    assert (A : (0 <= Double.fmul (Double.valid_ratio E text) (Double.literal (6 # 10)))%Q).
    { apply fmul_nonneg; [apply fdiv_nonneg|apply literal_nonneg; lra]. }
    assert (B : (0 <= Double.fmul (Double.space_bonus text) (Double.literal (2 # 10)))%Q).
    { apply fmul_nonneg; [apply double_space_bonus_range|apply literal_nonneg; lra]. }
    lra. }
  lra.
Qed.


Lemma double_try_method_step file_path best method :
  (0 <= snd best)%Q ->
  Double.try_method E file_path best method =
  if qlt (snd best) (Double._evaluate_text_quality E (method file_path))
  then (method file_path, Double._evaluate_text_quality E (method file_path))
  else best.
Proof.
  intros Hb. unfold Double.try_method.
  destruct (method file_path) as [|c t] eqn:Ht; [|reflexivity].
  cbn [is_empty].
  assert (Hq : qlt (snd best) (Double._evaluate_text_quality E []) = false).
  { apply qlt_false_iff. rewrite double_quality_of_short_text by (cbn; lia). exact Hb. }
  rewrite Hq. reflexivity.
Qed.

Lemma double_extract_text_best st file_path :
  fst (Double.extract_text E st file_path) = fst (Double.best_extraction E file_path).
Proof.
  unfold Double.extract_text. destruct (fst (Double.best_extraction E file_path)); reflexivity.
Qed.

Lemma double_best_extraction_cases file_path :
  let t1 := _extract_with_fitz E file_path in
  let t2 := _extract_with_pdfplumber E file_path in
  let s1 := Double._evaluate_text_quality E t1 in
  let s2 := Double._evaluate_text_quality E t2 in
  Double.best_extraction E file_path =
  if qlt 0 s1 then (if qlt s1 s2 then (t2, s2) else (t1, s1))
  else (if qlt 0 s2 then (t2, s2) else ([], 0%Q)).
Proof.
  cbv zeta. unfold Double.best_extraction, methods. cbn [fold_left].
  rewrite (double_try_method_step _ ([], 0%Q)) by (cbn; lra). cbn [snd].
  destruct (qlt 0 (Double._evaluate_text_quality E (_extract_with_fitz E file_path))) eqn:H1.
  - apply qlt_iff in H1.
    rewrite double_try_method_step by (cbn [snd]; apply Qlt_le_weak, H1). reflexivity.
  - rewrite double_try_method_step by (cbn [snd]; lra). reflexivity.
Qed.

Lemma double_valid_ratio_le_1 text : (0 < length text)%nat ->
  (Double.valid_ratio E text <= 1)%Q.
Proof.
  intros Hl. unfold Double.valid_ratio, Double.fdiv.
  apply Qle_trans with (Double.round64 1).
  - apply round64_mono; [apply ratio_nonneg|].
    apply ratio_le_1; [apply valid_chars_le|exact Hl].
  - vm_compute. discriminate.
Qed.

(** No float score is above 0.8200000000000001. *)
Lemma double_quality_bound text :
  (Double._evaluate_text_quality E text <= 3692951694443807 # 4503599627370496)%Q.
Proof.
  destruct (Nat.lt_ge_cases (length text) 100) as [Hl|Hl].
  - rewrite double_quality_of_short_text by exact Hl. vm_compute. discriminate.
  - rewrite double_quality_long by exact Hl.
    assert (H6 : (0 <= Double.literal (6 # 10))%Q) by (apply literal_nonneg; lra).
    assert (H2 : (0 <= Double.literal (2 # 10))%Q) by (apply literal_nonneg; lra).
    pose proof (double_space_bonus_range text) as [Hb0 Hb1].
    assert (HA0 : (0 <= Double.fmul (Double.valid_ratio E text) (Double.literal (6 # 10)))%Q).
    { apply fmul_nonneg; [apply fdiv_nonneg|exact H6]. }
    assert (HB0 : (0 <= Double.fmul (Double.space_bonus text) (Double.literal (2 # 10)))%Q).
    { apply fmul_nonneg; assumption. }
    destruct (double_marker_term_antitone 0 (Double.problem_ratio text))
      as [HC0 HC]; [lra|apply fdiv_nonneg|].
    apply Qle_trans with
      (Double.fadd
         (Double.fadd (Double.fmul 1 (Double.literal (6 # 10)))
                      (Double.fmul (Double.literal (1 # 10)) (Double.literal (2 # 10))))
         (double_marker_term 0)).
    + apply fadd_mono; [|apply fadd_mono| |]; try assumption.
      * apply round64_nonneg. lra.
      * apply fmul_mono; [apply fdiv_nonneg|apply double_valid_ratio_le_1; lia|exact H6].
      * apply fmul_mono; assumption.
    + vm_compute. discriminate.
Qed.


Lemma marker_count text :
  length (filter corruption_marker text) =
  (char_count 0xFFFD%Z text + char_count 0x00%Z text)%nat.
Proof.
  unfold char_count, corruption_marker. induction text as [|c t IH]; [reflexivity|].
  cbn [filter]. rewrite (Z.eqb_sym c 0xFFFD), (Z.eqb_sym c 0x00).
  destruct (0xFFFD =? c) eqn:H1; destruct (0x00 =? c) eqn:H2; cbn [orb length]; lia.
Qed.



(** C5, amended: [extract_text] keeps the text of the extractor whose
    score, as the code computes it, is the highest positive one, the
    earlier text when the two scores are equal and positive, and the empty
    text when no score is positive. *)
Theorem extract_text_selects_best st file_path :
  let t1 := _extract_with_fitz E file_path in
  let t2 := _extract_with_pdfplumber E file_path in
  let s1 := Double._evaluate_text_quality E t1 in
  let s2 := Double._evaluate_text_quality E t2 in
  ((0 < s1)%Q -> (s2 <= s1)%Q -> fst (Double.extract_text E st file_path) = t1) /\
  ((0 < s2)%Q -> (s1 < s2)%Q -> fst (Double.extract_text E st file_path) = t2) /\
  ((s1 <= 0)%Q -> (s2 <= 0)%Q -> fst (Double.extract_text E st file_path) = []).
Proof.
  cbv zeta. rewrite double_extract_text_best, double_best_extraction_cases.
  generalize (_extract_with_fitz E file_path) as t1.
  generalize (_extract_with_pdfplumber E file_path) as t2.
  intros t2 t1.
  generalize (Double._evaluate_text_quality E t1) as s1.
  generalize (Double._evaluate_text_quality E t2) as s2.
  intros s2 s1.
  destruct (qlt 0 s1) eqn:H1; [apply qlt_iff in H1|apply qlt_false_iff in H1].
  - destruct (qlt s1 s2) eqn:H2; [apply qlt_iff in H2|apply qlt_false_iff in H2];
      cbn [fst]; repeat split; intros; try reflexivity; exfalso; lra.
  - destruct (qlt 0 s2) eqn:H2; [apply qlt_iff in H2|apply qlt_false_iff in H2];
      cbn [fst]; repeat split; intros; try reflexivity; exfalso; lra.
Qed.
End DoubleScorer.


(** The four scores are the floats that Python prints as 0.8,
    0.8069999999999999, 0.731 and 0.748. *)
Lemma scores_of_four_candidates :
  (Double._evaluate_text_quality world_pt candidate_plain ==
   3602879701896397 # 4503599627370496)%Q /\
  (Double._evaluate_text_quality world_pt candidate_spaced ==
   1817202449643995 # 2251799813685248)%Q /\
  (Double._evaluate_text_quality world_pt candidate_replaced ==
   6584262655215665 # 9007199254740992)%Q /\
  (Double._evaluate_text_quality world_pt candidate_nulled ==
   3368692521273131 # 4503599627370496)%Q.
Proof. repeat split; vm_compute; reflexivity. Qed.

Lemma filter_repeat {A} (f : A -> bool) a n :
  filter f (repeat a n) = if f a then repeat a n else [].
Proof.
  induction n as [|n IH]; cbn [repeat filter]; [destruct (f a); reflexivity|].
  rewrite IH. destruct (f a); reflexivity.
Qed.

Lemma ratio_Z a n : 0 <= a -> 0 < n -> ratio (Z.to_nat a) (Z.to_nat n) = a # Z.to_pos n.
Proof.
  intros Ha Hn. unfold ratio. rewrite Z2Nat.id by exact Ha. f_equal.
  destruct n as [|p|p]; lia.
Qed.

Section Long.
Variable E : Env.
Variable n : Z.
Hypothesis Hn : 100 <= n.

Lemma long_text_length : length (long_text n) = Z.to_nat (n + 1).
Proof.
  unfold long_text. rewrite length_app, repeat_length. cbn [length]. lia.
Qed.

Lemma long_text_valid : valid_chars E (long_text n) = Z.to_nat n.
Proof.
  unfold valid_chars, long_text. cbn [app filter].
  replace (valid_char E 0) with false by reflexivity.
  rewrite filter_repeat. replace (valid_char E 97) with true by reflexivity.
  apply repeat_length.
Qed.

Lemma long_text_count c : c <> 0 -> c <> 0x61 -> char_count c (long_text n) = 0%nat.
Proof.
  intros H0 H1. unfold char_count, long_text. cbn [app filter].
  apply Z.eqb_neq in H0, H1. rewrite H0, filter_repeat, H1. reflexivity.
Qed.

Lemma long_text_nul : char_count 0 (long_text n) = 1%nat.
Proof.
  unfold char_count, long_text. cbn [app filter]. rewrite filter_repeat. reflexivity.
Qed.

Lemma long_text_score :
  Double._evaluate_text_quality E (long_text n) =
  Double.fadd
    (Double.fadd (Double.fmul (Double.round64 (n # Z.to_pos (n + 1))) (Double.literal (6 # 10)))
                 (Double.fmul 0 (Double.literal (2 # 10))))
    (Double.fmul (Double.fsub 1 (qmin (Double.fmul (Double.round64 (1 # Z.to_pos (n + 1))) 10) 1))
                 (Double.literal (2 # 10))).
Proof.
  unfold Double._evaluate_text_quality.
  assert (Hl : (length (long_text n) <? 100)%nat = false).
  { apply Nat.ltb_ge. rewrite long_text_length. lia. }
  rewrite Hl.
  unfold Double.valid_ratio, Double.space_bonus, Double.space_ratio, Double.problem_ratio,
    Double.fdiv.
  rewrite problem_chars_counts, count_char, long_text_valid, long_text_nul.
  rewrite !long_text_count by discriminate.
  rewrite long_text_length.
  change (2 * 0 + 1)%nat with (Z.to_nat 1). change 0%nat with (Z.to_nat 0).
  rewrite !ratio_Z by lia.
  reflexivity.
Qed.

Lemma long_text_valid_ratio : valid_ratio E (long_text n) = n # Z.to_pos (n + 1).
Proof.
  unfold valid_ratio. rewrite long_text_valid, long_text_length. apply ratio_Z; lia.
Qed.

Lemma long_text_marker_ratio : marker_ratio (long_text n) = 1 # Z.to_pos (n + 1).
Proof.
  unfold marker_ratio. rewrite marker_count, long_text_nul, long_text_length.
  rewrite long_text_count by discriminate.
  change (0 + 1)%nat with (Z.to_nat 1). apply ratio_Z; lia.
Qed.

Lemma long_text_replaced :
  ratio (char_count 0xFFFD (long_text n)) (length (long_text n)) = 0 # Z.to_pos (n + 1).
Proof.
  rewrite long_text_length, long_text_count by discriminate.
  change 0%nat with (Z.to_nat 0). apply ratio_Z; lia.
Qed.

Lemma long_text_bonus : Double.space_bonus (long_text n) = 0%Q.
Proof.
  unfold Double.space_bonus, Double.space_ratio, Double.fdiv.
  rewrite count_char, long_text_length, long_text_count by discriminate.
  change 0%nat with (Z.to_nat 0). rewrite ratio_Z by lia. reflexivity.
Qed.
End Long.

(** The order of the floats is not strict: U+0000 and a thousand million
    letters have the higher valid ratio and the lower problem ratio than
    U+0000 and one letter fewer, and the same float for a score. *)
Lemma rounding_loses_strictness :
  let t1 := long_text 1000000000 in
  let t2 := long_text 999999999 in
  (valid_ratio world_pt t2 < valid_ratio world_pt t1)%Q /\
  (marker_ratio t1 < marker_ratio t2)%Q /\
  (ratio (char_count 0xFFFD%Z t1) (length t1) ==
   ratio (char_count 0xFFFD%Z t2) (length t2))%Q /\
  Double.space_bonus t2 = Double.space_bonus t1 /\
  (Double._evaluate_text_quality world_pt t2 == Double._evaluate_text_quality world_pt t1)%Q.
Proof.
  cbv zeta.
  rewrite !long_text_valid_ratio, !long_text_marker_ratio, !long_text_replaced,
    !long_text_bonus, !long_text_score by lia.
  repeat split; vm_compute; reflexivity.
Qed.

(** On the sample texts, and on the texts of the examples, [Double] gives
    the score that the floats of the machine give. *)
Lemma double_is_the_machine_float :
  forallb (fun text =>
             match Machine.value (Machine._evaluate_text_quality world_pt text) with
             | Some q => Qeq_bool q (Double._evaluate_text_quality world_pt text)
             | None => false
             end)
          ([candidate_plain; candidate_spaced; candidate_marked; candidate_clean;
            candidate_tilde ++ [0x0A]; candidate_nul ++ [0x0A]; candidate_replaced;
            candidate_nulled; candidate_lost; regulamento; rules_page; inn_page;
            lit "abc"] ++ sample_texts) = true.
Proof. vm_compute. reflexivity. Qed.


(** C5 fails as stated: two extractions with equal scores, both 0, and the
    output is not the earlier text but the empty one. *)
Lemma ties_at_zero_keep_nothing :
  _extract_with_fitz world_short doc_a = lit "abc" ++ [0x0A] /\
  _extract_with_pdfplumber world_short doc_a = lit "abc" ++ [0x0A] /\
  Double._evaluate_text_quality world_short (_extract_with_fitz world_short doc_a) = 0%Q /\
  Double._evaluate_text_quality world_short (_extract_with_pdfplumber world_short doc_a) = 0%Q /\
  fst (Double.extract_text world_short init doc_a) = [].
Proof. repeat split. Qed.

(** The exact values of two scores are equal, 0.698, and the floats are
    0.698 and 0.6980000000000001. *)
Lemma rounding_breaks_a_tie :
  let t1 := _extract_with_fitz world_rounding doc_a in
  let t2 := _extract_with_pdfplumber world_rounding doc_a in
  t1 = candidate_tilde ++ [0x0A] /\ t2 = candidate_nul ++ [0x0A] /\
  (_evaluate_text_quality world_rounding t1 == 349 # 500)%Q /\
  (_evaluate_text_quality world_rounding t2 == 349 # 500)%Q /\
  (Double._evaluate_text_quality world_rounding t1 ==
   1571756269952303 # 2251799813685248)%Q /\
  (Double._evaluate_text_quality world_rounding t2 ==
   6287025079809213 # 9007199254740992)%Q.
Proof. cbv zeta. repeat split; vm_compute; reflexivity. Qed.

(** The second extractor wins by one unit in the last place. *)
Lemma extract_text_selects_best_witness :
  fst (Double.extract_text world_rounding init doc_a) =
  _extract_with_pdfplumber world_rounding doc_a.
Proof.
  apply (extract_text_selects_best world_rounding init doc_a); vm_compute; reflexivity.
Defined.

(** ** The orchestrator *)

Section Orchestrator.
Variable E : Env.

Lemma fallback_sanitization_returns text :
  exists s, fallback_sanitization E text = Ok s.
Proof.
  unfold fallback_sanitization. destruct (recode E _ text); eauto.
Qed.

Lemma process_with_docling_returns text :
  exists s, process_with_docling E text = Ok s.
Proof.
  unfold process_with_docling.
  destruct (docling E (sanitize_text E text)) as [md|[]];
    eauto using fallback_sanitization_returns.
Qed.

Lemma unusable_score text : unusable E text -> (_evaluate_text_quality E text <= 0)%Q.
Proof.
  intros [->|H].
  - rewrite quality_of_short_text by (cbn; lia). lra.
  - rewrite H. lra.
Qed.

(** C7: when every extractor returns nothing or a text of score 0,
    [process_file] returns None and writes no file. *)
Theorem no_usable_extraction st fs input_path output_dir :
  (forall method, In method (methods E) -> unusable E (method input_path)) ->
  let o := process_file E st fs input_path output_dir in
  returned o = Ok None /\ files o = fs /\ trace o = [].
Proof.
  intros H. cbv zeta.
  assert (H1 := unusable_score _ (H _ (or_introl eq_refl))).
  assert (H2 := unusable_score _ (H _ (or_intror (or_introl eq_refl)))).
  unfold process_file. destruct (path_exists E input_path); cbn [negb]; [|auto].
  assert (Hraw : fst (extract_text E (set_sanitization_attempted false st) input_path) = []).
  { rewrite extract_text_best, best_extraction_cases.
    apply qlt_false_iff in H1, H2. rewrite H1, H2. reflexivity. }
  destruct (extract_text E (set_sanitization_attempted false st) input_path) as [raw st'].
  cbn [fst] in Hraw. subst raw. cbn. auto.
Qed.

(** *** What survives a run *)

Lemma keys_counter_add k c x : In x (keys c) -> In x (keys (counter_add k c)).
Proof.
  unfold keys. induction c as [|[k' n] c IH]; cbn; [contradiction|].
  destruct (str_eqb k k'); cbn; intros [H|H]; auto.
Qed.

Lemma keys_counter_update items : forall c x,
  In x (keys c) -> In x (keys (counter_update items c)).
Proof.
  unfold counter_update. induction items as [|k items IH]; intros c x H; cbn; [exact H|].
  apply IH, keys_counter_add, H.
Qed.

Lemma keys_dict_set k v d x : In x (keys d) -> In x (keys (dict_set k v d)).
Proof.
  unfold keys. induction d as [|[k' v'] d IH]; cbn; [contradiction|].
  destruct (str_eqb k k'); cbn; intros [H|H]; auto.
Qed.

Lemma keys_resolve cm error x : In x (keys cm) -> In x (keys (resolve E cm error)).
Proof.
  intros H. unfold resolve. destruct (dict_get error common_fixes).
  - apply keys_dict_set, H.
  - destruct (_ && _); [apply keys_dict_set, H|exact H].
Qed.

Lemma keys_fold_resolve errors : forall cm x,
  In x (keys cm) -> In x (keys (fold_left (resolve E) errors cm)).
Proof.
  induction errors as [|e errors IH]; intros cm x H; cbn; [exact H|].
  apply IH, keys_resolve, H.
Qed.

Lemma keys_collect_patterns l text c x :
  In x (keys c) -> In x (keys (collect_patterns E l text c)).
Proof.
  intros H. unfold collect_patterns.
  apply keys_counter_update. destruct l; try apply keys_counter_update;
    try apply keys_counter_update; exact H.
Qed.

Lemma extract_text_state st file_path :
  error_patterns (snd (extract_text E st file_path)) = error_patterns st /\
  correction_map (snd (extract_text E st file_path)) = correction_map st.
Proof.
  unfold extract_text. destruct (is_empty _); cbn; auto.
Qed.

(** The state in which a run ends: the state after [extract_text] when no
    text was found, the state after [analyze_errors] otherwise, with the
    flag raised when the retry was taken. *)
Lemma process_file_final_state st fs input_path output_dir :
  let st0 := set_sanitization_attempted false st in
  let o := process_file E st fs input_path output_dir in
  final_state o = st0 \/
  final_state o = snd (extract_text E st0 input_path) \/
  (exists b, final_state o =
     set_sanitization_attempted b
       (analyze_errors E (snd (extract_text E st0 input_path))
          (fst (extract_text E st0 input_path)))).
Proof.
  cbv zeta. unfold process_file.
  destruct (path_exists E input_path); cbn [negb]; [|left; reflexivity].
  destruct (extract_text E (set_sanitization_attempted false st) input_path)
    as [raw st1]. cbn [fst snd].
  destruct (is_empty raw); [right; left; reflexivity|].
  right; right.
  destruct (process_with_docling E _) as [final|e].
  - destruct (contains replacement_character final && _) eqn:Hc.
    + exists true.
      destruct (fallback_sanitization E raw); [|reflexivity].
      destruct (process_with_docling E a); reflexivity.
    + exists (sanitization_attempted (analyze_errors E st1 raw)).
      unfold write_output, stop. cbn [final_state].
      destruct (analyze_errors E st1 raw); reflexivity.
  - exists (sanitization_attempted (analyze_errors E st1 raw)).
    unfold stop. cbn [final_state].
    destruct (analyze_errors E st1 raw); reflexivity.
Qed.

Lemma process_file_same_maps st st' fs input_path output_dir :
  error_patterns st' = error_patterns st ->
  correction_map st' = correction_map st ->
  let o := process_file E st fs input_path output_dir in
  let o' := process_file E st' fs input_path output_dir in
  returned o' = returned o /\ files o' = files o /\ trace o' = trace o /\
  (returned o <> Ok None -> final_state o' = final_state o).
Proof.
  intros Hep Hcm. cbv zeta. unfold process_file.
  destruct (path_exists E input_path); cbn [negb];
    [|cbn; repeat split; intros []; reflexivity].
  unfold extract_text.
  destruct (is_empty (fst (best_extraction E input_path))) eqn:Hraw;
    [cbn; repeat split; intros []; reflexivity|].
  rewrite Hraw.
  set (raw := fst (best_extraction E input_path)).
  assert (Hst : analyze_errors E
                  (set_language (detect_language E raw) (set_sanitization_attempted false st')) raw =
                analyze_errors E
                  (set_language (detect_language E raw) (set_sanitization_attempted false st)) raw).
  { unfold analyze_errors. cbn. rewrite Hep, Hcm. reflexivity. }
  rewrite Hst. repeat split; reflexivity.
Qed.

(** C2, amended: [process_file] resets [sanitization_attempted] and nothing
    else.  The keys of [error_patterns] and [correction_map] are carried
    into the run and out of it, and they are all of the incoming state
    that the run depends on; [language] and [detected_encoding] are
    overwritten once a text has been extracted. *)
Theorem process_file_resets_only_the_flag st fs input_path output_dir :
  let o := process_file E st fs input_path output_dir in
  (forall b,
     process_file E (set_sanitization_attempted b st) fs input_path output_dir = o) /\
  (forall k, In k (keys (error_patterns st)) ->
             In k (keys (error_patterns (final_state o)))) /\
  (forall k, In k (keys (correction_map st)) ->
             In k (keys (correction_map (final_state o)))) /\
  (forall st',
     error_patterns st' = error_patterns st ->
     correction_map st' = correction_map st ->
     let o' := process_file E st' fs input_path output_dir in
     returned o' = returned o /\ files o' = files o /\ trace o' = trace o /\
     (returned o <> Ok None -> final_state o' = final_state o)).
Proof.
  cbv zeta. split; [|split; [|split]].
  - intros b. unfold process_file. destruct st; reflexivity.
  - intros k H.
    destruct (extract_text_state (set_sanitization_attempted false st) input_path) as [He _].
    destruct (process_file_final_state st fs input_path output_dir) as [-> | [-> | [b ->]]].
    + exact H.
    + rewrite He. exact H.
    + cbn. apply keys_collect_patterns. rewrite He. exact H.
  - intros k H.
    destruct (extract_text_state (set_sanitization_attempted false st) input_path) as [_ He].
    destruct (process_file_final_state st fs input_path output_dir) as [-> | [-> | [b ->]]].
    + exact H.
    + rewrite He. exact H.
    + cbn. apply keys_fold_resolve. rewrite He. exact H.
  - intros st' Hep Hcm. apply process_file_same_maps; assumption.
Qed.
End Orchestrator.

(** Both extractors return three characters. *)
Lemma no_usable_extraction_witness :
  returned (process_file world_short init [] doc_a out_dir) = Ok None /\
  files (process_file world_short init [] doc_a out_dir) = [] /\
  trace (process_file world_short init [] doc_a out_dir) = [].
Proof.
  apply (no_usable_extraction world_short init [] doc_a out_dir).
  intros method [<-|[<-|[]]]; right; vm_compute; reflexivity.
Defined.

(** C2 fails as stated: after a first document the correction map is not
    reset, and it changes the output of the second document. *)
Lemma state_survives_between_documents :
  let garbled := lit "P" ++ [0xEE] ++ lit "S" in
  let repaired := lit "P" ++ [0xF3] ++ lit "s" in
  let first := process_file world_two init [] doc_a out_dir in
  let reused := process_file world_two (final_state first) (files first) doc_b out_dir in
  let fresh := process_file world_two init [] doc_b out_dir in
  correction_map (final_state first) = [(garbled, repaired)] /\
  error_patterns (final_state reused) = [(garbled, 1%nat)] /\
  correction_map (final_state reused) = [(garbled, repaired)] /\
  language (final_state reused) = English /\
  (exists t, returned reused = Ok (Some t) /\ contains repaired t = true) /\
  (exists t, returned fresh = Ok (Some t) /\ contains repaired t = false).
Proof.
  cbv zeta. repeat split; try (vm_compute; reflexivity);
    eexists; split; vm_compute; reflexivity.
Qed.

(** A new processor with another language set gives the same result. *)
Lemma process_file_resets_only_the_flag_witness :
  returned (process_file world_two (set_language English init) [] doc_b out_dir) =
  returned (process_file world_two init [] doc_b out_dir).
Proof.
  apply (proj2 (proj2 (proj2 (process_file_resets_only_the_flag
           world_two init [] doc_b out_dir))) (set_language English init));
    reflexivity.
Defined.

(** C1 fails as stated: in the state reached by analysing a Portuguese
    document, correcting an article header twice wraps it twice. *)
Lemma correcting_twice_differs :
  let raw_text := fst (extract_text world_pt init doc_a) in
  let st := analyze_errors world_pt (snd (extract_text world_pt init doc_a)) raw_text in
  language st = Portuguese /\ correction_map st = [] /\
  auto_correct world_pt st (lit "Art. 1") = lit "**Art. 1**" /\
  auto_correct world_pt st (lit "**Art. 1**") = lit "****Art. 1****".
Proof. cbv zeta. repeat split; vm_compute; reflexivity. Qed.

(** ** Correcting a corrected text

    The rest of the file shows that [auto_correct] leaves its own output
    unchanged when the language is not Portuguese and the correction map
    comes from one call of [analyze_errors] on a new processor. *)

(** *** Reading the matcher backwards *)

Lemma last_char_app prev u v : last_char prev (u ++ v) = last_char (last_char prev u) v.
Proof. unfold last_char. apply fold_left_app. Qed.

Section Inversion.
Variable w : char -> bool.
Context {R : Type}.

(** Reading a run of characters. *)
Lemma star_inv p (k : option char -> str -> option R) prev s x :
  Re.star p k prev s = Some x ->
  exists u s', s = u ++ s' /\ forallb p u = true /\ k (last_char prev u) s' = Some x.
Proof.
  revert prev; induction s as [|c s IH]; intros prev H; cbn in H.
  - exists [], []. auto.
  - destruct (p c) eqn:Hp.
    + destruct (Re.star p k (Some c) s) eqn:Hs.
      * injection H as <-. apply IH in Hs as (u & s' & -> & Hu & Hk).
        exists (c :: u), s'. cbn. rewrite Hp, Hu. auto.
      * exists [], (c :: s). auto.
    + exists [], (c :: s). auto.
Qed.

(** When what follows cannot start with a character of the run, the run is
    read to its end. *)
Lemma star_greedy p (k : option char -> str -> option R) :
  (forall prev c s, p c = true -> k prev (c :: s) = None) ->
  forall s prev,
    Re.star p k prev s = k (last_char prev (take_while p s)) (drop_while p s).
Proof.
  intros Hk. induction s as [|c s IH]; intros prev;
    cbn [Re.star take_while drop_while]; [reflexivity|].
  destruct (p c) eqn:Hp; [|reflexivity].
  rewrite IH. change (last_char prev (c :: take_while p s))
    with (last_char (Some c) (take_while p s)).
  destruct (k (last_char (Some c) (take_while p s)) (drop_while p s)) eqn:Hx; [reflexivity|].
  apply Hk, Hp.
Qed.
End Inversion.

Lemma firstn_length_app {A} (u rest : list A) :
  firstn (length (u ++ rest) - length rest) (u ++ rest) = u.
Proof.
  rewrite length_app. replace (length u + length rest - length rest)%nat with (length u) by lia.
  rewrite firstn_app, Nat.sub_diag, firstn_all. cbn. apply app_nil_r.
Qed.

Lemma take_while_all p s : forallb p (take_while p s) = true.
Proof. induction s as [|c s IH]; cbn; [reflexivity|]. destruct (p c) eqn:Hp; cbn; [rewrite Hp|]; auto. Qed.

Section Classes.
Variable E : Env.

Lemma space_not_word c : isspace c = true -> is_word E c = false.
Proof.
  intros H. unfold is_word, isalnum.
  destruct (c <? 256) eqn:Hc.
  - apply Z.ltb_lt in Hc. unfold isspace, isalnum_latin1, in_range in *.
    repeat match goal with
           | H : (_ || _) = true |- _ => apply orb_true_iff in H as [H|H]
           | H : (_ && _) = true |- _ => apply andb_true_iff in H as [? ?]
           | H : (_ <=? _) = true |- _ => apply Z.leb_le in H
           | H : (_ =? _) = true |- _ => apply Z.eqb_eq in H
           end;
    repeat match goal with
           | |- (_ || _) = false => apply orb_false_iff; split
           | |- (_ && _) = false => apply andb_false_iff
           end;
    try (apply Z.eqb_neq; lia);
    try (left; apply Z.leb_gt; lia); try (right; apply Z.leb_gt; lia).
  - rewrite H. cbn. apply Z.ltb_ge in Hc. apply Z.eqb_neq. lia.
Qed.

Lemma word_not_space c : is_word E c = true -> isspace c = false.
Proof.
  intros H. destruct (isspace c) eqn:Hs; [|reflexivity].
  rewrite (space_not_word c Hs) in H. discriminate.
Qed.
End Classes.

(** *** The hyphen step *)

Lemma firstn_one {A} (c : A) s : firstn (length (c :: s) - length s) (c :: s) = [c].
Proof. replace (length (c :: s) - length s)%nat with 1%nat by (cbn [length]; lia). reflexivity. Qed.

Section Hyphen.
Variable E : Env.

Lemma match_here_hyphen prev c s :
  Re.match_here (is_word E) (hyphen_re E) prev (c :: s) =
  match hyphen_match (is_word E) c s with
  | Some (e, rest) => Some (rest, [(2%nat, [e]); (1%nat, [c])])
  | None => None
  end.
Proof.
  unfold Re.match_here, hyphen_re, hyphen_match, Cat, Re.Lit1.
  cbn [fold_right Re.run].
  destruct (is_word E c) eqn:Hc; [|reflexivity].
  rewrite firstn_one.
  rewrite star_greedy.
  2:{ intros p' c' s' Hsp. cbn [Re.run].
      destruct (45 =? c') eqn:Heq; [|reflexivity].
      apply Z.eqb_eq in Heq. subst c'. discriminate. }
  destruct (drop_while isspace s) as [|d s2] eqn:Hd; [reflexivity|].
  cbn [Re.run]. destruct (45 =? d); [|reflexivity].
  rewrite star_greedy.
  2:{ intros p' c' s' Hsp. cbn [Re.run].
      rewrite (space_not_word E c' Hsp). reflexivity. }
  destruct (drop_while isspace s2) as [|e rest] eqn:He; [reflexivity|].
  cbn [Re.run]. destruct (is_word E e); [|reflexivity].
  rewrite firstn_one. reflexivity.
Qed.

Lemma hyphen_match_shape c s e rest :
  hyphen_match (is_word E) c s = Some (e, rest) ->
  is_word E c = true /\ is_word E e = true /\
  exists ws1 ws2,
    s = ws1 ++ 0x2D :: ws2 ++ e :: rest /\
    forallb isspace ws1 = true /\ forallb isspace ws2 = true.
Proof.
  unfold hyphen_match. destruct (is_word E c); [|discriminate].
  destruct (drop_while isspace s) as [|d s2] eqn:Hd; [discriminate|].
  destruct (45 =? d) eqn:Hd45; [|discriminate]. apply Z.eqb_eq in Hd45. subst d.
  destruct (drop_while isspace s2) as [|e' rest'] eqn:He; [discriminate|].
  destruct (is_word E e') eqn:Hw; [|discriminate].
  intros [= <- <-]. repeat split; auto.
  exists (take_while isspace s), (take_while isspace s2).
  repeat split; auto using take_while_all.
  rewrite <- He, take_drop_while.
  rewrite <- (take_drop_while isspace s) at 1. f_equal. exact Hd.
Qed.

Lemma hyphen_match_shorter c s e rest :
  hyphen_match (is_word E) c s = Some (e, rest) -> (length rest < length s)%nat.
Proof.
  intros H. apply hyphen_match_shape in H as (_ & _ & ws1 & ws2 & -> & _).
  rewrite length_app. cbn [length]. rewrite length_app. cbn [length]. lia.
Qed.

Lemma sub_from_match_last r tpl prev c s rest cs e :
  Re.match_here (is_word E) r prev (c :: s) = Some (rest, cs) ->
  (exists u, s = u ++ rest /\ last_char (Some c) u = Some e) ->
  Re.sub_from (is_word E) r tpl prev (c :: s) 0 =
  Re.expand tpl cs ++ Re.sub_from (is_word E) r tpl (Some e) rest 0.
Proof.
  intros Hm (u & -> & Hu). rewrite (sub_from_match _ _ _ _ c u rest cs Hm), Hu.
  reflexivity.
Qed.

Lemma sub_hyphen_cons prev c s :
  Re.sub_from (is_word E) (hyphen_re E) hyphen_tpl prev (c :: s) 0 =
  match hyphen_match (is_word E) c s with
  | Some (e, rest) =>
      c :: 0x2D :: e :: Re.sub_from (is_word E) (hyphen_re E) hyphen_tpl (Some e) rest 0
  | None => c :: Re.sub_from (is_word E) (hyphen_re E) hyphen_tpl (Some c) s 0
  end.
Proof.
  destruct (hyphen_match (is_word E) c s) as [[e rest]|] eqn:Hm.
  - rewrite (sub_from_match_last _ _ _ c s rest [(2%nat, [e]); (1%nat, [c])] e).
    + reflexivity.
    + rewrite match_here_hyphen, Hm. reflexivity.
    + apply hyphen_match_shape in Hm as (_ & _ & ws1 & ws2 & -> & _).
      exists ((ws1 ++ 0x2D :: ws2) ++ [e]). split.
      * repeat (rewrite <- app_assoc; cbn [app]). reflexivity.
      * rewrite last_char_app. reflexivity.
  - apply sub_from_nomatch. rewrite match_here_hyphen, Hm. reflexivity.
Qed.

(** Strong induction on the length of a text. *)
Lemma str_length_ind (P : str -> Prop) :
  (forall s, (forall s', (length s' < length s)%nat -> P s') -> P s) ->
  forall s, P s.
Proof.
  intros H s. remember (length s) as n eqn:Hn. revert s Hn.
  induction n as [n IH] using lt_wf_ind. intros s ->.
  apply H. intros s' Hlt. apply (IH (length s')); auto.
Qed.

Lemma sub_hyphen_prev s : forall prev prev',
  Re.sub_from (is_word E) (hyphen_re E) hyphen_tpl prev s 0 =
  Re.sub_from (is_word E) (hyphen_re E) hyphen_tpl prev' s 0.
Proof.
  destruct s as [|c s]; intros prev prev'; [reflexivity|].
  rewrite !sub_hyphen_cons. reflexivity.
Qed.

Lemma rejoin_cons c s :
  rejoin E (c :: s) =
  match hyphen_match (is_word E) c s with
  | Some (e, rest) => c :: 0x2D :: e :: rejoin E rest
  | None => c :: rejoin E s
  end.
Proof.
  unfold rejoin, sub, Re.sub. rewrite sub_hyphen_cons.
  destruct (hyphen_match (is_word E) c s) as [[e rest]|]; f_equal;
    [do 2 f_equal|]; apply sub_hyphen_prev.
Qed.

Lemma rejoin_head s : hd_error (rejoin E s) = hd_error s.
Proof.
  destruct s as [|c s]; [reflexivity|]. rewrite rejoin_cons.
  destruct (hyphen_match (is_word E) c s) as [[e rest]|]; reflexivity.
Qed.

Lemma rejoin_space c s : isspace c = true -> rejoin E (c :: s) = c :: rejoin E s.
Proof.
  intros H. rewrite rejoin_cons. unfold hyphen_match.
  rewrite (space_not_word E c H). reflexivity.
Qed.

Lemma drop_while_rejoin s :
  drop_while isspace (rejoin E s) = rejoin E (drop_while isspace s).
Proof.
  induction s as [|c s IH]; [reflexivity|].
  cbn [drop_while]. destruct (isspace c) eqn:Hc.
  - rewrite rejoin_space by exact Hc. cbn [drop_while]. rewrite Hc. exact IH.
  - pose proof (rejoin_head (c :: s)) as Hh.
    destruct (rejoin E (c :: s)) as [|d t]; [discriminate|].
    cbn in Hh. injection Hh as ->. cbn [drop_while]. rewrite Hc. reflexivity.
Qed.

Lemma hyphen_match_rejoin c s :
  hyphen_match (is_word E) c s = None ->
  hyphen_match (is_word E) c (rejoin E s) = None.
Proof.
  unfold hyphen_match. destruct (is_word E c); [|reflexivity].
  rewrite drop_while_rejoin.
  destruct (drop_while isspace s) as [|d s2]; [reflexivity|].
  rewrite rejoin_cons.
  destruct (45 =? d) eqn:Hd.
  - apply Z.eqb_eq in Hd. subst d.
    assert (Hm : hyphen_match (is_word E) 45 s2 = None).
    { unfold hyphen_match.
      replace (is_word E 45) with false; [reflexivity|].
      symmetry. unfold is_word, isalnum. reflexivity. }
    rewrite Hm. rewrite Z.eqb_refl, drop_while_rejoin.
    destruct (drop_while isspace s2) as [|e rest]; [reflexivity|].
    pose proof (rejoin_head (e :: rest)) as Hh.
    destruct (rejoin E (e :: rest)) as [|e' t]; [discriminate|].
    cbn in Hh. injection Hh as ->.
    destruct (is_word E e); intros; [discriminate|reflexivity].
  - intros _. destruct (hyphen_match (is_word E) d s2) as [[e rest]|]; rewrite Hd; reflexivity.
Qed.

(** The hyphen step finds nothing to do in its own output. *)
Lemma rejoin_idempotent s : rejoin E (rejoin E s) = rejoin E s.
Proof.
  induction s as [s IH] using str_length_ind.
  destruct s as [|c s]; [reflexivity|].
  rewrite rejoin_cons.
  destruct (hyphen_match (is_word E) c s) as [[e rest]|] eqn:Hm.
  - pose proof (hyphen_match_shape _ _ _ _ Hm) as (Hc & He & _).
    rewrite rejoin_cons.
    assert (Hm' : hyphen_match (is_word E) c (45 :: e :: rejoin E rest) = Some (e, rejoin E rest)).
    { unfold hyphen_match. rewrite Hc. cbn [drop_while].
      replace (isspace 45) with false by reflexivity. rewrite Z.eqb_refl.
      cbn [drop_while]. rewrite (word_not_space E e He), He. reflexivity. }
    rewrite Hm'. do 3 f_equal. apply IH.
    pose proof (hyphen_match_shorter _ _ _ _ Hm). cbn [length]. lia.
  - rewrite rejoin_cons, (hyphen_match_rejoin _ _ Hm). f_equal.
    apply IH. cbn [length]. lia.
Qed.
End Hyphen.

(** *** The de-hyphenation step *)

Section Dehyphenate.
Variable E : Env.

Lemma match_here_dehyphenate prev s rest cs :
  Re.match_here (is_word E) (dehyphenate_re E) prev s = Some (rest, cs) ->
  exists c u1 ws1 ws2 e u2,
    s = (c :: u1) ++ 0x2D :: (ws1 ++ 0x0A :: ws2) ++ (e :: u2) ++ rest /\
    cs = [(2%nat, e :: u2); (1%nat, c :: u1)] /\
    forallb (is_word E) (c :: u1) = true /\
    forallb (is_word E) (e :: u2) = true /\
    forallb isspace ws1 = true /\ forallb isspace ws2 = true.
Proof.
  unfold Re.match_here, dehyphenate_re, Cat, Re.Plus, Re.Lit1.
  cbn [fold_right Re.run]. intros H.
  destruct (xorb _ _); [|discriminate].
  destruct s as [|c s1]; [discriminate|].
  destruct (is_word E c) eqn:Hc; [|discriminate].
  apply star_inv in H as (u1 & s2 & -> & Hu1 & H). cbv beta in H.
  destruct s2 as [|d s3]; [discriminate|].
  destruct (45 =? d) eqn:Hd; [|discriminate]. apply Z.eqb_eq in Hd. subst d.
  apply star_inv in H as (ws1 & s4 & -> & Hws1 & H). cbv beta in H.
  destruct s4 as [|n s5]; [discriminate|].
  destruct (10 =? n) eqn:Hn; [|discriminate]. apply Z.eqb_eq in Hn. subst n.
  apply star_inv in H as (ws2 & s6 & -> & Hws2 & H). cbv beta in H.
  destruct s6 as [|e s7]; [discriminate|].
  destruct (is_word E e) eqn:He; [|discriminate].
  apply star_inv in H as (u2 & s8 & -> & Hu2 & H). cbv beta in H.
  destruct (xorb _ _); [|discriminate].
  injection H as <- <-.
  exists c, u1, ws1, ws2, e, u2. repeat split; auto.
  - cbn [app]. f_equal. repeat (rewrite <- app_assoc; cbn [app]). reflexivity.
  - change ([(2%nat, firstn (length ((e :: u2) ++ s8) - length s8) ((e :: u2) ++ s8));
             (1%nat, firstn
                (length ((c :: u1) ++ 45 :: ws1 ++ 10 :: ws2 ++ e :: u2 ++ s8) -
                 length (45 :: ws1 ++ 10 :: ws2 ++ e :: u2 ++ s8))
                ((c :: u1) ++ 45 :: ws1 ++ 10 :: ws2 ++ e :: u2 ++ s8))] =
            [(2%nat, e :: u2); (1%nat, c :: u1)]).
    rewrite !firstn_length_app. reflexivity.
  - cbn. rewrite Hc. exact Hu1.
  - cbn. rewrite He. exact Hu2.
Qed.

Lemma match_here_dehyphenate_newline prev s x :
  Re.match_here (is_word E) (dehyphenate_re E) prev s = Some x -> In 0x0A s.
Proof.
  destruct x as [rest cs]. intros H.
  apply match_here_dehyphenate in H as (c & u1 & ws1 & ws2 & e & u2 & -> & _).
  apply in_or_app. right. right. apply in_or_app. left.
  apply in_or_app. right. left. reflexivity.
Qed.

Lemma sub_dehyphenate_nothing tpl s : forall prev,
  ~ In 0x0A s -> Re.sub_from (is_word E) (dehyphenate_re E) tpl prev s 0 = s.
Proof.
  induction s as [|c s IH]; intros prev H.
  - cbn [Re.sub_from].
    destruct (Re.match_here (is_word E) (dehyphenate_re E) prev []) eqn:Hm; [|reflexivity].
    apply match_here_dehyphenate_newline in Hm. contradiction.
  - rewrite sub_from_nomatch.
    + f_equal. apply IH. intros H'. apply H. right. exact H'.
    + destruct (Re.match_here (is_word E) (dehyphenate_re E) prev (c :: s)) eqn:Hm; [|exact Hm || reflexivity].
      apply match_here_dehyphenate_newline in Hm. contradiction.
Qed.
End Dehyphenate.

(** *** Single spaces *)

Lemma collapse_normal s : forall b,
  normal_from b (collapse_from isspace (lit " ") b s) = true.
Proof.
  induction s as [|c s IH]; intros b; [reflexivity|].
  cbn [collapse_from]. destruct (isspace c) eqn:Hc.
  - destruct b; [apply IH|]. cbn [lit app]. cbn. apply IH.
  - cbn [normal_from]. rewrite Hc. apply IH.
Qed.

Lemma normal_collapse s : forall b,
  normal_from b s = true -> collapse_from isspace (lit " ") b s = s.
Proof.
  induction s as [|c s IH]; intros b H; [reflexivity|].
  cbn [normal_from collapse_from] in *. destruct (isspace c).
  - apply andb_true_iff in H as [H Hn]. apply andb_true_iff in H as [Hc Hb].
    apply Z.eqb_eq in Hc. subst c. destruct b; [discriminate|].
    cbn. f_equal. apply IH, Hn.
  - f_equal. apply IH, H.
Qed.

Lemma normal_weaken s : normal_from true s = true -> normal_from false s = true.
Proof.
  destruct s as [|c s]; [reflexivity|]. cbn. destruct (isspace c); [|auto].
  rewrite andb_false_r. discriminate.
Qed.

Lemma normal_suffix u : forall b s,
  normal_from b (u ++ s) = true -> normal_from false s = true.
Proof.
  induction u as [|c u IH]; intros b s H.
  - destruct b; [apply normal_weaken|]; exact H.
  - cbn in H. destruct (isspace c).
    + apply andb_true_iff in H as [_ H]. eapply IH, H.
    + eapply IH, H.
Qed.

Section Rejoin.
Variable E : Env.

Lemma rejoin_normal s : forall b,
  normal_from b s = true -> normal_from b (rejoin E s) = true.
Proof.
  induction s as [s IH] using str_length_ind. intros b H.
  destruct s as [|c s]; [reflexivity|].
  rewrite rejoin_cons.
  destruct (hyphen_match (is_word E) c s) as [[e rest]|] eqn:Hm.
  - pose proof (hyphen_match_shorter _ _ _ _ _ Hm) as Hlen.
    apply hyphen_match_shape in Hm as (Hc & He & ws1 & ws2 & -> & _).
    cbn [normal_from] in *.
    rewrite (word_not_space E c Hc) in *.
    replace (isspace 45) with false by reflexivity.
    rewrite (word_not_space E e He).
    apply IH; [cbn [length]; lia|].
    apply (normal_suffix (ws1 ++ 45 :: ws2 ++ [e]) false).
    repeat (rewrite <- app_assoc; cbn [app]). exact H.
  - cbn [normal_from] in *. destruct (isspace c).
    + apply andb_true_iff in H as [H Hn]. rewrite H. cbn [andb].
      apply IH; [cbn [length]; lia|exact Hn].
    + apply IH; [cbn [length]; lia|exact H].
Qed.

Lemma rejoin_chars s : forall x, In x (rejoin E s) -> In x s.
Proof.
  induction s as [s IH] using str_length_ind. intros x H.
  destruct s as [|c s]; [contradiction|].
  rewrite rejoin_cons in H.
  destruct (hyphen_match (is_word E) c s) as [[e rest]|] eqn:Hm.
  - pose proof (hyphen_match_shorter _ _ _ _ _ Hm) as Hlen.
    apply hyphen_match_shape in Hm as (Hc & He & ws1 & ws2 & -> & _).
    destruct H as [<-|[<-|[<-|H]]].
    + left; reflexivity.
    + right. apply in_or_app. right. left. reflexivity.
    + right. apply in_or_app. right. right. apply in_or_app. right. left. reflexivity.
    + apply IH in H; [|cbn [length]; lia].
      right. apply in_or_app. right. right. apply in_or_app. right. right. exact H.
  - destruct H as [<-|H]; [left; reflexivity|].
    right. apply IH; [cbn [length]; lia|exact H].
Qed.
End Rejoin.

(** *** The three steps together *)

Section Tidy.
Variable E : Env.

Lemma sub_from_chars_matches r tpl (P : char -> Prop) :
  (forall prev s rest cs,
     Re.match_here (is_word E) r prev s = Some (rest, cs) ->
     forall x, In x (Re.expand tpl cs) -> In x s \/ P x) ->
  forall s prev skip x,
    In x (Re.sub_from (is_word E) r tpl prev s skip) -> In x s \/ P x.
Proof.
  intros Hm. induction s as [|c0 s IH]; intros prev skip x H; cbn [Re.sub_from] in H.
  - destruct skip; [|contradiction].
    destruct (Re.match_here (is_word E) r prev []) as [[rest cs]|] eqn:Hx; [|contradiction].
    eapply Hm; eauto.
  - destruct skip as [|n].
    + destruct (Re.match_here (is_word E) r prev (c0 :: s)) as [[rest cs]|] eqn:Hx.
      * destruct (length (c0 :: s) - length rest)%nat;
          apply in_app_or in H as [H|H]; try (eapply Hm; eauto; fail).
        -- destruct H as [<-|H]; [left; left; reflexivity|].
           apply IH in H as [H|H]; auto. left; right; auto.
        -- apply IH in H as [H|H]; auto. left; right; auto.
      * destruct H as [<-|H]; [left; left; reflexivity|].
        apply IH in H as [H|H]; auto. left; right; auto.
    + apply IH in H as [H|H]; auto. left; right; auto.
Qed.

Lemma dehyphenate_chars s x : In x (dehyphenate E s) -> In x s.
Proof.
  intros H. unfold dehyphenate, sub, Re.sub in H.
  apply (sub_from_chars_matches _ _ (fun _ => False)) in H as [H|[]]; [exact H|].
  intros prev s' rest cs Hm y Hy.
  apply match_here_dehyphenate in Hm as (c & u1 & ws1 & ws2 & e & u2 & -> & -> & _).
  left. cbn [Re.expand Re.group Nat.eqb] in Hy. rewrite app_nil_r in Hy.
  apply in_app_or in Hy as [Hy|Hy]; apply in_or_app; [left; exact Hy|].
  right. right. apply in_or_app. right. apply in_or_app. left. exact Hy.
Qed.

Lemma spaces_chars s x :
  In x (sub E spaces_re [Re.TLit (lit " ")] s) -> x = 0x20 \/ (In x s /\ isspace x = false).
Proof.
  rewrite sub_spaces_collapse. intros H.
  apply collapse_from_chars in H as [[<-|[]]|H]; auto.
Qed.

Lemma tidy_chars s x : In x (tidy E s) -> x = 0x20 \/ (In x s /\ isspace x = false).
Proof.
  unfold tidy. intros H. apply rejoin_chars, spaces_chars in H as [H|[H Hx]]; auto.
  right. split; [apply dehyphenate_chars, H|exact Hx].
Qed.

Lemma tidy_no_newline s : ~ In 0x0A (tidy E s).
Proof. intros H. apply tidy_chars in H as [H|[_ H]]; discriminate. Qed.

Lemma tidy_normal s : normal_from false (tidy E s) = true.
Proof.
  unfold tidy. apply rejoin_normal. rewrite sub_spaces_collapse. apply collapse_normal.
Qed.

(** The three steps find nothing to do in their own output. *)
Lemma tidy_idempotent s : tidy E (tidy E s) = tidy E s.
Proof.
  assert (Hd : dehyphenate E (tidy E s) = tidy E s).
  { unfold dehyphenate, sub, Re.sub. apply sub_dehyphenate_nothing, tidy_no_newline. }
  assert (Hs : sub E spaces_re [Re.TLit (lit " ")] (tidy E s) = tidy E s).
  { rewrite sub_spaces_collapse. apply normal_collapse, tidy_normal. }
  unfold tidy at 1. rewrite Hd, Hs. unfold tidy. apply rejoin_idempotent.
Qed.
End Tidy.

(** *** The mojibake pair does not come back *)

Lemma pair_free_app a b u : forall p s,
  pair_free a b p (u ++ s) = pair_free a b p u && pair_free a b (ends_with a p u) s.
Proof.
  induction u as [|c u IH]; intros p s; cbn; [reflexivity|].
  rewrite IH, andb_assoc. reflexivity.
Qed.

Lemma pair_free_head a b p s :
  pair_free a b p s = pair_free a b false s && negb (p && head_is b s).
Proof.
  destruct s as [|c s]; cbn; [rewrite andb_false_r; reflexivity|].
  destruct p; cbn; [|rewrite andb_true_r; reflexivity]. apply andb_comm.
Qed.

Lemma startswith_pair a b c s :
  startswith [a; b] (c :: s) = (c =? a) && head_is b s.
Proof.
  cbn. rewrite (Z.eqb_sym a c). destruct s as [|d s]; [reflexivity|].
  cbn. rewrite andb_true_r, (Z.eqb_sym b d). reflexivity.
Qed.

Lemma pair_free_contains a b s :
  pair_free a b false s = true -> contains [a; b] s = false.
Proof.
  induction s as [|c s IH]; intros H; [reflexivity|].
  cbn [contains]. rewrite startswith_pair.
  cbn [pair_free andb negb] in H. rewrite pair_free_head in H.
  apply andb_true_iff in H as [H1 H2]. rewrite (IH H1), orb_false_r.
  apply negb_true_iff in H2. exact H2.
Qed.

Lemma replace_absent k v t :
  k <> [] -> contains k t = false -> replace k v t = t.
Proof.
  intros Hk. destruct k as [|k0 k]; [contradiction|]. unfold replace.
  induction t as [|c t IH]; intros H; [reflexivity|].
  cbn [contains] in H. apply orb_false_iff in H as [H1 H2].
  cbn [replace_from]. rewrite H1. f_equal. apply IH, H2.
Qed.

Lemma replace_from_chars k v t : forall skip x,
  In x (replace_from k v t skip) -> In x t \/ In x v.
Proof.
  induction t as [|c t IH]; intros skip x H; cbn [replace_from] in H; [contradiction|].
  destruct skip as [|n].
  - destruct (startswith k (c :: t)).
    + apply in_app_or in H as [H|H]; auto.
      apply IH in H as [H|H]; auto. left; right; auto.
    + destruct H as [<-|H]; [left; left; reflexivity|].
      apply IH in H as [H|H]; auto. left; right; auto.
  - apply IH in H as [H|H]; auto. left; right; auto.
Qed.

Lemma replace_chars k v t x : k <> [] -> In x (replace k v t) -> In x t \/ In x v.
Proof.
  intros Hk. destruct k; [contradiction|]. unfold replace. apply replace_from_chars.
Qed.

Lemma replace_char_gone c v t : In c (replace [c] v t) -> In c v.
Proof.
  unfold replace. induction t as [|d t IH]; cbn [replace_from]; [contradiction|].
  cbn [startswith]. rewrite andb_true_r. destruct (c =? d) eqn:Hc.
  - cbn [length Nat.pred]. intros H. apply in_app_or in H as [H|H]; auto.
  - intros [H|H]; [apply Z.eqb_neq in Hc; congruence|auto].
Qed.

(** Replacing every [a b] by one other character leaves no [a b]. *)
Lemma replace_pair_free a b q :
  q <> a -> q <> b ->
  forall n t p, (length t <= n)%nat -> (p = true -> head_is b t = false) ->
    pair_free a b p (replace [a; b] [q] t) = true.
Proof.
  intros Hqa Hqb. unfold replace.
  induction n as [|n IH]; intros t p Hn Hp.
  - destruct t; [reflexivity|cbn in Hn; lia].
  - destruct t as [|c t]; [reflexivity|]. cbn [replace_from].
    rewrite startswith_pair.
    destruct ((c =? a) && head_is b t) eqn:Hm.
    + apply andb_true_iff in Hm as [Hc Hb].
      destruct t as [|d t]; [discriminate|].
      cbn [length Nat.pred app replace_from pair_free].
      apply Z.eqb_neq in Hqa, Hqb. rewrite Hqa, Hqb, andb_false_r. cbn [negb andb].
      apply IH; [cbn in Hn; lia|discriminate].
    + cbn [pair_free]. apply andb_true_iff. split.
      * destruct p; [|reflexivity]. specialize (Hp eq_refl). cbn in Hp. rewrite Hp. reflexivity.
      * apply IH; [cbn in Hn; lia|]. intros Hc. rewrite Hc in Hm. exact Hm.
Qed.

Lemma collapse_pair_free a b :
  isspace a = false -> isspace b = false ->
  forall s p in_run, (in_run = true -> p = false) ->
    pair_free a b p s = true ->
    pair_free a b p (collapse_from isspace (lit " ") in_run s) = true.
Proof.
  intros Ha Hb. induction s as [|c s IH]; intros p in_run Hrun H; [reflexivity|].
  cbn [collapse_from]. cbn [pair_free] in H. apply andb_true_iff in H as [H1 H2].
  destruct (isspace c) eqn:Hc.
  - assert (Hca : (c =? a) = false).
    { apply Z.eqb_neq. intros ->. congruence. }
    rewrite Hca in H2.
    destruct in_run.
    + rewrite (Hrun eq_refl). apply IH; auto.
    + change (lit " ") with [32]. cbn [app pair_free].
      assert (H32a : (32 =? a) = false).
      { apply Z.eqb_neq. intros <-. discriminate. }
      assert (H32b : (32 =? b) = false).
      { apply Z.eqb_neq. intros <-. discriminate. }
      rewrite H32a, H32b, andb_false_r. cbn [negb andb]. apply IH; auto.
  - cbn [pair_free]. rewrite H1. cbn [andb]. apply IH; [discriminate|exact H2].
Qed.

Lemma last_char_mid p u e v : last_char p (u ++ e :: v) = last_char (Some e) v.
Proof. rewrite last_char_app. reflexivity. Qed.

Lemma last_char_some v : forall e, exists x, last_char (Some e) v = Some x.
Proof.
  induction v as [|d v IHv]; intros e.
  - exists e. reflexivity.
  - apply (IHv d).
Qed.

Section Pairs.
Variable E : Env.
Variables a b : char.
Hypothesis b_not_word : is_word E b = false.
Hypothesis a_not_hyphen : a <> 0x2D.
Hypothesis b_not_hyphen : b <> 0x2D.

Lemma pair_free_suffix u : forall p c s,
  pair_free a b p (u ++ c :: s) = true -> pair_free a b (c =? a) s = true.
Proof.
  induction u as [|d u IH]; intros p c s H; cbn in H;
    apply andb_true_iff in H as [_ H]; [exact H|eapply IH, H].
Qed.

Lemma rejoin_pair_free s : forall p,
  pair_free a b p s = true -> pair_free a b p (rejoin E s) = true.
Proof.
  induction s as [s IH] using str_length_ind. intros p H.
  destruct s as [|c s]; [reflexivity|].
  rewrite rejoin_cons.
  destruct (hyphen_match (is_word E) c s) as [[e rest]|] eqn:Hm.
  - pose proof (hyphen_match_shorter _ _ _ _ _ Hm) as Hlen.
    apply hyphen_match_shape in Hm as (Hc & He & ws1 & ws2 & -> & _).
    cbn [pair_free] in *. apply andb_true_iff in H as [H1 H2]. rewrite H1. cbn [andb].
    assert (H45a : (45 =? a) = false) by (apply Z.eqb_neq; congruence).
    assert (H45b : (45 =? b) = false) by (apply Z.eqb_neq; congruence).
    rewrite H45a, H45b, andb_false_r. cbn [negb andb].
    apply IH; [cbn [length]; lia|].
    apply (pair_free_suffix (ws1 ++ 45 :: ws2) (c =? a)).
    repeat (rewrite <- app_assoc; cbn [app]). exact H2.
  - cbn [pair_free] in *. apply andb_true_iff in H as [H1 H2]. rewrite H1. cbn [andb].
    apply IH; [cbn [length]; lia|exact H2].
Qed.

Lemma sub_dehyphenate_pair_free tpl s :
  tpl = [Re.TGroup 1; Re.TGroup 2] ->
  forall prev p,
    pair_free a b p s = true ->
    pair_free a b p (Re.sub_from (is_word E) (dehyphenate_re E) tpl prev s 0) = true.
Proof.
  intros ->. induction s as [s IH] using str_length_ind. intros prev p H.
  destruct s as [|c0 s0].
  - cbn [Re.sub_from].
    destruct (Re.match_here (is_word E) (dehyphenate_re E) prev []) as [[rest cs]|] eqn:Hm;
      [|reflexivity].
    apply match_here_dehyphenate_newline in Hm. contradiction.
  - destruct (Re.match_here (is_word E) (dehyphenate_re E) prev (c0 :: s0))
      as [[rest cs]|] eqn:Hm.
    + pose proof (match_here_dehyphenate _ _ _ _ _ Hm)
        as (c & u1 & ws1 & ws2 & e & u2 & Hs & -> & Hu1 & Hu2 & _).
      pose proof Hs as Hs'. cbn [app] in Hs'. injection Hs' as Hc0 Hs0. subst c0.
      destruct (last_char_some u2 e) as [z Hz].
      rewrite (sub_from_match_last E _ _ _ c _ rest _ z Hm).
      2:{ exists ((u1 ++ 45 :: ws1 ++ 10 :: ws2) ++ e :: u2). split.
          - rewrite Hs0. repeat (rewrite <- app_assoc; cbn [app]). reflexivity.
          - rewrite last_char_mid. exact Hz. }
      cbn [Re.expand Re.group Nat.eqb]. rewrite app_nil_r.
      rewrite Hs in H.
      rewrite pair_free_app in H. apply andb_true_iff in H as [H1 H2].
      replace (45 :: (ws1 ++ 10 :: ws2) ++ (e :: u2) ++ rest)
        with ((45 :: ws1 ++ 10 :: ws2) ++ (e :: u2) ++ rest) in H2 by reflexivity.
      rewrite pair_free_app in H2. apply andb_true_iff in H2 as [_ H2].
      rewrite pair_free_app in H2. apply andb_true_iff in H2 as [H2 H3].
      rewrite <- app_assoc, pair_free_app, H1. cbn [andb].
      rewrite pair_free_app. apply andb_true_iff. split.
      * cbn [pair_free] in H2 |- *. apply andb_true_iff in H2 as [_ H2]. rewrite H2.
        assert (Heb : (e =? b) = false).
        { apply Z.eqb_neq. intros ->. cbn in Hu2. rewrite b_not_word in Hu2. discriminate. }
        rewrite Heb, andb_false_r. reflexivity.
      * cbn [ends_with] in H3 |- *. apply IH; [|exact H3].
        assert (Hl := f_equal (@length _) Hs0).
        repeat (rewrite length_app in Hl; cbn [length] in Hl). cbn [length]. lia.
    + rewrite sub_from_nomatch by exact Hm.
      cbn [pair_free] in *. apply andb_true_iff in H as [H1 H2]. rewrite H1. cbn [andb].
      apply IH; [cbn [length]; lia|exact H2].
Qed.
End Pairs.

(** *** The correction map of one analysis *)

Lemma str_eqb_refl s : str_eqb s s = true.
Proof. induction s as [|c s IH]; cbn; [reflexivity|]. rewrite Z.eqb_refl. exact IH. Qed.

Lemma str_eqb_eq a : forall b, str_eqb a b = true -> a = b.
Proof.
  induction a as [|x a IH]; intros [|y b] H; cbn in H; try discriminate; [reflexivity|].
  apply andb_true_iff in H as [Hx H]. apply Z.eqb_eq in Hx. subst. f_equal. auto.
Qed.

(** Keys of a counter, in order. *)

Lemma counter_add_keys k c :
  exists extra, keys (counter_add k c) = keys c ++ extra /\ Forall (eq k) extra.
Proof.
  unfold keys. induction c as [|[k' n] c (extra & IH & Hx)]; cbn.
  - exists [k]. auto.
  - destruct (str_eqb k k'); cbn.
    + exists []. rewrite app_nil_r. auto.
    + exists extra. rewrite IH. auto.
Qed.

Lemma counter_update_keys items : forall c,
  exists extra,
    keys (counter_update items c) = keys c ++ extra /\
    Forall (fun k => In k items) extra.
Proof.
  unfold counter_update. induction items as [|k items IH]; intros c; cbn [fold_left].
  - exists []. rewrite app_nil_r. auto.
  - destruct (IH (counter_add k c)) as (extra & H & Hx).
    destruct (counter_add_keys k c) as (e0 & H0 & Hx0).
    exists (e0 ++ extra). rewrite H, H0, app_assoc. split; [reflexivity|].
    apply Forall_app. split.
    + eapply Forall_impl; [|exact Hx0]. intros a <-. left; reflexivity.
    + eapply Forall_impl; [|exact Hx]. intros a Ha. right; exact Ha.
Qed.

(** What the patterns find. *)

Section Findings.
Variable E : Env.

Lemma findall_chr p s : forall prev skip x,
  In x (Re.findall_from (is_word E) (Re.Chr p) prev s skip) ->
  exists c, x = [c] /\ p c = true.
Proof.
  induction s as [|c s IH]; intros prev skip x H; cbn [Re.findall_from] in H.
  - destruct skip; [|contradiction]. cbn in H. contradiction.
  - destruct skip as [|n]; [|eapply IH; eauto].
    unfold Re.match_here in H. cbn [Re.run] in H.
    destruct (p c) eqn:Hp; [|eapply IH; eauto].
    rewrite firstn_one in H. destruct H as [<-|H]; [eauto|eapply IH; eauto].
Qed.

Lemma match_here_en_errors prev s :
  Re.match_here (is_word E) en_errors_re prev s =
  if startswith euro_pair s then Some (skipn 2 s, []) else None.
Proof.
  unfold Re.match_here, en_errors_re, Alts, euro_pair, Re.Lit, Re.Lit1.
  cbn [Re.run startswith].
  destruct s as [|c s]; [reflexivity|].
  destruct (226 =? c); [|reflexivity]. cbn [andb].
  destruct s as [|d s]; [reflexivity|].
  destruct (8364 =? d); reflexivity.
Qed.

Lemma findall_en_errors s : forall prev skip x,
  In x (Re.findall_from (is_word E) en_errors_re prev s skip) -> x = euro_pair.
Proof.
  induction s as [|c s IH]; intros prev skip x H; cbn [Re.findall_from] in H.
  - destruct skip; [|contradiction]. rewrite match_here_en_errors in H. contradiction.
  - destruct skip as [|n]; [|eapply IH; eauto].
    rewrite match_here_en_errors in H.
    destruct (startswith euro_pair (c :: s)) eqn:Hs; [|eapply IH; eauto].
    destruct H as [<-|H]; [|eapply IH; eauto].
    apply startswith_split in Hs as [t ->].
    change (skipn 2 (euro_pair ++ t)) with t. apply firstn_length_app.
Qed.
End Findings.

Lemma dict_set_Forall (P : str * str -> Prop) k v d :
  Forall P d -> (forall k', k = k' -> P (k', v)) -> Forall P (dict_set k v d).
Proof.
  intros Hd Hk. induction Hd as [|[k' v'] d Hx Hd IH]; cbn.
  - constructor; auto.
  - destruct (str_eqb k k') eqn:He.
    + constructor; auto. apply Hk, str_eqb_eq, He.
    + constructor; auto.
Qed.

Lemma dict_set_app_absent k v d1 d2 :
  Forall (fun kv => str_eqb k (fst kv) = false) d1 ->
  dict_set k v (d1 ++ d2) = d1 ++ dict_set k v d2.
Proof.
  induction 1 as [|[k' v'] d1 Hx Hd IH]; [reflexivity|].
  cbn in *. rewrite Hx. f_equal. exact IH.
Qed.

Section Map.
Variable E : Env.
Hypothesis unidecode_ascii : forall s, isascii (unidecode E s) = true.
Hypothesis unidecode_id : forall s, isascii s = true -> unidecode E s = s.

Lemma dict_get_single c : dict_get [c] common_fixes = None.
Proof.
  unfold common_fixes. cbn -[Z.eqb]. rewrite !andb_false_r. reflexivity.
Qed.

Lemma resolve_single cm c :
  Forall single_fix cm -> Forall single_fix (resolve E cm [c]).
Proof.
  intros H. unfold resolve. rewrite dict_get_single.
  destruct (negb (str_eqb (unidecode E [c]) [c]) && _) eqn:Hc; [|exact H].
  apply andb_true_iff in Hc as [Hc _]. apply negb_true_iff in Hc.
  apply dict_set_Forall; [exact H|]. intros k' <-.
  exists c. cbn [fst snd]. repeat split; [|apply unidecode_ascii].
  destruct (Z.ltb_spec c 128) as [Hlt|Hge]; [|exact Hge].
  rewrite unidecode_id, str_eqb_refl in Hc; [discriminate|].
  cbn. apply Z.ltb_lt in Hlt. rewrite Hlt. reflexivity.
Qed.

Lemma fold_resolve_singles ks : forall cm,
  Forall (fun k => exists c : char, k = [c]) ks ->
  Forall single_fix cm -> Forall single_fix (fold_left (resolve E) ks cm).
Proof.
  induction ks as [|k ks IH]; intros cm Hks Hcm; [exact Hcm|].
  inversion Hks as [|? ? [c ->] Hks']; subst. cbn [fold_left].
  apply IH; [exact Hks'|]. apply resolve_single, Hcm.
Qed.

Lemma single_fix_not_pair singles :
  Forall single_fix singles ->
  Forall (fun kv => str_eqb euro_pair (fst kv) = false) singles.
Proof.
  intros H. eapply Forall_impl; [|exact H]. intros [k v] (c & Hk & _).
  cbn [fst] in *. subst k. cbn -[Z.eqb]. apply andb_false_r.
Qed.

Lemma resolve_pair singles tail :
  Forall single_fix singles -> pair_tail tail ->
  exists tail', resolve E (singles ++ tail) euro_pair = singles ++ tail' /\ pair_tail tail'.
Proof.
  intros Hs Ht. unfold resolve.
  change (dict_get euro_pair common_fixes) with (Some [0x22]). cbv iota beta.
  exists [(euro_pair, [0x22])]. split; [|right; reflexivity].
  rewrite dict_set_app_absent by (apply single_fix_not_pair, Hs).
  destruct Ht as [->| ->]; reflexivity.
Qed.

Lemma fold_resolve_pairs ks : forall singles tail,
  Forall (eq euro_pair) ks -> Forall single_fix singles -> pair_tail tail ->
  exists tail',
    fold_left (resolve E) ks (singles ++ tail) = singles ++ tail' /\ pair_tail tail'.
Proof.
  induction ks as [|k ks IH]; intros singles tail Hks Hs Ht; [exists tail; auto|].
  inversion Hks as [|? ? Hk Hks']; subst. cbn [fold_left].
  destruct (resolve_pair singles tail Hs Ht) as (tail1 & -> & Ht1).
  apply IH; auto.
Qed.

Lemma resolve_sentinel cm : resolve E cm (lit "hyphenated_word") = cm.
Proof.
  unfold resolve.
  change (dict_get (lit "hyphenated_word") common_fixes) with (@None str).
  rewrite unidecode_id by reflexivity. rewrite str_eqb_refl. reflexivity.
Qed.

Lemma fold_resolve_sentinels ks : forall cm,
  Forall (eq (lit "hyphenated_word")) ks -> fold_left (resolve E) ks cm = cm.
Proof.
  induction ks as [|k ks IH]; intros cm Hks; [reflexivity|].
  inversion Hks as [|? ? Hk Hks']; subst. cbn [fold_left].
  rewrite resolve_sentinel. apply IH, Hks'.
Qed.

(** The correction map that [analyze_errors] builds on a new processor
    outside Portuguese: fixes of single invalid characters, then at most
    the fix of the one mojibake pair. *)
Lemma correction_map_shape l T :
  l <> Portuguese ->
  exists singles tail,
    correction_map (analyze_errors E (set_language l init) T) = singles ++ tail /\
    Forall single_fix singles /\ pair_tail tail.
Proof.
  intros Hl. unfold analyze_errors.
  cbn [correction_map set_correction_map set_error_patterns set_detected_encoding
       set_language error_patterns language init].
  change (map fst ?c) with (keys c). unfold collect_patterns.
  set (c1 := counter_update (findall E (invalid_re E) T) []).
  set (c2 := match l with
             | Portuguese => counter_update (findall E pt_errors_re T) c1
             | English => counter_update (findall E en_errors_re T) c1
             | _ => c1
             end).
  destruct (counter_update_keys
              (repeat (lit "hyphenated_word") (length (findall E (hyphenated_re E) T))) c2)
    as (e3 & -> & He3).
  assert (H2 : exists e2, keys c2 = keys c1 ++ e2 /\ Forall (eq euro_pair) e2).
  { subst c2. destruct l; try contradiction;
      try (exists []; rewrite app_nil_r; split; [reflexivity|constructor]).
    destruct (counter_update_keys (findall E en_errors_re T) c1) as (e2 & -> & He2).
    exists e2. split; [reflexivity|].
    eapply Forall_impl; [|exact He2]. intros k Hk. symmetry.
    eapply findall_en_errors, Hk. }
  destruct H2 as (e2 & -> & He2).
  destruct (counter_update_keys (findall E (invalid_re E) T) []) as (e1 & He1k & He1).
  fold c1 in He1k. rewrite He1k. cbn [keys map app].
  rewrite !fold_left_app.
  assert (Hs : Forall single_fix (fold_left (resolve E) e1 [])).
  { apply fold_resolve_singles; [|constructor].
    eapply Forall_impl; [|exact He1]. intros k Hk.
    apply findall_chr in Hk as (c & -> & _). eauto. }
  destruct (fold_resolve_pairs e2 (fold_left (resolve E) e1 []) [] He2 Hs (or_introl eq_refl))
    as (tail & Ht & Hpt).
  rewrite app_nil_r in Ht. rewrite Ht.
  rewrite fold_resolve_sentinels.
  - eauto.
  - eapply Forall_impl; [|exact He3]. intros k Hk. apply repeat_spec in Hk. auto.
Qed.
End Map.

(** *** The replacements and the first step *)

Lemma ascii_not_surrogate x : (x <? 128) = true -> is_surrogate x = false.
Proof.
  intros H. apply Z.ltb_lt in H. unfold is_surrogate, in_range.
  apply andb_false_iff. left. apply Z.leb_gt. lia.
Qed.

Lemma drop_surrogates_clean t : no_surrogate (drop_surrogates t).
Proof.
  unfold drop_surrogates, no_surrogate. intros x H.
  destruct (isascii t) eqn:Ha; cbn [negb] in H.
  - unfold isascii in Ha. rewrite forallb_forall in Ha. apply ascii_not_surrogate, Ha, H.
  - unfold utf8_ignore_roundtrip in H. apply filter_In in H as [_ H].
    apply negb_true_iff, H.
Qed.

Lemma drop_surrogates_fix t : no_surrogate t -> drop_surrogates t = t.
Proof.
  intros H. unfold drop_surrogates. destruct (negb (isascii t)); [|reflexivity].
  unfold utf8_ignore_roundtrip. induction t as [|c t IH]; [reflexivity|].
  cbn [filter]. rewrite (H c (or_introl eq_refl)). cbn [negb]. f_equal.
  apply IH. intros x Hx. apply H. right. exact Hx.
Qed.

Lemma apply_corrections_app d1 d2 t :
  apply_corrections (d1 ++ d2) t = apply_corrections d2 (apply_corrections d1 t).
Proof. unfold apply_corrections. apply fold_left_app. Qed.

Lemma contains_single c t : ~ In c t -> contains [c] t = false.
Proof.
  induction t as [|d t IH]; intros H; [reflexivity|].
  cbn [contains startswith]. rewrite andb_true_r.
  apply orb_false_iff. split.
  - apply Z.eqb_neq. intros ->. apply H. left. reflexivity.
  - apply IH. intros Hc. apply H. right. exact Hc.
Qed.

Lemma apply_corrections_absent d : forall t,
  (forall kv, In kv d -> fst kv <> [] /\ contains (fst kv) t = false) ->
  apply_corrections d t = t.
Proof.
  induction d as [|[k v] d IH]; intros t H; [reflexivity|].
  unfold apply_corrections. cbn [fold_left fst snd].
  destruct (H (k, v) (or_introl eq_refl)) as [Hk Hc]. cbn [fst] in Hk, Hc.
  rewrite (replace_absent k v t Hk Hc). apply IH.
  intros kv Hkv. apply H. right. exact Hkv.
Qed.

Lemma single_fix_key_nonempty kv : single_fix kv -> fst kv <> [].
Proof. intros (c & -> & _). discriminate. Qed.

Lemma apply_singles_chars d : forall t x,
  Forall single_fix d -> In x (apply_corrections d t) -> In x t \/ (x <? 128) = true.
Proof.
  induction d as [|[k v] d IH]; intros t x Hd H; [left; exact H|].
  inversion Hd as [|? ? Hkv Hd']; subst.
  unfold apply_corrections in H. cbn [fold_left fst snd] in H.
  apply (IH _ _ Hd') in H as [H|H]; [|right; exact H].
  apply replace_chars in H as [H|H]; [left; exact H| |apply (single_fix_key_nonempty _ Hkv)].
  right. destruct Hkv as (c & _ & _ & Hv). cbn [snd] in Hv.
  unfold isascii in Hv. rewrite forallb_forall in Hv. apply Hv, H.
Qed.

Lemma apply_singles_gone d : forall t kv c,
  Forall single_fix d -> In kv d -> fst kv = [c] ->
  ~ In c (apply_corrections d t).
Proof.
  induction d as [|[k v] d IH]; intros t kv c Hd Hin Hk; [contradiction|].
  inversion Hd as [|? ? Hkv Hd']; subst.
  unfold apply_corrections. cbn [fold_left fst snd].
  destruct Hin as [<-|Hin]; [|eapply IH; eauto].
  cbn [fst] in Hk. subst k. intros H.
  destruct Hkv as (c' & Hc' & Hge & Hv). cbn [fst snd] in Hc', Hv.
  injection Hc' as <-.
  assert (Hlt : (c <? 128) = true -> False).
  { intros Hlt. apply Z.ltb_lt in Hlt. lia. }
  apply (apply_singles_chars d _ _ Hd') in H as [H|H]; [|auto].
  apply replace_char_gone in H.
  unfold isascii in Hv. rewrite forallb_forall in Hv. apply Hlt, Hv, H.
Qed.

Section Idempotence.
Variable E : Env.
Hypothesis unidecode_ascii : forall s, isascii (unidecode E s) = true.
Hypothesis unidecode_id : forall s, isascii s = true -> unidecode E s = s.
Hypothesis euro_not_alnum : alnum_hi (udb E) 0x20AC = false.

Lemma euro_not_word : is_word E 0x20AC = false.
Proof.
  unfold is_word, isalnum. cbn -[alnum_hi udb]. rewrite euro_not_alnum. reflexivity.
Qed.

Lemma tidy_pair_free s :
  pair_free 0xE2 0x20AC false s = true ->
  pair_free 0xE2 0x20AC false (tidy E s) = true.
Proof.
  intros H. unfold tidy.
  apply rejoin_pair_free; [discriminate|discriminate|].
  rewrite sub_spaces_collapse.
  apply collapse_pair_free; [reflexivity|reflexivity|discriminate|].
  unfold dehyphenate, sub, Re.sub.
  apply sub_dehyphenate_pair_free; [apply euro_not_word|reflexivity|exact H].
Qed.

Lemma auto_correct_outside_portuguese st text :
  language st <> Portuguese ->
  auto_correct E st text =
  tidy E (apply_corrections (correction_map st) (drop_surrogates text)).
Proof.
  intros Hl. unfold auto_correct.
  destruct (language st); try contradiction; reflexivity.
Qed.

Lemma corrected_text_is_stable singles tail text :
  Forall single_fix singles -> pair_tail tail ->
  let t1 := tidy E (apply_corrections (singles ++ tail) (drop_surrogates text)) in
  tidy E (apply_corrections (singles ++ tail) (drop_surrogates t1)) = t1.
Proof.
  intros Hs Ht. cbv zeta.
  set (x0 := drop_surrogates text).
  set (x1 := apply_corrections singles x0).
  set (x2 := apply_corrections (singles ++ tail) x0).
  assert (Hx2 : x2 = apply_corrections tail x1) by apply apply_corrections_app.
  set (t1 := tidy E x2).
  assert (Hx1c : forall x, In x x1 -> In x x0 \/ (x <? 128) = true).
  { intros x. apply apply_singles_chars, Hs. }
  assert (Hx2c : forall x, In x x2 -> In x x1 \/ (x <? 128) = true).
  { intros x Hx. rewrite Hx2 in Hx. destruct Ht as [-> | ->]; [left; exact Hx|].
    unfold apply_corrections in Hx. cbn [fold_left fst snd] in Hx.
    apply replace_chars in Hx as [Hx|[<-|[]]]; [auto|right; reflexivity|discriminate]. }
  assert (Ht1c : forall x, In x t1 -> (x <? 128) = true \/ In x x1).
  { intros x Hx. apply tidy_chars in Hx as [->|[Hx _]]; [left; reflexivity|].
    apply Hx2c in Hx as [Hx|Hx]; auto. }
  assert (Hsur : no_surrogate t1).
  { intros x Hx. apply Ht1c in Hx as [Hx|Hx]; [apply ascii_not_surrogate, Hx|].
    apply Hx1c in Hx as [Hx|Hx];
      [apply (drop_surrogates_clean text), Hx|apply ascii_not_surrogate, Hx]. }
  rewrite (drop_surrogates_fix t1 Hsur).
  assert (Hsingles : apply_corrections singles t1 = t1).
  { apply apply_corrections_absent. intros kv Hkv.
    pose proof (proj1 (Forall_forall _ _) Hs kv Hkv) as Hfix.
    split; [apply single_fix_key_nonempty, Hfix|].
    destruct Hfix as (c & Hk & Hge & _). destruct kv as [k v]. cbn [fst] in Hk |- *.
    subst k. apply contains_single.
    intros Hin. apply Ht1c in Hin as [Hin|Hin].
    - apply Z.ltb_lt in Hin. lia.
    - revert Hin. apply (apply_singles_gone singles x0 ([c], v) c Hs Hkv eq_refl). }
  assert (Htail : apply_corrections tail t1 = t1).
  { destruct Ht as [-> | ->]; [reflexivity|].
    unfold apply_corrections. cbn [fold_left fst snd].
    apply replace_absent; [discriminate|].
    apply pair_free_contains. subst t1. apply tidy_pair_free.
    rewrite Hx2. unfold apply_corrections. cbn [fold_left fst snd].
    apply (replace_pair_free 0xE2 0x20AC 0x22) with (n := length x1);
      [discriminate|discriminate|lia|discriminate]. }
  rewrite apply_corrections_app, Hsingles, Htail.
  apply tidy_idempotent.
Qed.

(** C1, amended: on a processor that has analysed one document and whose
    language is not Portuguese, correcting a corrected text changes
    nothing.  The two hypotheses on unidecode are its contract (ASCII out,
    ASCII text unchanged); the third says that the euro sign is not a
    letter or a digit. *)
Theorem auto_correct_idempotent_outside_portuguese l analysed text :
  l <> Portuguese ->
  let st := analyze_errors E (set_language l init) analysed in
  auto_correct E st (auto_correct E st text) = auto_correct E st text.
Proof.
  intros Hl. cbv zeta.
  assert (Hlang : language (analyze_errors E (set_language l init) analysed) <> Portuguese).
  { exact Hl. }
  rewrite !auto_correct_outside_portuguese by exact Hlang.
  destruct (correction_map_shape E unidecode_ascii unidecode_id l analysed Hl)
    as (singles & tail & -> & Hs & Ht).
  apply corrected_text_is_stable; assumption.
Qed.
End Idempotence.

(** *** The sample environment meets the hypotheses *)

Lemma isascii_app a b : isascii (a ++ b) = isascii a && isascii b.
Proof. apply forallb_app. Qed.

Lemma transliterate_ascii s : isascii (transliterate s) = true.
Proof.
  induction s as [|c s IH]; [reflexivity|].
  cbn [transliterate flat_map]. fold (transliterate s). rewrite isascii_app, IH, andb_true_r.
  destruct (c <? 128) eqn:Hc; [cbn; rewrite Hc; reflexivity|].
  destruct (c =? 8364); reflexivity.
Qed.

Lemma transliterate_id s : isascii s = true -> transliterate s = s.
Proof.
  induction s as [|c s IH]; intros H; [reflexivity|].
  cbn in H. apply andb_true_iff in H as [Hc H].
  cbn [transliterate flat_map]. fold (transliterate s). rewrite Hc, (IH H). reflexivity.
Qed.

(** An English page with the mojibake pair, euro signs and broken words. *)
Lemma auto_correct_idempotent_outside_portuguese_witness :
  auto_correct world_en (analyze_errors world_en (set_language English init) inn_page)
    (auto_correct world_en (analyze_errors world_en (set_language English init) inn_page)
       inn_page) =
  auto_correct world_en (analyze_errors world_en (set_language English init) inn_page)
    inn_page.
Proof.
  apply (auto_correct_idempotent_outside_portuguese world_en
           transliterate_ascii transliterate_id eq_refl English inn_page inn_page).
  discriminate.
Defined.

(** The restriction to one analysed document is needed as well: a map kept
    from a Portuguese document repairs, in an English one, a word that the
    first call has just put together. *)
Lemma stale_map_breaks_idempotence :
  let first := process_file world_two init [] doc_a out_dir in
  let st :=
    final_state
      (process_file world_two (final_state first) (files first) doc_b out_dir) in
  language st = English /\
  auto_correct world_two st (lit "P" ++ [0xEE] ++ lit "-" ++ [0x0A] ++ lit "S") =
    lit "P" ++ [0xEE] ++ lit "S" /\
  auto_correct world_two st (lit "P" ++ [0xEE] ++ lit "S") =
    lit "P" ++ [0xF3] ++ lit "s".
Proof. cbv zeta. repeat split; vm_compute; reflexivity. Qed.

(** * More of the pipeline *)

(** ** The scorer *)

Section Scores.
Variable E : Env.

Lemma ratio_zero_iff n len : (0 < len)%nat -> (ratio n len == 0)%Q <-> n = 0%nat.
Proof.
  intros Hlen. unfold ratio, Qeq. cbn. lia.
Qed.

Lemma ratio_times_10_ge_1 n len :
  (0 < len)%nat -> (1 <= ratio n len * 10)%Q <-> (len <= 10 * n)%nat.
Proof.
  intros Hlen. unfold ratio, Qle, Qmult. cbn [Qnum Qden].
  rewrite Pos.mul_1_r, Z.mul_1_r, Z.mul_1_l.
  rewrite <- positive_nat_Z, Nat2Pos.id by lia. lia.
Qed.

Lemma count_space_valid text : (count [0x20%Z] text <= valid_chars E text)%nat.
Proof.
  rewrite count_char. unfold char_count, valid_chars.
  induction text as [|c t IH]; [cbn; lia|].
  cbn [filter]. destruct (0x20 =? c) eqn:Hc.
  - apply Z.eqb_eq in Hc. subst c.
    replace (valid_char E 32) with true; [cbn [length]; lia|].
    unfold valid_char. replace (isspace 32) with true by reflexivity.
    rewrite orb_true_r. reflexivity.
  - destruct (valid_char E c); cbn [length]; lia.
Qed.

(** The space bonus is worth 0.02 of the score, not 0.2: in exact
    arithmetic no text scores more than 0.82, and the float that the code
    returns is never above 0.8200000000000001, the next float after 0.82.
    A clean text with one space in five reaches both bounds. *)
Theorem quality_at_most_082 text :
  (_evaluate_text_quality E text <= 82 # 100)%Q /\
  (Double._evaluate_text_quality E text <= 3692951694443807 # 4503599627370496)%Q /\
  (_evaluate_text_quality E candidate_clean == 82 # 100)%Q /\
  (Double._evaluate_text_quality E candidate_clean ==
   3692951694443807 # 4503599627370496)%Q /\
  (Double.literal (82 # 100) == 7385903388887613 # 9007199254740992)%Q.
Proof.
  assert (Hclean : valid_chars E candidate_clean = 200%nat).
  { unfold valid_chars, candidate_clean. rewrite filter_app, length_app.
    assert (H1 : forall n, length (filter (valid_char E) (repeat 0x20 n)) = n).
    { induction n; [reflexivity|]. cbn [repeat filter].
      replace (valid_char E 32) with true; [cbn [length]; f_equal; exact IHn|].
      unfold valid_char. replace (isspace 32) with true by reflexivity.
      rewrite orb_true_r. reflexivity. }
    assert (H2 : forall n, length (filter (valid_char E) (repeat 0x61 n)) = n).
    { induction n; [reflexivity|]. cbn [repeat filter].
      replace (valid_char E 97) with true; [cbn [length]; f_equal; exact IHn|].
      reflexivity. }
    rewrite H1, H2. reflexivity. }
  split; [|split; [|split; [|split]]].
  - unfold _evaluate_text_quality.
    destruct (length text <? 100)%nat eqn:Hlen; [lra|].
    apply Nat.ltb_ge in Hlen.
    pose proof (ratio_le_1 _ _ (valid_chars_le E text) ltac:(lia)) as Hv1.
    pose proof (space_bonus_range text) as [Hs0 Hs1].
    pose proof (ratio_nonneg (problem_chars text) (length text)) as Hp0.
    fold (valid_ratio E text) in Hv1. fold (problem_ratio text) in Hp0.
    destruct (qmin_spec (problem_ratio text * 10) 1) as (Hm1 & Hm2 & [Hm|Hm]);
      rewrite Hm; lra.
  - apply double_quality_bound.
  - unfold _evaluate_text_quality, valid_ratio, space_bonus, space_ratio, problem_ratio.
    rewrite Hclean. vm_compute. reflexivity.
  - unfold Double._evaluate_text_quality, Double.valid_ratio, Double.space_bonus,
      Double.space_ratio, Double.problem_ratio.
    rewrite Hclean. vm_compute. reflexivity.
  - vm_compute. reflexivity.
Qed.

(** A text of at least one hundred characters scores 0 exactly when none of
    its characters is valid and its problem characters, U+FFFD counted
    twice, make up a tenth of it or more. *)
Theorem quality_zero_iff text :
  (100 <= length text)%nat ->
  (_evaluate_text_quality E text == 0)%Q <->
  valid_chars E text = 0%nat /\ (length text <= 10 * problem_chars text)%nat.
Proof.
  intros Hlen. unfold _evaluate_text_quality.
  assert (Hl := Hlen). apply Nat.ltb_ge in Hl. rewrite Hl.
  pose proof (ratio_nonneg (valid_chars E text) (length text)) as Hv0.
  pose proof (space_bonus_range text) as [Hs0 Hs1].
  pose proof (ratio_nonneg (problem_chars text) (length text)) as Hp0.
  pose proof (ratio_zero_iff (valid_chars E text) (length text) ltac:(lia)) as Hz.
  pose proof (ratio_times_10_ge_1 (problem_chars text) (length text) ltac:(lia)) as Hp.
  fold (valid_ratio E text) in Hv0, Hz. fold (problem_ratio text) in Hp0, Hp.
  destruct (qmin_spec (problem_ratio text * 10) 1) as (Hm1 & Hm2 & Hm).
  revert Hm1 Hm2 Hm. generalize (qmin (problem_ratio text * 10) 1) as q.
  intros q Hm1 Hm2 Hm.
  split.
  - intros H. split.
    + apply Hz. lra.
    + apply Hp. lra.
  - intros [Hv Hpr]. apply Hz in Hv. apply Hp in Hpr.
    assert (Hb : (space_bonus text == 0)%Q).
    { unfold space_bonus.
      destruct (qlt (1 # 10) (space_ratio text)) eqn:Hq; [|reflexivity].
      apply qlt_iff in Hq. exfalso.
      assert (Hsv : (space_ratio text <= valid_ratio E text)%Q).
      { unfold space_ratio, valid_ratio, ratio, Qle. cbn [Qnum Qden].
        apply Z.mul_le_mono_nonneg_r; [lia|].
        apply Nat2Z.inj_le, count_space_valid. }
      lra. }
    assert (Hq : (q == 1)%Q).
    { destruct Hm as [Hm|Hm]; lra. }
    rewrite Hv, Hb, Hq. lra.
Qed.
End Scores.

Lemma Permutation_filter_length {A} (f : A -> bool) l l' :
  Permutation l l' -> length (filter f l) = length (filter f l').
Proof.
  induction 1 as [|x l l' _ IH|x y l|l l' l'' _ IH1 _ IH2]; cbn.
  - reflexivity.
  - destruct (f x); cbn; congruence.
  - destruct (f x), (f y); reflexivity.
  - congruence.
Qed.

Section Order.
Variable E : Env.

(** The score depends on how often each character occurs, not on where: it
    cannot tell a text from the same characters in another order. *)
Theorem quality_ignores_order t1 t2 :
  Permutation t1 t2 -> _evaluate_text_quality E t1 = _evaluate_text_quality E t2.
Proof.
  intros H. unfold _evaluate_text_quality, valid_ratio, space_bonus, space_ratio,
    problem_ratio, valid_chars.
  rewrite !problem_chars_counts, !count_char. unfold char_count.
  rewrite (Permutation_length H).
  rewrite (Permutation_filter_length (valid_char E) _ _ H).
  rewrite (Permutation_filter_length (Z.eqb 0x20) _ _ H).
  rewrite (Permutation_filter_length (Z.eqb 0xFFFD) _ _ H).
  rewrite (Permutation_filter_length (Z.eqb 0x00) _ _ H).
  reflexivity.
Qed.
End Order.

(** A page read backwards. *)
Lemma quality_ignores_order_witness :
  _evaluate_text_quality world_pt (rev regulamento) =
  _evaluate_text_quality world_pt regulamento.
Proof.
  apply (quality_ignores_order world_pt (rev regulamento) regulamento).
  apply Permutation_sym, Permutation_rev.
Defined.

(** One hundred replacement characters. *)
Lemma quality_zero_iff_witness :
  (_evaluate_text_quality world_pt candidate_lost == 0)%Q.
Proof.
  apply (quality_zero_iff world_pt candidate_lost).
  - apply Nat.leb_le. vm_compute. reflexivity.
  - split; [reflexivity|]. apply Nat.leb_le. vm_compute. reflexivity.
Defined.

(** ** The extractors and the orchestrator *)

Lemma filter_id {A} (f : A -> bool) l :
  (forall x, In x l -> f x = true) -> filter f l = l.
Proof.
  induction l as [|a l IH]; intros H; [reflexivity|]. cbn.
  rewrite (H a (or_introl eq_refl)). f_equal. apply IH. intros x Hx. apply H. right; exact Hx.
Qed.

Lemma join_pages_none pages : In None pages -> join_pages pages = None.
Proof.
  induction pages as [|[page|] pages IH]; intros H; cbn; [destruct H| |reflexivity].
  destruct H as [H|H]; [discriminate|]. rewrite (IH H). reflexivity.
Qed.

Lemma join_pages_all texts :
  join_pages (map Some texts) = Some (flat_map (fun page => page ++ newline) texts).
Proof.
  induction texts as [|t texts IH]; [reflexivity|]. cbn [map join_pages flat_map].
  rewrite IH, <- app_assoc. reflexivity.
Qed.

Section Runs.
Variable E : Env.

(** The pdfplumber extractor is all or nothing: one page without text loses
    the text of every page.  When every page has text the result is each
    page followed by a newline, which is what the PyMuPDF extractor returns
    for the same pages. *)
Theorem pdfplumber_all_or_nothing file_path pages :
  pdfplumber_pages E file_path = Some pages ->
  (In None pages -> _extract_with_pdfplumber E file_path = []) /\
  (forall texts, pages = map Some texts ->
     _extract_with_pdfplumber E file_path =
       flat_map (fun page => page ++ newline) texts /\
     (fitz_pages E file_path = Some texts ->
      _extract_with_pdfplumber E file_path = _extract_with_fitz E file_path)).
Proof.
  intros Hp. unfold _extract_with_pdfplumber, _extract_with_fitz. rewrite Hp. split.
  - intros H. rewrite (join_pages_none _ H). reflexivity.
  - intros texts ->. rewrite join_pages_all. split; [reflexivity|].
    intros ->. reflexivity.
Qed.

Lemma quality_positive_long text :
  (0 < _evaluate_text_quality E text)%Q -> (100 <= length text)%nat.
Proof.
  intros H. destruct (Nat.lt_ge_cases (length text) 100) as [Hl|Hl]; [|exact Hl].
  rewrite quality_of_short_text in H by exact Hl. lra.
Qed.

Lemma best_extraction_result file_path :
  let r := best_extraction E file_path in
  (fst r = [] /\
   (_evaluate_text_quality E (_extract_with_fitz E file_path) <= 0)%Q /\
   (_evaluate_text_quality E (_extract_with_pdfplumber E file_path) <= 0)%Q) \/
  ((0 < _evaluate_text_quality E (fst r))%Q /\
   (fst r = _extract_with_fitz E file_path \/
    fst r = _extract_with_pdfplumber E file_path)).
Proof.
  cbv zeta. rewrite best_extraction_cases.
  destruct (qlt 0 (_evaluate_text_quality E (_extract_with_fitz E file_path))) eqn:H1.
  - apply qlt_iff in H1. right.
    destruct (qlt _ (_evaluate_text_quality E (_extract_with_pdfplumber E file_path))) eqn:H2.
    + apply qlt_iff in H2. cbn [fst]. split; [lra|auto].
    + cbn [fst]. auto.
  - apply qlt_false_iff in H1.
    destruct (qlt 0 (_evaluate_text_quality E (_extract_with_pdfplumber E file_path))) eqn:H2.
    + apply qlt_iff in H2. right. cbn [fst]. auto.
    + apply qlt_false_iff in H2. left. cbn [fst]. auto.
Qed.

Lemma is_empty_false (s : str) : (0 < length s)%nat -> is_empty s = false.
Proof. destruct s; cbn; [lia|reflexivity]. Qed.

(** [extract_text] returns either nothing, leaving the processor as it was,
    or the text of one of the two extractors, of at least one hundred
    characters and of positive score, with [language] detected from it. *)
Theorem extract_text_result st file_path :
  let r := extract_text E st file_path in
  (fst r = [] /\ snd r = st) \/
  ((100 <= length (fst r))%nat /\
   (0 < _evaluate_text_quality E (fst r))%Q /\
   (fst r = _extract_with_fitz E file_path \/
    fst r = _extract_with_pdfplumber E file_path) /\
   snd r = set_language (detect_language E (fst r)) st).
Proof.
  cbv zeta. unfold extract_text.
  destruct (best_extraction_result file_path) as [(H & _)|(H1 & H2)].
  - rewrite H. cbn. left. auto.
  - pose proof (quality_positive_long _ H1) as Hl.
    rewrite is_empty_false by lia. cbn [fst snd]. right. auto.
Qed.

Lemma extract_text_empty_iff st file_path :
  fst (extract_text E st file_path) = [] <->
  (_evaluate_text_quality E (_extract_with_fitz E file_path) <= 0)%Q /\
  (_evaluate_text_quality E (_extract_with_pdfplumber E file_path) <= 0)%Q.
Proof.
  rewrite extract_text_best.
  destruct (best_extraction_result file_path) as [(H & H1 & H2)|(H1 & H2)].
  - split; auto.
  - split.
    + intros H. rewrite H in H1. rewrite quality_of_short_text in H1 by (cbn; lia). lra.
    + intros [Ha Hb]. destruct H2 as [H2|H2]; rewrite H2 in H1; lra.
Qed.

Lemma extract_text_empty_state st file_path :
  fst (extract_text E st file_path) = [] -> snd (extract_text E st file_path) = st.
Proof.
  unfold extract_text. destruct (is_empty _) eqn:H; [reflexivity|].
  cbn [fst snd]. intros H'. rewrite H' in H. discriminate.
Qed.


(** *** The sanitizers *)

Lemma sanitize_text_eq text :
  sanitize_text E text = sanitize_before_blank_lines E text.
Proof.
  unfold sanitize_text, sub, Re.sub. apply blank_lines_nothing.
  intros H. apply sanitize_before_blank_lines_chars in H as (H & _).
  specialize (H eq_refl). discriminate.
Qed.

Lemma sanitize_text_chars text c : In c (sanitize_text E text) -> sanitized_char c.
Proof. rewrite sanitize_text_eq. apply sanitize_before_blank_lines_chars. Qed.

Lemma sanitize_before_blank_lines_fix t :
  (forall c, In c t -> sanitized_char c) -> normal_from false t = true ->
  sanitize_before_blank_lines E t = t.
Proof.
  intros Hc Hn. unfold sanitize_before_blank_lines.
  rewrite sub_spaces_collapse.
  unfold apply_corrections, replacements. cbn [fold_left fst snd].
  rewrite !replace_delete_char.
  unfold sub, Re.sub, control_re. rewrite sub_chr_delete.
  unfold utf8_ignore_roundtrip.
  rewrite (filter_id (fun c => negb (is_control c)) t).
  2:{ intros x Hx. destruct (Hc x Hx) as (_ & H & _). rewrite H. reflexivity. }
  rewrite (filter_id (fun c => negb (is_surrogate c)) t).
  2:{ intros x Hx. destruct (Hc x Hx) as (_ & _ & H & _). rewrite H. reflexivity. }
  rewrite (filter_id _ t).
  2:{ intros x Hx. destruct (Hc x Hx) as (_ & _ & _ & H & _).
      apply negb_true_iff, Z.eqb_neq. congruence. }
  rewrite (filter_id _ t).
  2:{ intros x Hx. destruct (Hc x Hx) as (_ & _ & _ & _ & H & _).
      apply negb_true_iff, Z.eqb_neq. congruence. }
  rewrite (filter_id _ t).
  2:{ intros x Hx. destruct (Hc x Hx) as (_ & _ & _ & _ & _ & H).
      apply negb_true_iff, Z.eqb_neq. congruence. }
  apply normal_collapse, Hn.
Qed.

Lemma sanitize_before_blank_lines_normal text :
  normal_from false (sanitize_before_blank_lines E text) = true.
Proof.
  unfold sanitize_before_blank_lines. rewrite sub_spaces_collapse. apply collapse_normal.
Qed.

(** Sanitizing a sanitized text changes nothing. *)
Theorem sanitize_text_idempotent text :
  sanitize_text E (sanitize_text E text) = sanitize_text E text.
Proof.
  rewrite (sanitize_text_eq (sanitize_text E text)).
  apply sanitize_before_blank_lines_fix.
  - intros c. apply sanitize_text_chars.
  - rewrite sanitize_text_eq. apply sanitize_before_blank_lines_normal.
Qed.


(** [fallback_sanitization] always returns.  Its result holds no U+FFFD and
    no lone surrogate, and when a codec raises it is the ASCII characters
    of the input. *)
Theorem fallback_sanitization_output text :
  exists s,
    fallback_sanitization E text = Ok s /\
    (forall c, In c s -> c <> 0xFFFD /\ is_surrogate c = false) /\
    (recode E (or_default (chardet_detect E (encode_latin1_replace text)) (lit "latin1")) text = None ->
     s = ascii_ignore_roundtrip text /\ isascii s = true).
Proof.
  unfold fallback_sanitization. destruct (recode E _ text) as [recoded|].
  - eexists. split; [reflexivity|]. split; [|discriminate].
    intros c Hin. apply sanitize_text_chars in Hin as (H1 & _ & H3 & Hf & _).
    split; auto.
  - eexists. split; [reflexivity|]. split.
    + unfold ascii_ignore_roundtrip. intros c Hin. apply filter_In in Hin as [_ Hin].
      apply Z.ltb_lt in Hin. split; [lia|].
      unfold is_surrogate, in_range. lia.
    + intros _. split; [reflexivity|]. unfold isascii, ascii_ignore_roundtrip.
      apply forallb_forall. intros x Hx. apply filter_In in Hx as [_ Hx]. exact Hx.
Qed.


(** *** The fallback of the formatter *)


Lemma dict_get_set_same k v d : dict_get k (dict_set k v d) = Some v.
Proof.
  induction d as [|[k' v'] d IH]; cbn.
  - rewrite str_eqb_refl. reflexivity.
  - destruct (str_eqb k k') eqn:H; cbn; rewrite H; [reflexivity|exact IH].
Qed.

Lemma str_eqb_neq a b : a <> b -> str_eqb a b = false.
Proof.
  intros H. destruct (str_eqb a b) eqn:Hb; [|reflexivity].
  apply str_eqb_eq in Hb. contradiction.
Qed.

Lemma dict_get_set_other k k' v d : k' <> k -> dict_get k' (dict_set k v d) = dict_get k' d.
Proof.
  intros Hne. induction d as [|[k0 v0] d IH]; cbn.
  - rewrite (str_eqb_neq _ _ Hne). reflexivity.
  - destruct (str_eqb k k0) eqn:H; cbn.
    + apply str_eqb_eq in H. subst k0. rewrite (str_eqb_neq _ _ Hne). reflexivity.
    + destruct (str_eqb k' k0); [reflexivity|exact IH].
Qed.




(** *** process_file *)

(** The writing of the output file being taken to succeed, [process_file]
    raises nothing: what the formatter and the codecs of the fallback
    raise is caught on the way.  It returns None exactly when the input
    file is missing or neither extractor scores above 0, and a text
    otherwise. *)
Theorem process_file_returns st fs input_path output_dir :
  let o := process_file E st fs input_path output_dir in
  let s1 := _evaluate_text_quality E (_extract_with_fitz E input_path) in
  let s2 := _evaluate_text_quality E (_extract_with_pdfplumber E input_path) in
  (returned o = Ok None <->
   path_exists E input_path = false \/ ((s1 <= 0)%Q /\ (s2 <= 0)%Q)) /\
  (returned o = Ok None \/ exists final_text, returned o = Ok (Some final_text)).
Proof.
  cbv zeta.
  pose proof (extract_text_empty_iff (set_sanitization_attempted false st) input_path) as He.
  unfold process_file.
  destruct (path_exists E input_path); cbn [negb].
  2:{ cbn. split; [split; auto|auto]. }
  destruct (extract_text E (set_sanitization_attempted false st) input_path) as [raw st1].
  cbn [fst] in He.
  destruct raw as [|c raw]; cbn [is_empty].
  { cbn. split; [|auto]. split; auto. intros _. right. apply He. reflexivity. }
  assert (Hne : ~ ((_evaluate_text_quality E (_extract_with_fitz E input_path) <= 0)%Q /\
                   (_evaluate_text_quality E (_extract_with_pdfplumber E input_path) <= 0)%Q)).
  { intros H. apply He in H. discriminate. }
  destruct (process_with_docling_returns E
              (enhance_structure E (auto_correct E (analyze_errors E st1 (c :: raw)) (c :: raw))))
    as [final ->].
  destruct (contains replacement_character final && _).
  - destruct (fallback_sanitization_returns E (c :: raw)) as [sanitized ->].
    destruct (process_with_docling_returns E sanitized) as [final' ->].
    cbn. split; [|eauto]. split; [discriminate|]. intros [H|H]; [discriminate|tauto].
  - cbn. split; [|eauto]. split; [discriminate|]. intros [H|H]; [discriminate|tauto].
Qed.

(** A run that returns a text has written that text to
    [output_dir/basename(input_path).md] as its last step, and the file
    then holds the text, whatever it held before.  A run that returns None
    has written nothing. *)
Theorem process_file_writes_what_it_returns st fs input_path output_dir :
  let o := process_file E st fs input_path output_dir in
  let output_path := output_file input_path output_dir in
  match returned o with
  | Ok (Some final_text) =>
      read_file output_path (files o) = Some final_text /\
      exists tr, trace o = tr ++ [Written output_path final_text]
  | Ok None => files o = fs /\ trace o = []
  | Raise _ => False
  end.
Proof.
  cbv zeta. unfold process_file.
  destruct (path_exists E input_path); cbn [negb]; [|cbn; auto].
  destruct (extract_text E (set_sanitization_attempted false st) input_path) as [raw st1].
  destruct (is_empty raw); [cbn; auto|].
  destruct (process_with_docling_returns E
              (enhance_structure E (auto_correct E (analyze_errors E st1 raw) raw)))
    as [final ->].
  destruct (contains replacement_character final && _).
  - destruct (fallback_sanitization_returns E raw) as [sanitized ->].
    destruct (process_with_docling_returns E sanitized) as [final' ->].
    cbn [write_output stop returned files trace]. split; [apply dict_get_set_same|].
    exists [FallbackBranch raw]. reflexivity.
  - cbn [write_output stop returned files trace]. split; [apply dict_get_set_same|].
    exists []. reflexivity.
Qed.

(** A run that returns None leaves the processor as it was, but for the
    flag that every run lowers. *)
Theorem failed_run_keeps_state st fs input_path output_dir :
  let o := process_file E st fs input_path output_dir in
  returned o = Ok None ->
  final_state o = set_sanitization_attempted false st /\ files o = fs.
Proof.
  cbv zeta.
  pose proof (extract_text_empty_state (set_sanitization_attempted false st) input_path) as He.
  unfold process_file.
  destruct (path_exists E input_path); cbn [negb]; [|cbn; auto].
  destruct (extract_text E (set_sanitization_attempted false st) input_path) as [raw st1].
  cbn [fst snd] in He.
  destruct raw as [|c raw]; cbn [is_empty].
  { cbn. intros _. rewrite He; auto. }
  destruct (process_with_docling_returns E
              (enhance_structure E (auto_correct E (analyze_errors E st1 (c :: raw)) (c :: raw))))
    as [final ->].
  destruct (contains replacement_character final && _).
  - destruct (fallback_sanitization_returns E (c :: raw)) as [sanitized ->].
    destruct (process_with_docling_returns E sanitized) as [final' ->].
    cbn. discriminate.
  - cbn. discriminate.
Qed.


End Runs.




(** A document whose second page is blank. *)
Lemma pdfplumber_all_or_nothing_witness :
  _extract_with_pdfplumber world_blank doc_a = [].
Proof.
  apply (proj1 (pdfplumber_all_or_nothing world_blank doc_a
                  [Some (lit "abc"); None] eq_refl)).
  right; left; reflexivity.
Defined.

(** A document too short to be kept, on a processor whose language is set. *)
Lemma failed_run_keeps_state_witness :
  final_state (process_file world_short (set_language English init) [] doc_a out_dir) =
    set_sanitization_attempted false (set_language English init) /\
  files (process_file world_short (set_language English init) [] doc_a out_dir) = [].
Proof.
  apply (failed_run_keeps_state world_short (set_language English init) [] doc_a out_dir).
  vm_compute. reflexivity.
Defined.


(** ** Line breaks *)

Section Lines.
Variable E : Env.

Lemma sub_from_needs_newline r tpl :
  (forall prev s, ~ In 0x0A s -> Re.match_here (is_word E) r prev s = None) ->
  forall s prev, ~ In 0x0A s -> Re.sub_from (is_word E) r tpl prev s 0 = s.
Proof.
  intros Hr. induction s as [|c s IH]; intros prev H.
  - cbn [Re.sub_from]. rewrite Hr by exact H. reflexivity.
  - rewrite sub_from_nomatch by (apply Hr, H).
    f_equal. apply IH. intros H'. apply H. right; exact H'.
Qed.

Lemma match_here_newline_first r prev s :
  ~ In 0x0A s -> Re.match_here (is_word E) (Re.Seq (Re.Lit1 0x0A) r) prev s = None.
Proof.
  intros H. unfold Re.match_here, Re.Lit1. cbn [Re.run].
  destruct s as [|c s]; [reflexivity|].
  destruct (10 =? c) eqn:Hc; [|reflexivity].
  apply Z.eqb_eq in Hc. exfalso. apply H. left. symmetry; exact Hc.
Qed.

Lemma enhance_structure_without_newline text :
  ~ In 0x0A text -> enhance_structure E text = text.
Proof.
  intros H. unfold enhance_structure, sub, Re.sub.
  rewrite (sub_from_needs_newline chapter_re).
  - rewrite (sub_from_needs_newline (numbered_re E)).
    + apply sub_from_needs_newline; [|exact H].
      intros prev s. apply match_here_newline_first.
    + intros prev s. apply match_here_newline_first.
    + exact H.
  - intros prev s. apply match_here_newline_first.
  - exact H.
Qed.

(** Every pattern of [enhance_structure] starts at a line break: a text
    without one is returned as it is. *)
Theorem enhance_structure_needs_a_line_break text :
  ~ In 0x0A text -> enhance_structure E text = text.
Proof. apply enhance_structure_without_newline. Qed.

Lemma normal_from_spaces s : forall b,
  normal_from b s = true ->
  (forall c, In c s -> isspace c = true -> c = 0x20) /\
  contains [0x20; 0x20] s = false.
Proof.
  induction s as [|c s IH]; intros b H; [split; [intros c []|reflexivity]|].
  cbn [normal_from] in H. destruct (isspace c) eqn:Hc.
  - apply andb_true_iff in H as [H H3]. apply andb_true_iff in H as [H1 H2].
    apply Z.eqb_eq in H1. subst c.
    destruct (IH _ H3) as [Ha Hb]. split.
    + intros x [<-|Hx] Hs; [reflexivity|]. apply Ha; assumption.
    + cbn [contains]. rewrite Hb, orb_false_r.
      destruct s as [|d s]; [reflexivity|].
      cbn [normal_from] in H3. cbn [startswith].
      destruct (32 =? d) eqn:Hd; [|rewrite andb_false_r; reflexivity].
      apply Z.eqb_eq in Hd. subst d.
      replace (isspace 32) with true in H3 by reflexivity. cbn in H3. discriminate.
  - destruct (IH _ H) as [Ha Hb]. split.
    + intros x [<-|Hx] Hs; [congruence|]. apply Ha; assumption.
    + cbn [contains]. rewrite Hb, orb_false_r. cbn [startswith].
      destruct (32 =? c) eqn:Hd; [|reflexivity].
      apply Z.eqb_eq in Hd. subst c. discriminate.
Qed.

(** Outside Portuguese the corrected text is one line in which white space
    is single spaces, whatever the state of the processor; so
    [enhance_structure], which [process_file] calls next, has nothing to
    work on. *)
Theorem auto_correct_flattens st text :
  language st <> Portuguese ->
  let corrected := auto_correct E st text in
  (forall c, In c corrected -> isspace c = true -> c = 0x20) /\
  contains (lit "  ") corrected = false /\
  enhance_structure E corrected = corrected.
Proof.
  intros Hl. cbv zeta. rewrite (auto_correct_outside_portuguese E st text Hl).
  destruct (normal_from_spaces _ _ (tidy_normal E
              (apply_corrections (correction_map st) (drop_surrogates text)))) as [Ha Hb].
  split; [exact Ha|]. split; [exact Hb|].
  apply enhance_structure_without_newline, tidy_no_newline.
Qed.

Lemma process_file_outcome st fs input_path output_dir :
  let o := process_file E st fs input_path output_dir in
  returned o = returned (process_file E st [] input_path output_dir) /\
  files o =
    match returned o with
    | Ok (Some final_text) => write_file (output_file input_path output_dir) final_text fs
    | _ => fs
    end.
Proof.
  cbv zeta. unfold process_file.
  destruct (path_exists E input_path); cbn [negb]; [|cbn; auto].
  destruct (extract_text E (set_sanitization_attempted false st) input_path) as [raw st1].
  destruct (is_empty raw); [cbn; auto|].
  destruct (process_with_docling_returns E
              (enhance_structure E (auto_correct E (analyze_errors E st1 raw) raw)))
    as [final ->].
  destruct (contains replacement_character final && _).
  - destruct (fallback_sanitization_returns E raw) as [sanitized ->].
    destruct (process_with_docling_returns E sanitized) as [final' ->].
    cbn. auto.
  - cbn. auto.
Qed.

Lemma process_all_reads pdf_files : forall fs p,
  match last_written E pdf_files p with
  | Some text => read_file p (process_all E pdf_files fs) = Some text
  | None =>
      forall content, read_file p fs = Some content ->
                      read_file p (process_all E pdf_files fs) = Some content
  end.
Proof.
  induction pdf_files as [|d rest IH]; intros fs p; cbn [process_all last_written].
  - auto.
  - destruct (process_file_outcome init fs d OUTPUT_DIR) as [Hr Hf].
    rewrite Hf, Hr. clear Hf Hr.
    match goal with |- context [process_all E rest ?f] => specialize (IH f p) end.
    destruct (last_written E rest p) as [text|]; [exact IH|].
    destruct (returned (process_file E init [] d OUTPUT_DIR)) as [[t|]|e]; try exact IH.
    destruct (str_eqb (output_file d OUTPUT_DIR) p) eqn:Hp.
    + apply str_eqb_eq in Hp. subst p. apply IH. apply dict_get_set_same.
    + intros content Hc. apply IH. unfold write_file.
      rewrite dict_get_set_other; [exact Hc|].
      intros ->. rewrite str_eqb_refl in Hp. discriminate.
Qed.

(** After the loop of [main] an output path holds the text that the last
    of the documents written there returns when a new processor handles
    it alone, whatever was processed before it and whatever the files held:
    what is written for a document depends on no other document, and of
    two documents with one output path the later one replaces the
    earlier. *)
Theorem main_treats_documents_independently pdf_files fs p text :
  last_written E pdf_files p = Some text ->
  read_file p (process_all E pdf_files fs) = Some text.
Proof.
  intros H. pose proof (process_all_reads pdf_files fs p) as Hr.
  rewrite H in Hr. exact Hr.
Qed.
End Lines.

(** Two documents of one name: the file holds the text of the second. *)
Lemma main_treats_documents_independently_witness :
  output_file doc_x OUTPUT_DIR = output_file doc_y OUTPUT_DIR /\
  exists first second,
    returned (process_file world_same_name init [] doc_x OUTPUT_DIR) = Ok (Some first) /\
    returned (process_file world_same_name init [] doc_y OUTPUT_DIR) = Ok (Some second) /\
    str_eqb first second = false /\
    read_file (output_file doc_x OUTPUT_DIR)
      (process_all world_same_name [doc_x; doc_y] []) = Some second.
Proof.
  split; [reflexivity|]. eexists _, _.
  split; [vm_compute; reflexivity|]. split; [vm_compute; reflexivity|].
  split; [vm_compute; reflexivity|].
  apply (main_treats_documents_independently world_same_name [doc_x; doc_y] []).
  vm_compute. reflexivity.
Defined.

(** A chapter heading and a numbered heading on one line. *)
Lemma enhance_structure_needs_a_line_break_witness :
  enhance_structure world_pt (lit "CHAPTER IV  1.2 scope") = lit "CHAPTER IV  1.2 scope".
Proof.
  apply (enhance_structure_needs_a_line_break world_pt (lit "CHAPTER IV  1.2 scope")).
  vm_compute. intuition discriminate.
Defined.

(** An English page of several lines. *)
Lemma auto_correct_flattens_witness :
  enhance_structure world_en (auto_correct world_en (set_language English init) inn_page) =
  auto_correct world_en (set_language English init) inn_page.
Proof.
  apply (auto_correct_flattens world_en (set_language English init) inn_page).
  discriminate.
Defined.

(** ** The vote of the language detector *)

Lemma startswith_app_l w v s : startswith (w ++ v) s = true -> startswith w s = true.
Proof.
  revert s; induction w as [|x w IH]; intros s H; [reflexivity|].
  destruct s as [|y s]; [discriminate|]. cbn in *.
  apply andb_true_iff in H as [H1 H2]. rewrite H1. cbn. apply IH, H2.
Qed.

Lemma occurrences_prefix w v s : (occurrences (w ++ v) s <= occurrences w s)%nat.
Proof.
  induction s as [|c s IH]; cbn [occurrences].
  - destruct (startswith (w ++ v) []) eqn:H; [apply startswith_app_l in H; rewrite H|]; lia.
  - destruct (startswith (w ++ v) (c :: s)) eqn:H; [apply startswith_app_l in H; rewrite H|]; lia.
Qed.

Lemma occurrences_tl w s : (occurrences w (tl s) <= occurrences w s)%nat.
Proof. destruct s as [|c s]; cbn [tl occurrences]; lia. Qed.

Lemma occurrences_shift x w s : (occurrences (x :: w) s <= occurrences w (tl s))%nat.
Proof.
  induction s as [|c s IH]; [cbn; lia|].
  cbn [tl]. change (occurrences (x :: w) (c :: s))
    with ((if startswith (x :: w) (c :: s) then 1 else 0) + occurrences (x :: w) s)%nat.
  destruct s as [|d s].
  - cbn [startswith]. destruct w; rewrite ?andb_false_r; cbn; destruct (x =? c); cbn; lia.
  - cbn [tl] in IH.
    change (occurrences w (d :: s))
      with ((if startswith w (d :: s) then 1 else 0) + occurrences w s)%nat.
    cbn [startswith]. destruct (x =? c); cbn [andb]; [|lia].
    destruct (startswith w (d :: s)); lia.
Qed.

Section Vote.
Variable E : Env.

(** The Portuguese tally counts the letters o, a and e, which [the], [and]
    and [of] contain: a text is found English only if [to] and [in] occur
    in it more often than [de] and [que]. *)
Theorem english_needs_to_or_in text :
  detect_language E text = English ->
  let t := lower E text in
  (count (lit "de") t + count (lit "que") t < count (lit "to") t + count (lit "in") t)%nat.
Proof.
  unfold detect_language. rewrite indicators_pt, indicators_en.
  destruct (_ <? _)%nat eqn:H1; [discriminate|].
  destruct (occurrences_of pt_words (lower E text) <? _)%nat eqn:H2; [|discriminate].
  intros _. cbv zeta. apply Nat.ltb_lt in H2.
  rewrite !count_occurrences by (discriminate || reflexivity).
  generalize dependent (lower E text). intros t _ H.
  unfold occurrences_of, pt_words, en_words, sum in H. cbn [map fold_right] in H.
  pose proof (occurrences_prefix (lit "a") (lit "nd") t) as Ha.
  pose proof (occurrences_prefix (lit "o") (lit "f") t) as Ho.
  pose proof (occurrences_shift 116 (lit "he") t) as He1.
  pose proof (occurrences_shift 104 (lit "e") (tl t)) as He2.
  pose proof (occurrences_tl (lit "e") (tl t)) as He3.
  pose proof (occurrences_tl (lit "e") t) as He4.
  change (lit "a" ++ lit "nd") with (lit "and") in Ha.
  change (lit "o" ++ lit "f") with (lit "of") in Ho.
  change (116 :: lit "he") with (lit "the") in He1.
  change (104 :: lit "e") with (lit "he") in He2.
  lia.
Qed.
End Vote.

(** An English page that the detector accepts. *)
Lemma english_needs_to_or_in_witness :
  (count (lit "de") (lower world_pt rules_page) +
   count (lit "que") (lower world_pt rules_page) <
   count (lit "to") (lower world_pt rules_page) +
   count (lit "in") (lower world_pt rules_page))%nat.
Proof.
  apply (english_needs_to_or_in world_pt rules_page). vm_compute. reflexivity.
Defined.

(** ** What a pattern can match *)

Section RunFacts.
Variable w : char -> bool.
Context {R : Type}.

Lemma run_inv r : forall prev s cs (k : option char -> str -> Re.caps -> option R) x,
  Re.run w r prev s cs k = Some x ->
  exists u s' prev' cs',
    s = u ++ s' /\ k prev' s' cs' = Some x /\ (nullable r = false -> u <> []).
Proof.
  induction r as [|p|a IHa b IHb|a IHa b IHb|p| |i a IHa]; intros prev s cs k x H;
    cbn [Re.run nullable] in *.
  - exists [], s, prev, cs. repeat split; auto. discriminate.
  - destruct s as [|c s]; [discriminate|]. destruct (p c); [|discriminate].
    exists [c], s, (Some c), cs. repeat split; auto. discriminate.
  - apply IHa in H as (u1 & s1 & p1 & c1 & -> & H & Hn1).
    apply IHb in H as (u2 & s2 & p2 & c2 & -> & H & Hn2).
    exists (u1 ++ u2), s2, p2, c2. rewrite app_assoc. repeat split; auto.
    intros Hn Hu. apply app_eq_nil in Hu as [-> ->].
    apply andb_false_iff in Hn as [Hn|Hn]; [apply Hn1 in Hn|apply Hn2 in Hn]; congruence.
  - destruct (Re.run w a prev s cs k) eqn:Ha.
    + injection H as ->. apply IHa in Ha as (u & s' & p' & c' & -> & H & Hn).
      exists u, s', p', c'. repeat split; auto.
      intros Hf. apply orb_false_iff in Hf as [Hf _]. auto.
    + apply IHb in H as (u & s' & p' & c' & -> & H & Hn).
      exists u, s', p', c'. repeat split; auto.
      intros Hf. apply orb_false_iff in Hf as [_ Hf]. auto.
  - apply star_inv in H as (u & s' & -> & _ & H).
    exists u, s', (last_char prev u), cs. repeat split; auto. discriminate.
  - destruct (xorb _ _); [|discriminate].
    exists [], s, prev, cs. repeat split; auto. discriminate.
  - apply IHa in H as (u & s' & p' & c' & -> & H & Hn).
    exists u, s', p'. eexists. repeat split; eauto.
Qed.
End RunFacts.

Section Matches.
Variable E : Env.

Lemma match_here_inv r prev s rest cs :
  Re.match_here (is_word E) r prev s = Some (rest, cs) ->
  exists u, s = u ++ rest /\ (nullable r = false -> u <> []).
Proof.
  unfold Re.match_here. intros H.
  apply run_inv in H as (u & s' & p' & c' & -> & H & Hn).
  injection H as <- _. eauto.
Qed.

Lemma findall_nonempty r : nullable r = false ->
  forall s prev skip x, In x (Re.findall_from (is_word E) r prev s skip) -> x <> [].
Proof.
  intros Hr. induction s as [|c s IH]; intros prev skip x H; cbn [Re.findall_from] in H.
  - destruct skip; [|contradiction].
    destruct (Re.match_here (is_word E) r prev []) as [[rest cs]|] eqn:Hm; [|contradiction].
    apply match_here_inv in Hm as (u & Hu & Hn).
    symmetry in Hu. apply app_eq_nil in Hu as [-> _]. exfalso. apply (Hn Hr). reflexivity.
  - destruct skip as [|n]; [|eapply IH; eauto].
    destruct (Re.match_here (is_word E) r prev (c :: s)) as [[rest cs]|] eqn:Hm;
      [|eapply IH; eauto].
    cbv zeta in H. destruct H as [<-|H]; [|eapply IH; eauto].
    apply match_here_inv in Hm as (u & Hu & Hn). rewrite Hu.
    rewrite firstn_length_app. apply Hn, Hr.
Qed.

Lemma findall_chr_all p s : forall prev,
  Re.findall_from (is_word E) (Re.Chr p) prev s 0 = map (fun c => [c]) (filter p s).
Proof.
  induction s as [|c s IH]; intros prev; [reflexivity|].
  cbn [Re.findall_from filter]. unfold Re.match_here. cbn [Re.run].
  destruct (p c); [|apply IH].
  cbv zeta. rewrite firstn_one.
  replace (length (c :: s) - length s)%nat with 1%nat by (cbn [length]; lia).
  cbn [Nat.pred map]. f_equal. apply IH.
Qed.

Lemma contains_pair_In a b s : contains [a; b] s = true -> In b s.
Proof.
  induction s as [|c s IH]; intros H; [discriminate|].
  cbn [contains] in H. apply orb_true_iff in H as [H|H].
  - cbn [startswith] in H. destruct s as [|d s]; [rewrite andb_false_r in H; discriminate|].
    apply andb_true_iff in H as [_ H]. apply andb_true_iff in H as [H _].
    apply Z.eqb_eq in H. subst d. right; left; reflexivity.
  - right. apply IH, H.
Qed.

Lemma findall_en_errors_complete s : forall prev skip,
  contains euro_pair (skipn skip s) = true ->
  Re.findall_from (is_word E) en_errors_re prev s skip <> [].
Proof.
  induction s as [|c s IH]; intros prev skip H.
  - destruct skip; discriminate.
  - cbn [Re.findall_from]. destruct skip as [|n]; [|apply IH; exact H].
    rewrite match_here_en_errors. cbn [skipn] in H.
    destruct (startswith euro_pair (c :: s)) eqn:Hs; [discriminate|].
    apply IH. cbn [contains] in H. rewrite Hs in H. exact H.
Qed.

End Matches.

Lemma keys_counter_add_new k c : In k (keys (counter_add k c)).
Proof.
  unfold keys. induction c as [|[k' n] c IH]; cbn; [auto|].
  destruct (str_eqb k k') eqn:H; cbn; [|auto].
  left. symmetry. apply str_eqb_eq, H.
Qed.

Lemma keys_counter_update_new items : forall c k,
  In k items -> In k (keys (counter_update items c)).
Proof.
  unfold counter_update. induction items as [|i items IH]; intros c k H; [destruct H|].
  cbn [fold_left]. destruct H as [<-|H]; [|apply IH, H].
  apply (keys_counter_update items). apply keys_counter_add_new.
Qed.

Lemma keys_dict_set_new k v d : In k (keys (dict_set k v d)).
Proof.
  unfold keys. induction d as [|[k' v'] d IH]; cbn; [auto|].
  destruct (str_eqb k k') eqn:H; cbn; [|auto].
  left. symmetry. apply str_eqb_eq, H.
Qed.

Lemma keys_dict_set_inv k v d x : In x (keys (dict_set k v d)) -> x = k \/ In x (keys d).
Proof.
  unfold keys. induction d as [|[k' v'] d IH]; cbn.
  - intros [H|[]]; auto.
  - destruct (str_eqb k k'); cbn; intros [H|H]; auto.
    apply IH in H as [H|H]; auto.
Qed.

Lemma dict_get_In k d v : dict_get k d = Some v -> In (k, v) d.
Proof.
  induction d as [|[k' v'] d IH]; cbn; [discriminate|].
  destruct (str_eqb k k') eqn:H.
  - intros [= ->]. left. f_equal. symmetry. apply str_eqb_eq, H.
  - intros Hg. right. apply IH, Hg.
Qed.

Lemma common_fixes_sound k v : In (k, v) common_fixes -> v <> [] /\ k <> v.
Proof.
  intros H.
  assert (Hb : forallb (fun kv => negb (is_empty (snd kv)) && negb (str_eqb (fst kv) (snd kv)))
                 common_fixes = true) by reflexivity.
  rewrite forallb_forall in Hb. apply Hb in H. cbn [fst snd] in H.
  apply andb_true_iff in H as [H1 H2]. split.
  - intros ->. discriminate.
  - intros ->. rewrite str_eqb_refl in H2. discriminate.
Qed.

Section Invariants.
Variable E : Env.

Lemma resolve_sound cm error :
  error <> [] -> Forall sound_entry cm -> Forall sound_entry (resolve E cm error).
Proof.
  intros He Hcm. unfold resolve.
  destruct (dict_get error common_fixes) as [known|] eqn:Hg.
  - apply dict_get_In, common_fixes_sound in Hg as [H1 H2].
    apply dict_set_Forall; [exact Hcm|]. intros k' <-. repeat split; assumption.
  - destruct (negb (str_eqb (unidecode E error) error) && _) eqn:Hc; [|exact Hcm].
    apply andb_true_iff in Hc as [H1 H2]. apply negb_true_iff in H1.
    apply Nat.ltb_lt in H2.
    apply dict_set_Forall; [exact Hcm|]. intros k' <-. repeat split; cbn [fst snd].
    + exact He.
    + intros H. rewrite H in H2. cbn in H2. lia.
    + intros H. rewrite <- H, str_eqb_refl in H1. discriminate.
Qed.

Lemma fold_resolve_sound ks : forall cm,
  Forall (fun k => k <> []) ks -> Forall sound_entry cm ->
  Forall sound_entry (fold_left (resolve E) ks cm).
Proof.
  induction ks as [|k ks IH]; intros cm Hks Hcm; [exact Hcm|].
  inversion Hks; subst. cbn [fold_left]. apply IH; [assumption|].
  apply resolve_sound; assumption.
Qed.

Lemma keys_resolve_inv cm error x :
  In x (keys (resolve E cm error)) -> x = error \/ In x (keys cm).
Proof.
  unfold resolve. destruct (dict_get error common_fixes).
  - apply keys_dict_set_inv.
  - destruct (_ && _); [apply keys_dict_set_inv|auto].
Qed.

Lemma keys_fold_resolve_inv ks : forall cm x,
  In x (keys (fold_left (resolve E) ks cm)) -> In x ks \/ In x (keys cm).
Proof.
  induction ks as [|k ks IH]; intros cm x H; [auto|].
  cbn [fold_left] in H. apply IH in H as [H|H]; [left; right; exact H|].
  apply keys_resolve_inv in H as [->|H]; [left; left; reflexivity|auto].
Qed.

Lemma counter_update_nonempty items c :
  Forall (fun k => k <> []) items -> Forall (fun k => k <> []) (keys c) ->
  Forall (fun k : str => k <> []) (keys (counter_update items c)).
Proof.
  intros Hi Hc. destruct (counter_update_keys items c) as (extra & -> & Hx).
  apply Forall_app. split; [exact Hc|].
  rewrite Forall_forall in *. intros k Hk. apply Hi, Hx, Hk.
Qed.

Lemma collect_patterns_nonempty l text c :
  Forall (fun k => k <> []) (keys c) ->
  Forall (fun k : str => k <> []) (keys (collect_patterns E l text c)).
Proof.
  intros Hc. unfold collect_patterns.
  assert (H1 : Forall (fun k : str => k <> [])
                 (keys (counter_update (findall E (invalid_re E) text) c))).
  { apply counter_update_nonempty; [|exact Hc]. apply Forall_forall. intros k Hk.
    apply findall_chr in Hk as (x & -> & _). discriminate. }
  apply counter_update_nonempty.
  - apply Forall_forall. intros k Hk. apply repeat_spec in Hk. subst k. discriminate.
  - destruct l; try exact H1; (apply counter_update_nonempty; [|exact H1]);
      apply Forall_forall; intros k Hk.
    + revert Hk. apply findall_nonempty. reflexivity.
    + apply findall_en_errors in Hk. subst k. discriminate.
Qed.

(** [analyze_errors] keeps the correction map sound: when no recorded
    pattern is empty and every entry replaces a non-empty text by another
    non-empty text, the same holds afterwards.  Every key of the map was
    there before or is a recorded pattern, and the detected encoding is
    never missing or empty. *)
Theorem analyze_errors_keeps_the_map_sound st text :
  Forall (fun k => k <> []) (keys (error_patterns st)) ->
  Forall sound_entry (correction_map st) ->
  let st' := analyze_errors E st text in
  Forall (fun k => k <> []) (keys (error_patterns st')) /\
  Forall sound_entry (correction_map st') /\
  (forall k, In k (keys (correction_map st')) ->
             In k (keys (correction_map st)) \/ In k (keys (error_patterns st'))) /\
  (exists e, detected_encoding st' = Some e /\ e <> []).
Proof.
  intros Hk Hm. cbv zeta. unfold analyze_errors.
  cbn [correction_map set_correction_map set_error_patterns set_detected_encoding
       error_patterns language detected_encoding].
  pose proof (collect_patterns_nonempty (language st) text (error_patterns st) Hk) as Hc.
  split; [exact Hc|]. split; [|split].
  - apply fold_resolve_sound; assumption.
  - intros k H. apply keys_fold_resolve_inv in H as [H|H]; auto.
  - unfold or_default. destruct (chardet_detect E _) as [[|c e]|]; cbn [is_empty];
      eexists; (split; [reflexivity|discriminate]).
Qed.
End Invariants.

(** A new processor and an English page. *)
Lemma analyze_errors_keeps_the_map_sound_witness :
  Forall (fun k => k <> []) (keys (error_patterns (analyze_errors world_en init inn_page))) /\
  Forall sound_entry (correction_map (analyze_errors world_en init inn_page)) /\
  (forall k, In k (keys (correction_map (analyze_errors world_en init inn_page))) ->
             In k (keys (correction_map init)) \/
             In k (keys (error_patterns (analyze_errors world_en init inn_page)))) /\
  (exists e, detected_encoding (analyze_errors world_en init inn_page) = Some e /\ e <> []).
Proof.
  apply (analyze_errors_keeps_the_map_sound world_en init inn_page); constructor.
Defined.

Lemma dict_get_app_absent k d1 d2 :
  Forall (fun kv => str_eqb k (fst kv) = false) d1 ->
  dict_get k (d1 ++ d2) = dict_get k d2.
Proof.
  induction 1 as [|[k' v'] d1 Hx Hd IH]; [reflexivity|].
  cbn in *. rewrite Hx. exact IH.
Qed.

(** ** The repair of English mojibake *)

Lemma without_key_absent k d :
  Forall (fun kv => str_eqb k (fst kv) = false) d -> without_key k d = d.
Proof.
  intros H. unfold without_key. apply filter_id.
  rewrite Forall_forall in H. intros x Hx. rewrite (H x Hx). reflexivity.
Qed.

Lemma without_key_app k d1 d2 :
  without_key k (d1 ++ d2) = without_key k d1 ++ without_key k d2.
Proof. unfold without_key. apply filter_app. Qed.

Section Mojibake.
Variable E : Env.
Hypothesis unidecode_ascii : forall s, isascii (unidecode E s) = true.
Hypothesis unidecode_id : forall s, isascii s = true -> unidecode E s = s.
Hypothesis euro_not_alnum : alnum_hi (udb E) 0x20AC = false.
Hypothesis euro_transliterated : unidecode E [0x20AC] <> [].

Lemma euro_is_invalid : invalid_char E 0x20AC = true.
Proof.
  unfold invalid_char. rewrite (euro_not_word E euro_not_alnum). reflexivity.
Qed.

Lemma resolve_euro cm : In [0x20AC] (keys (resolve E cm [0x20AC])).
Proof.
  unfold resolve. rewrite dict_get_single.
  assert (H1 : str_eqb (unidecode E [0x20AC]) [0x20AC] = false).
  { destruct (str_eqb _ _) eqn:H; [|reflexivity].
    apply str_eqb_eq in H. pose proof (unidecode_ascii [0x20AC]) as Ha.
    rewrite H in Ha. discriminate. }
  assert (H2 : (0 <? length (unidecode E [0x20AC%Z]))%nat = true).
  { apply Nat.ltb_lt. destruct (unidecode E [0x20AC]); [contradiction|cbn; lia]. }
  rewrite H1, H2. cbn [negb andb]. apply keys_dict_set_new.
Qed.

Lemma fold_resolve_euro ks : forall cm,
  In [0x20AC] ks -> In [0x20AC] (keys (fold_left (resolve E) ks cm)).
Proof.
  induction ks as [|k ks IH]; intros cm H; [destruct H|].
  cbn [fold_left]. destruct H as [->|H]; [|apply IH, H].
  apply keys_fold_resolve, resolve_euro.
Qed.

Lemma resolve_pair_exact singles tail :
  Forall single_fix singles -> pair_tail tail ->
  resolve E (singles ++ tail) euro_pair = singles ++ [(euro_pair, [0x22])].
Proof.
  intros Hs Ht. unfold resolve.
  change (dict_get euro_pair common_fixes) with (Some [0x22]). cbv iota beta.
  rewrite dict_set_app_absent by (apply single_fix_not_pair, Hs).
  destruct Ht as [->| ->]; reflexivity.
Qed.

Lemma fold_resolve_pairs_exact ks : forall singles tail,
  ks <> [] -> Forall (eq euro_pair) ks -> Forall single_fix singles -> pair_tail tail ->
  fold_left (resolve E) ks (singles ++ tail) = singles ++ [(euro_pair, [0x22])].
Proof.
  induction ks as [|k ks IH]; intros singles tail Hne Hks Hs Ht; [congruence|].
  inversion Hks as [|? ? Hk Hks']; subst. cbn [fold_left].
  rewrite (resolve_pair_exact singles tail Hs Ht).
  destruct ks as [|k' ks]; [reflexivity|].
  apply IH; auto; [discriminate|right; reflexivity].
Qed.

Lemma english_map_shape T :
  contains euro_pair T = true ->
  exists singles,
    correction_map (analyze_errors E (set_language English init) T) =
      singles ++ [(euro_pair, [0x22])] /\
    Forall single_fix singles /\ In [0x20AC] (keys singles).
Proof.
  intros Hc. unfold analyze_errors.
  cbn [correction_map set_correction_map set_error_patterns set_detected_encoding
       set_language error_patterns language init].
  change (map fst ?c) with (keys c). unfold collect_patterns.
  set (c1 := counter_update (findall E (invalid_re E) T) []).
  set (c2 := counter_update (findall E en_errors_re T) c1).
  destruct (counter_update_keys
              (repeat (lit "hyphenated_word") (length (findall E (hyphenated_re E) T))) c2)
    as (e3 & -> & He3).
  destruct (counter_update_keys (findall E en_errors_re T) c1) as (e2 & He2k & He2).
  fold c2 in He2k. rewrite He2k.
  destruct (counter_update_keys (findall E (invalid_re E) T) []) as (e1 & He1k & He1).
  fold c1 in He1k. rewrite He1k. cbn [keys map app] in *.
  assert (Hsingle : Forall (fun k => exists c : char, k = [c]) e1).
  { eapply Forall_impl; [|exact He1]. intros k Hk.
    apply findall_chr in Hk as (c & -> & _). eauto. }
  assert (Hpairs : Forall (eq euro_pair) e2).
  { eapply Forall_impl; [|exact He2]. intros k Hk. symmetry.
    eapply findall_en_errors, Hk. }
  assert (Heuro : In [0x20AC] e1).
  { rewrite <- He1k. unfold c1.
    apply keys_counter_update_new. unfold findall, Re.findall, invalid_re.
    rewrite findall_chr_all. apply in_map_iff. exists 0x20AC. split; [reflexivity|].
    apply filter_In. split; [|apply euro_is_invalid].
    apply (contains_pair_In 0xE2), Hc. }
  assert (He2ne : e2 <> []).
  { intros ->. rewrite app_nil_r in He2k.
    assert (Hin : In euro_pair (keys c2)).
    { unfold c2. apply keys_counter_update_new.
      pose proof (findall_en_errors_complete E T None 0%nat Hc) as Hne.
      unfold findall, Re.findall.
      destruct (Re.findall_from (is_word E) en_errors_re None T 0) as [|x l] eqn:Hf;
        [congruence|].
      assert (Hx : x = euro_pair).
      { apply (findall_en_errors E T None 0%nat). rewrite Hf. left; reflexivity. }
      subst x. left; reflexivity. }
    rewrite He2k, He1k in Hin.
    rewrite Forall_forall in Hsingle. apply Hsingle in Hin as (c & Hc'). discriminate. }
  rewrite !fold_left_app.
  assert (Hs : Forall single_fix (fold_left (resolve E) e1 [])).
  { apply (fold_resolve_singles E unidecode_ascii unidecode_id); [exact Hsingle|constructor]. }
  pose proof (fold_resolve_pairs_exact e2 (fold_left (resolve E) e1 []) [] He2ne Hpairs Hs
                (or_introl eq_refl)) as Ht.
  rewrite app_nil_r in Ht. rewrite Ht.
  rewrite (fold_resolve_sentinels E unidecode_id).
  - eexists. split; [reflexivity|]. split; [exact Hs|]. apply fold_resolve_euro, Heuro.
  - eapply Forall_impl; [|exact He3]. intros k Hk. apply repeat_spec in Hk. auto.
Qed.

(** On a new processor and an English text with the mojibake pair
    U+00E2 U+20AC, [analyze_errors] records the repair of the pair and
    [auto_correct] never applies it.  The euro sign is one of the invalid
    characters, which come first in the map: it is transliterated before
    the pair is looked for, and no pair is left.  The hypotheses are the
    contract of unidecode (ASCII out, ASCII text unchanged, something for
    the euro sign) and that the euro sign is not a letter or a digit. *)
Theorem english_quote_repair_never_applies T :
  contains euro_pair T = true ->
  let st := analyze_errors E (set_language English init) T in
  dict_get euro_pair (correction_map st) = Some [0x22] /\
  forall text,
    auto_correct E st text =
    auto_correct E (set_correction_map (without_key euro_pair (correction_map st)) st) text.
Proof.
  intros Hc. cbv zeta.
  destruct (english_map_shape T Hc) as (singles & Hmap & Hs & Heuro).
  pose proof (single_fix_not_pair singles Hs) as Hnp.
  split.
  - rewrite Hmap, dict_get_app_absent by exact Hnp. cbn. reflexivity.
  - intros text.
    assert (Hl : language (analyze_errors E (set_language English init) T) <> Portuguese)
      by (cbn; discriminate).
    rewrite !auto_correct_outside_portuguese by exact Hl.
    cbn [correction_map set_correction_map]. rewrite Hmap.
    f_equal.
    replace (without_key euro_pair (singles ++ [(euro_pair, [0x22])])) with singles.
    2:{ rewrite without_key_app, without_key_absent by exact Hnp.
        rewrite <- (app_nil_r singles) at 1. reflexivity. }
    rewrite apply_corrections_app.
    unfold apply_corrections at 1. cbn [fold_left fst snd].
    apply replace_absent; [discriminate|].
    destruct (contains euro_pair (apply_corrections singles (drop_surrogates text))) eqn:Hp;
      [|reflexivity].
    apply contains_pair_In in Hp. exfalso. revert Hp.
    unfold keys in Heuro. apply in_map_iff in Heuro as (kv & Hk & Hin).
    apply (apply_singles_gone singles _ kv 0x20AC Hs Hin Hk).
Qed.
End Mojibake.

(** The English page, with unidecode writing EUR for the euro sign. *)
Lemma english_quote_repair_never_applies_witness :
  dict_get euro_pair
    (correction_map (analyze_errors world_en (set_language English init) inn_page)) =
    Some [0x22] /\
  forall text,
    auto_correct world_en (analyze_errors world_en (set_language English init) inn_page) text =
    auto_correct world_en
      (set_correction_map
         (without_key euro_pair
            (correction_map (analyze_errors world_en (set_language English init) inn_page)))
         (analyze_errors world_en (set_language English init) inn_page)) text.
Proof.
  apply (english_quote_repair_never_applies world_en
           transliterate_ascii transliterate_id eq_refl).
  - discriminate.
  - reflexivity.
Defined.

(** ** The table of known fixes *)

Lemma mem_In c l : mem c l = true <-> In c l.
Proof.
  induction l as [|d l IH]; cbn; [split; [discriminate|contradiction]|].
  rewrite orb_true_iff, IH, Z.eqb_eq. split; intros [H|H]; auto.
Qed.

Section Table.
Variable E : Env.

Lemma run_Lit_inv {R} l : forall prev s cs (k : option char -> str -> Re.caps -> option R) x,
  l <> [] ->
  Re.run (is_word E) (Re.Lit l) prev s cs k = Some x ->
  exists s' prev', s = l ++ s' /\ k prev' s' cs = Some x.
Proof.
  induction l as [|c l IH]; intros prev s cs k x Hne H; [congruence|].
  destruct l as [|d l].
  - cbn [Re.Lit] in H. unfold Re.Lit1 in H. cbn [Re.run] in H.
    destruct s as [|e s]; [discriminate|].
    destruct (c =? e) eqn:Hc; [|discriminate]. apply Z.eqb_eq in Hc. subst e.
    exists s, (Some c). auto.
  - change (Re.Lit (c :: d :: l)) with (Re.Seq (Re.Lit1 c) (Re.Lit (d :: l))) in H.
    unfold Re.Lit1 in H. cbn [Re.run] in H.
    destruct s as [|e s]; [discriminate|].
    destruct (c =? e) eqn:Hc; [|discriminate]. apply Z.eqb_eq in Hc. subst e.
    apply IH in H as (s' & prev' & -> & H); [|discriminate].
    exists s', prev'. auto.
Qed.

Lemma match_here_pt_errors prev s rest cs :
  Re.match_here (is_word E) pt_errors_re prev s = Some (rest, cs) ->
  exists k, s = k ++ rest /\
    ((exists x, k = [0xC3; x] /\ mem x pt_second = true) \/ In k garbled_words).
Proof.
  unfold Re.match_here, pt_errors_re, Alts. cbn [Re.run]. intros H.
  match type of H with
  | match ?a with Some _ => _ | None => _ end = _ => destruct a as [y|] eqn:H1
  end.
  - injection H as ->. unfold Re.Lit1 in H1. cbn [Re.run] in H1.
    destruct s as [|c s]; [discriminate|].
    destruct (195 =? c) eqn:Hc; [|discriminate]. apply Z.eqb_eq in Hc. subst c.
    destruct s as [|x s]; [discriminate|].
    match type of H1 with
    | (if ?b then _ else _) = _ => destruct b eqn:Hx; [|discriminate]
    end.
    injection H1 as <- _. exists [0xC3; x]. split; [reflexivity|]. left. eauto.
  - match type of H with
    | match ?a with Some _ => _ | None => _ end = _ => destruct a as [y|] eqn:H2
    end.
    + injection H as ->. apply run_Lit_inv in H2 as (s' & p' & -> & H2); [|discriminate].
      injection H2 as <- _. eexists. split; [reflexivity|]. right. left. reflexivity.
    + match type of H with
      | match ?a with Some _ => _ | None => _ end = _ => destruct a as [y|] eqn:H3
      end.
      * injection H as ->. apply run_Lit_inv in H3 as (s' & p' & -> & H3); [|discriminate].
        injection H3 as <- _. eexists. split; [reflexivity|]. right. right. left. reflexivity.
      * apply run_Lit_inv in H as (s' & p' & -> & H); [|discriminate].
        injection H as <- _. eexists. split; [reflexivity|].
        right. right. right. left. reflexivity.
Qed.

Lemma findall_pt_errors s : forall prev skip x,
  In x (Re.findall_from (is_word E) pt_errors_re prev s skip) -> recordable x = true.
Proof.
  induction s as [|c s IH]; intros prev skip x H; cbn [Re.findall_from] in H.
  - destruct skip; [|contradiction].
    destruct (Re.match_here (is_word E) pt_errors_re prev []) as [[rest cs]|] eqn:Hm;
      [|contradiction].
    apply match_here_pt_errors in Hm as (k & Hk & Hcase).
    symmetry in Hk. apply app_eq_nil in Hk as [-> _].
    destruct Hcase as [(y & Hy & _)|Hin]; [discriminate|].
    cbn in Hin. intuition discriminate.
  - destruct skip as [|n]; [|eapply IH; eauto].
    destruct (Re.match_here (is_word E) pt_errors_re prev (c :: s)) as [[rest cs]|] eqn:Hm;
      [|eapply IH; eauto].
    cbv zeta in H. destruct H as [<-|H]; [|eapply IH; eauto].
    apply match_here_pt_errors in Hm as (k & Hk & Hcase). rewrite Hk.
    rewrite firstn_length_app.
    destruct Hcase as [(y & -> & Hy)|Hin].
    + cbn [recordable]. rewrite Z.eqb_refl, Hy. reflexivity.
    + cbn in Hin. destruct Hin as [<-|[<-|[<-|[]]]]; reflexivity.
Qed.

Lemma counter_update_recordable items c :
  Forall (fun k => recordable k = true) items ->
  Forall (fun k => recordable k = true) (keys c) ->
  Forall (fun k => recordable k = true) (keys (counter_update items c)).
Proof.
  intros Hi Hc. destruct (counter_update_keys items c) as (extra & -> & Hx).
  apply Forall_app. split; [exact Hc|].
  rewrite Forall_forall in *. intros k Hk. apply Hi, Hx, Hk.
Qed.

Lemma collect_patterns_recordable l text c :
  Forall (fun k => recordable k = true) (keys c) ->
  Forall (fun k => recordable k = true) (keys (collect_patterns E l text c)).
Proof.
  intros Hc. unfold collect_patterns.
  assert (H1 : Forall (fun k => recordable k = true)
                 (keys (counter_update (findall E (invalid_re E) text) c))).
  { apply counter_update_recordable; [|exact Hc]. apply Forall_forall. intros k Hk.
    apply findall_chr in Hk as (x & -> & _). reflexivity. }
  apply counter_update_recordable.
  - apply Forall_forall. intros k Hk. apply repeat_spec in Hk. subst k. reflexivity.
  - destruct l; try exact H1; (apply counter_update_recordable; [|exact H1]);
      apply Forall_forall; intros k Hk.
    + revert Hk. apply findall_pt_errors.
    + apply findall_en_errors in Hk. subst k. reflexivity.
Qed.

Lemma recordable_known k :
  recordable k = true -> dict_get k common_fixes <> None -> In k reachable_fixes.
Proof.
  intros Hr Hg. destruct k as [|a [|x [|y k]]].
  - exfalso. apply Hg. reflexivity.
  - exfalso. apply Hg. apply dict_get_single.
  - cbn [recordable] in Hr. apply orb_true_iff in Hr as [Hr|Hr].
    + apply andb_true_iff in Hr as [Ha Hx]. apply Z.eqb_eq in Ha. subst a.
      exfalso. apply Hg. apply mem_In in Hx. cbn in Hx.
      repeat (destruct Hx as [<-|Hx]; [reflexivity|]). destruct Hx.
    + apply str_eqb_eq in Hr. rewrite Hr. right. right. right. left. reflexivity.
  - cbn [recordable] in Hr. apply orb_true_iff in Hr as [Hr|Hr].
    + cbn [existsb garbled_words] in Hr.
      repeat (apply orb_true_iff in Hr as [Hr|Hr];
              [apply str_eqb_eq in Hr; rewrite Hr; cbn; tauto|]).
      discriminate.
    + apply str_eqb_eq in Hr. exfalso. apply Hg. rewrite Hr. reflexivity.
Qed.

(** Whatever [analyze_errors] records is one character, U+00C3 followed by
    an accented letter, one of three garbled words, the mojibake pair or
    the name for broken words.  So of the eighteen entries of the table of
    known fixes only four can be looked up: the eleven entries for U+00C3
    followed by a symbol, which is how UTF-8 read as Latin-1 looks, and
    the three entries for three-character mojibake are out of reach. *)
Theorem known_fixes_within_reach st text :
  Forall (fun k => recordable k = true) (keys (error_patterns st)) ->
  let st' := analyze_errors E st text in
  Forall (fun k => recordable k = true) (keys (error_patterns st')) /\
  (forall k, In k (keys (error_patterns st')) ->
             dict_get k common_fixes <> None -> In k reachable_fixes) /\
  (length reachable_fixes = 4 /\ length common_fixes = 18)%nat.
Proof.
  intros H. cbv zeta.
  assert (Hr : Forall (fun k => recordable k = true)
                 (keys (error_patterns (analyze_errors E st text)))).
  { unfold analyze_errors.
    cbn [error_patterns set_correction_map set_error_patterns set_detected_encoding language].
    apply collect_patterns_recordable, H. }
  split; [exact Hr|]. split; [|split; reflexivity].
  intros k Hk. apply recordable_known. rewrite Forall_forall in Hr. apply Hr, Hk.
Qed.
End Table.

(** A new processor and a garbled Portuguese page. *)
Lemma known_fixes_within_reach_witness :
  Forall (fun k => recordable k = true)
    (keys (error_patterns (analyze_errors world_pt (set_language Portuguese init)
                             regulamento_garbled))) /\
  (forall k,
     In k (keys (error_patterns (analyze_errors world_pt (set_language Portuguese init)
                                   regulamento_garbled))) ->
     dict_get k common_fixes <> None -> In k reachable_fixes) /\
  (length reachable_fixes = 4 /\ length common_fixes = 18)%nat.
Proof.
  apply (known_fixes_within_reach world_pt (set_language Portuguese init) regulamento_garbled).
  constructor.
Defined.

(** ** Invalid characters *)

Section Gone.
Variable E : Env.
Hypothesis unidecode_ascii : forall s, isascii (unidecode E s) = true.
Hypothesis unidecode_id : forall s, isascii s = true -> unidecode E s = s.

Lemma resolve_adds_single cm c :
  128 <= c -> unidecode E [c] <> [] -> In [c] (keys (resolve E cm [c])).
Proof.
  intros Hc Hne. unfold resolve. rewrite dict_get_single.
  assert (H1 : str_eqb (unidecode E [c]) [c] = false).
  { destruct (str_eqb _ _) eqn:H; [|reflexivity].
    apply str_eqb_eq in H. pose proof (unidecode_ascii [c]) as Ha.
    rewrite H in Ha. cbn in Ha. rewrite andb_true_r in Ha. apply Z.ltb_lt in Ha. lia. }
  assert (H2 : (0 <? length (unidecode E [c]))%nat = true).
  { apply Nat.ltb_lt. destruct (unidecode E [c]); [contradiction|cbn; lia]. }
  rewrite H1, H2. cbn [negb andb]. apply keys_dict_set_new.
Qed.

Lemma fold_resolve_adds_single ks c : forall cm,
  128 <= c -> unidecode E [c] <> [] ->
  In [c] ks -> In [c] (keys (fold_left (resolve E) ks cm)).
Proof.
  induction ks as [|k ks IH]; intros cm Hc Hne H; [destruct H|].
  cbn [fold_left]. destruct H as [->|H]; [|apply IH; assumption].
  apply keys_fold_resolve, resolve_adds_single; assumption.
Qed.

Lemma invalid_character_is_recorded l analysed c :
  In c analysed -> invalid_char E c = true ->
  In [c] (keys (error_patterns (analyze_errors E (set_language l init) analysed))).
Proof.
  intros Hin Hinv. unfold analyze_errors.
  cbn [error_patterns set_correction_map set_error_patterns set_detected_encoding
       set_language language init].
  unfold collect_patterns. apply keys_counter_update.
  assert (H1 : In [c] (keys (counter_update (findall E (invalid_re E) analysed) []))).
  { apply keys_counter_update_new. unfold findall, Re.findall, invalid_re.
    rewrite findall_chr_all. apply in_map_iff. exists c. split; [reflexivity|].
    apply filter_In. auto. }
  destruct l; try exact H1; apply keys_counter_update, H1.
Qed.

(** On a new processor and outside Portuguese, a non-ASCII character that
    [analyze_errors] finds invalid and unidecode transliterates occurs in
    no text that [auto_correct] returns.  The hypotheses are the contract
    of unidecode: ASCII out, ASCII text unchanged. *)
Theorem transliterated_characters_are_gone l analysed text c :
  l <> Portuguese ->
  In c analysed -> invalid_char E c = true -> 128 <= c -> unidecode E [c] <> [] ->
  let st := analyze_errors E (set_language l init) analysed in
  mem c (auto_correct E st text) = false.
Proof.
  intros Hl Hin Hinv Hc Hne. cbv zeta.
  destruct (correction_map_shape E unidecode_ascii unidecode_id l analysed Hl)
    as (singles & tail & Hmap & Hs & Ht).
  assert (Hkey : In [c] (keys (correction_map (analyze_errors E (set_language l init) analysed)))).
  { unfold analyze_errors at 1.
    cbn [correction_map set_correction_map set_error_patterns set_detected_encoding
         set_language language init error_patterns].
    apply fold_resolve_adds_single; [exact Hc|exact Hne|].
    apply (invalid_character_is_recorded l analysed c Hin Hinv). }
  assert (Hsingle : In [c] (keys singles)).
  { rewrite Hmap in Hkey. unfold keys in Hkey. rewrite map_app in Hkey.
    apply in_app_or in Hkey as [Hk|Hk]; [exact Hk|].
    destruct Ht as [-> | ->]; cbn in Hk; [contradiction|].
    destruct Hk as [Hk|[]]. discriminate. }
  assert (Hlang : language (analyze_errors E (set_language l init) analysed) <> Portuguese)
    by exact Hl.
  destruct (mem c _) eqn:Hm; [|reflexivity]. exfalso.
  apply mem_In in Hm.
  rewrite (auto_correct_outside_portuguese E _ _ Hlang) in Hm. rewrite Hmap in Hm.
  apply tidy_chars in Hm as [->|[Hm _]]; [lia|].
  rewrite apply_corrections_app in Hm.
  unfold keys in Hsingle. apply in_map_iff in Hsingle as (kv & Hk & Hkv).
  pose proof (apply_singles_gone singles (drop_surrogates text) kv c Hs Hkv Hk) as Hgone.
  destruct Ht as [-> | ->]; [exact (Hgone Hm)|].
  unfold apply_corrections at 1 in Hm. cbn [fold_left fst snd] in Hm.
  apply replace_chars in Hm as [Hm|[<-|[]]]; [exact (Hgone Hm)|lia|discriminate].
Qed.
End Gone.

(** The euro sign of the English page. *)
Lemma transliterated_characters_are_gone_witness :
  mem 0x20AC
    (auto_correct world_en (analyze_errors world_en (set_language English init) inn_page)
       inn_page) = false.
Proof.
  apply (transliterated_characters_are_gone world_en transliterate_ascii transliterate_id
           English inn_page inn_page 0x20AC).
  - discriminate.
  - vm_compute. tauto.
  - reflexivity.
  - lia.
  - discriminate.
Defined.

(** ** Words broken at a line end, and hyphens *)

Section Backtracking.
Context {R : Type}.

Lemma star_none p (k : option char -> str -> option R) : forall s prev,
  Re.star p k prev s = None ->
  forall u s', s = u ++ s' -> forallb p u = true -> k (last_char prev u) s' = None.
Proof.
  induction s as [|c s IH]; intros prev H u s' Hs Hu.
  - symmetry in Hs. apply app_eq_nil in Hs as [-> ->]. exact H.
  - cbn [Re.star] in H. destruct u as [|d u].
    + cbn in Hs. subst s'. change (last_char prev []) with prev.
      destruct (p c); [|exact H].
      destruct (Re.star p k (Some c) s); [discriminate|exact H].
    + cbn [app] in Hs. injection Hs as <- ->. cbn [forallb] in Hu.
      apply andb_true_iff in Hu as [Hc Hu]. rewrite Hc in H.
      destruct (Re.star p k (Some c) (u ++ s')) eqn:Hst; [discriminate|].
      change (last_char prev (c :: u)) with (last_char (Some c) u).
      apply (IH (Some c) Hst u s' eq_refl Hu).
Qed.

Lemma star_unique p (k : option char -> str -> option R) prev s x :
  (forall u s' y, s = u ++ s' -> forallb p u = true ->
     k (last_char prev u) s' = Some y -> y = x) ->
  (exists u s', s = u ++ s' /\ forallb p u = true /\ k (last_char prev u) s' = Some x) ->
  Re.star p k prev s = Some x.
Proof.
  intros Hu (u & s' & Hs & Hp & Hk).
  destruct (Re.star p k prev s) as [y|] eqn:Hst.
  - apply star_inv in Hst as (u' & s'' & Hs' & Hp' & Hk'). f_equal. eapply Hu; eauto.
  - rewrite (star_none _ _ _ _ Hst u s' Hs Hp) in Hk. discriminate.
Qed.

Lemma star_greedy_when p (k : option char -> str -> option R) (I : option char -> Prop) :
  (forall prev c s, I prev -> p c = true -> k prev (c :: s) = None) ->
  (forall c, p c = true -> I (Some c)) ->
  forall s prev, I prev ->
    Re.star p k prev s = k (last_char prev (take_while p s)) (drop_while p s).
Proof.
  intros Hk HI. induction s as [|c s IH]; intros prev Hprev; [reflexivity|].
  cbn [Re.star take_while drop_while]. destruct (p c) eqn:Hc; [|reflexivity].
  rewrite IH by (apply HI, Hc).
  change (last_char prev (c :: take_while p s)) with (last_char (Some c) (take_while p s)).
  destruct (k (last_char (Some c) (take_while p s)) (drop_while p s)) eqn:Hres; [reflexivity|].
  apply Hk; assumption.
Qed.
End Backtracking.

Lemma take_while_app p u d s :
  forallb p u = true -> p d = false -> take_while p (u ++ d :: s) = u.
Proof.
  induction u as [|c u IH]; intros Hu Hd; cbn.
  - rewrite Hd. reflexivity.
  - cbn in Hu. apply andb_true_iff in Hu as [Hc Hu]. rewrite Hc, IH by assumption. reflexivity.
Qed.

Lemma drop_while_app p u d s :
  forallb p u = true -> p d = false -> drop_while p (u ++ d :: s) = d :: s.
Proof.
  induction u as [|c u IH]; intros Hu Hd; cbn.
  - rewrite Hd. reflexivity.
  - cbn in Hu. apply andb_true_iff in Hu as [Hc Hu]. rewrite Hc. apply IH; assumption.
Qed.

Lemma take_while_forall p u : forallb p u = true -> take_while p u = u.
Proof.
  induction u as [|c u IH]; intros Hu; [reflexivity|]. cbn in *.
  apply andb_true_iff in Hu as [Hc Hu]. rewrite Hc, IH by assumption. reflexivity.
Qed.

Lemma drop_while_forall p u : forallb p u = true -> drop_while p u = [].
Proof.
  induction u as [|c u IH]; intros Hu; [reflexivity|]. cbn in *.
  apply andb_true_iff in Hu as [Hc Hu]. rewrite Hc. apply IH, Hu.
Qed.

Section Joined.
Variable E : Env.

Lemma word_at_last u : forall e,
  is_word E e = true -> forallb (is_word E) u = true ->
  Re.word_at (is_word E) (last_char (Some e) u) = true.
Proof.
  induction u as [|d u IH]; intros e He Hu; [exact He|].
  cbn in Hu. apply andb_true_iff in Hu as [Hd Hu].
  change (last_char (Some e) (d :: u)) with (last_char (Some d) u). apply IH; assumption.
Qed.

Lemma hyphen_not_word : is_word E 0x2D = false.
Proof. reflexivity. Qed.

(** The second word of the pattern, read to the end of the text. *)
Lemma run_second_word prev e u2 cs :
  is_word E e = true -> forallb (is_word E) u2 = true ->
  Re.run (is_word E)
    (Re.Seq (Re.Group 2 (Re.Seq (Re.Plus (is_word E)) Re.WordB)) Re.Eps)
    prev (e :: u2) cs (fun _ s' cs' => Some (s', cs')) =
  Some ([], (2%nat, e :: u2) :: cs).
Proof.
  intros He Hu. unfold Re.Plus. cbn [Re.run]. rewrite He.
  rewrite (star_greedy_when (is_word E) _ (fun prev => Re.word_at (is_word E) prev = true)).
  - rewrite take_while_forall, drop_while_forall by exact Hu.
    cbn [hd_error]. rewrite word_at_last by assumption. cbn [Re.word_at xorb].
    rewrite Nat.sub_0_r, firstn_all. reflexivity.
  - intros prev' c s Hprev Hc. cbn [hd_error Re.word_at]. rewrite Hprev, Hc. reflexivity.
  - intros c Hc. exact Hc.
  - exact He.
Qed.

(** White space, then the second word. *)
Lemma run_spaces_second_word prev ws e u2 cs :
  forallb isspace ws = true ->
  is_word E e = true -> forallb (is_word E) u2 = true ->
  Re.run (is_word E)
    (Re.Seq (Re.Star isspace)
       (Re.Seq (Re.Group 2 (Re.Seq (Re.Plus (is_word E)) Re.WordB)) Re.Eps))
    prev (ws ++ e :: u2) cs (fun _ s' cs' => Some (s', cs')) =
  Some ([], (2%nat, e :: u2) :: cs).
Proof.
  intros Hws He Hu.
  change (Re.star isspace
            (fun prev' s' =>
               Re.run (is_word E)
                 (Re.Seq (Re.Group 2 (Re.Seq (Re.Plus (is_word E)) Re.WordB)) Re.Eps)
                 prev' s' cs (fun _ s'' cs' => Some (s'', cs')))
            prev (ws ++ e :: u2) = Some ([], (2%nat, e :: u2) :: cs)).
  rewrite star_greedy.
  - rewrite drop_while_app; [|exact Hws|apply (word_not_space E), He].
    apply run_second_word; assumption.
  - intros p' c s Hc. unfold Re.Plus. cbn [Re.run].
    rewrite (space_not_word E c Hc). reflexivity.
Qed.

(** Splitting a run of white space that ends at a word. *)
Lemma split_spaces (a : str) : forall b ws w2,
  a ++ b = ws ++ w2 -> forallb isspace a = true -> forallb isspace ws = true ->
  (forall e u2, w2 = e :: u2 -> isspace e = false) ->
  exists v, b = v ++ w2 /\ forallb isspace v = true.
Proof.
  induction a as [|c a IH]; intros b ws w2 H Ha Hws Hw.
  - cbn in H. subst b. exists ws. auto.
  - cbn in Ha. apply andb_true_iff in Ha as [Hc Ha].
    destruct ws as [|d ws].
    + cbn in H. destruct w2 as [|e u2]; [discriminate|].
      injection H as <- _. rewrite (Hw c u2 eq_refl) in Hc. discriminate.
    + cbn in H, Hws. injection H as <- H. apply andb_true_iff in Hws as [_ Hws].
      eapply IH; eauto.
Qed.

(** The line break between the two halves, with the white space around it:
    whichever newline the matcher settles on, the second word is read whole. *)
Lemma run_break prev ws1 ws2 e u2 cs :
  forallb isspace ws1 = true -> forallb isspace ws2 = true ->
  is_word E e = true -> forallb (is_word E) u2 = true ->
  Re.run (is_word E)
    (Re.Seq (Re.Star isspace)
       (Re.Seq (Re.Lit1 0x0A)
          (Re.Seq (Re.Star isspace)
             (Re.Seq (Re.Group 2 (Re.Seq (Re.Plus (is_word E)) Re.WordB)) Re.Eps))))
    prev (ws1 ++ 0x0A :: ws2 ++ e :: u2) cs (fun _ s' cs' => Some (s', cs')) =
  Some ([], (2%nat, e :: u2) :: cs).
Proof.
  intros H1 H2 He Hu.
  set (tail := Re.Seq (Re.Star isspace)
                 (Re.Seq (Re.Group 2 (Re.Seq (Re.Plus (is_word E)) Re.WordB)) Re.Eps)).
  change (Re.star isspace
            (fun prev' s' =>
               Re.run (is_word E) (Re.Seq (Re.Lit1 0x0A) tail)
                 prev' s' cs (fun _ s'' cs' => Some (s'', cs')))
            prev (ws1 ++ 0x0A :: ws2 ++ e :: u2) = Some ([], (2%nat, e :: u2) :: cs)).
  assert (Hnl : forall p s,
            Re.run (is_word E) (Re.Seq (Re.Lit1 0x0A) tail) p (0x0A :: s) cs
              (fun _ s'' cs' => Some (s'', cs')) =
            Re.run (is_word E) tail (Some 0x0A) s cs (fun _ s'' cs' => Some (s'', cs'))).
  { intros p s. reflexivity. }
  apply star_unique.
  - intros u s' y Hs Hsp Hy.
    destruct s' as [|d s'']; [discriminate|].
    destruct (0x0A =? d) eqn:Hd.
    2:{ unfold Re.Lit1 in Hy. cbn [Re.run] in Hy. rewrite Hd in Hy. discriminate. }
    apply Z.eqb_eq in Hd. subst d. rewrite Hnl in Hy.
    destruct (split_spaces (u ++ [0x0A]) s'' (ws1 ++ 0x0A :: ws2) (e :: u2)) as (v & -> & Hv).
    + rewrite <- !app_assoc. cbn [app]. symmetry. exact Hs.
    + rewrite forallb_app, Hsp. reflexivity.
    + rewrite forallb_app, H1. cbn [forallb]. rewrite H2. reflexivity.
    + intros e' u2' [= <- <-]. apply (word_not_space E), He.
    + unfold tail in Hy. rewrite run_spaces_second_word in Hy by assumption.
      injection Hy as <-. reflexivity.
  - exists ws1, (0x0A :: ws2 ++ e :: u2). split; [reflexivity|]. split; [exact H1|].
    rewrite Hnl. apply run_spaces_second_word; assumption.
Qed.

(** A word, a hyphen, a line break and a word, and nothing else: the
    pattern matches all of it. *)
Lemma match_here_broken_word c u1 ws1 ws2 e u2 :
  is_word E c = true -> forallb (is_word E) u1 = true ->
  forallb isspace ws1 = true -> forallb isspace ws2 = true ->
  is_word E e = true -> forallb (is_word E) u2 = true ->
  Re.match_here (is_word E) (dehyphenate_re E) None
    (c :: u1 ++ 0x2D :: ws1 ++ 0x0A :: ws2 ++ e :: u2) =
  Some ([], [(2%nat, e :: u2); (1%nat, c :: u1)]).
Proof.
  intros Hc Hu1 H1 H2 He Hu2.
  unfold Re.match_here, dehyphenate_re, Cat. cbn [fold_right].
  set (tail := Re.Seq (Re.Star isspace)
                 (Re.Seq (Re.Lit1 0x0A)
                    (Re.Seq (Re.Star isspace)
                       (Re.Seq (Re.Group 2 (Re.Seq (Re.Plus (is_word E)) Re.WordB)) Re.Eps)))).
  set (text := c :: u1 ++ 0x2D :: ws1 ++ 0x0A :: ws2 ++ e :: u2).
  change ((if xorb false (is_word E c)
          then if is_word E c
               then Re.star (is_word E)
                      (fun prev' s' =>
                         Re.run (is_word E) (Re.Seq (Re.Lit1 0x2D) tail) prev' s'
                           [(1%nat, firstn (length text - length s') text)]
                           (fun _ s'' cs' => Some (s'', cs')))
                      (Some c) (u1 ++ 0x2D :: ws1 ++ 0x0A :: ws2 ++ e :: u2)
               else None
          else None) = Some ([], [(2%nat, e :: u2); (1%nat, c :: u1)])).
  rewrite Hc. cbn [xorb].
  rewrite star_greedy.
  - rewrite drop_while_app; [|exact Hu1|apply hyphen_not_word].
    change (Re.run (is_word E) tail (Some 0x2D) (ws1 ++ 0x0A :: ws2 ++ e :: u2)
              [(1%nat, firstn (length text - length (0x2D :: ws1 ++ 0x0A :: ws2 ++ e :: u2)) text)]
              (fun _ s'' cs' => Some (s'', cs')) =
            Some ([], [(2%nat, e :: u2); (1%nat, c :: u1)])).
    unfold tail. rewrite run_break by assumption. do 4 f_equal.
    unfold text. change (c :: u1 ++ ?x) with ((c :: u1) ++ x).
    f_equal. apply firstn_length_app.
  - intros p' d s Hd. unfold Re.Lit1. cbn [Re.run].
    destruct (0x2D =? d) eqn:Hd'; [|reflexivity].
    apply Z.eqb_eq in Hd'. subst d. rewrite hyphen_not_word in Hd. discriminate.
Qed.
End Joined.

Lemma isspace_not_surrogate c : isspace c = true -> is_surrogate c = false.
Proof.
  intros H. unfold isspace, is_surrogate, in_range in *.
  repeat match goal with
         | H : (_ || _) = true |- _ => apply orb_true_iff in H as [H|H]
         | H : (_ && _) = true |- _ => apply andb_true_iff in H as [? ?]
         | H : (_ <=? _) = true |- _ => apply Z.leb_le in H
         | H : (_ =? _) = true |- _ => apply Z.eqb_eq in H
         end;
  apply andb_false_iff; left; apply Z.leb_gt; lia.
Qed.

Lemma normal_without_spaces s : forall b,
  forallb (fun c => negb (isspace c)) s = true -> normal_from b s = true.
Proof.
  induction s as [|c s IH]; intros b H; [reflexivity|].
  cbn in H. apply andb_true_iff in H as [Hc H]. apply negb_true_iff in Hc.
  cbn [normal_from]. rewrite Hc. apply IH, H.
Qed.

Lemma collapse_word u : forall b s,
  u <> [] -> forallb (fun c => negb (isspace c)) u = true ->
  collapse_from isspace (lit " ") b (u ++ s) = u ++ collapse_from isspace (lit " ") false s.
Proof.
  induction u as [|c u IH]; intros b s Hne H; [congruence|].
  cbn in H. apply andb_true_iff in H as [Hc H]. apply negb_true_iff in Hc.
  cbn [app collapse_from]. rewrite Hc. f_equal.
  destruct u as [|d u]; [reflexivity|]. apply IH; [discriminate|exact H].
Qed.

Lemma collapse_spaces ws : forall b d s,
  forallb isspace ws = true -> isspace d = false ->
  exists v, forallb isspace v = true /\
    collapse_from isspace (lit " ") b (ws ++ d :: s) =
    v ++ d :: collapse_from isspace (lit " ") false s.
Proof.
  induction ws as [|c ws IH]; intros b d s H Hd.
  - exists []. split; [reflexivity|]. cbn [app collapse_from]. rewrite Hd. reflexivity.
  - cbn in H. apply andb_true_iff in H as [Hc H].
    destruct (IH true d s H Hd) as (v & Hv & Heq).
    cbn [app collapse_from]. rewrite Hc, Heq. destruct b.
    + exists v. auto.
    + exists (lit " " ++ v). split; [exact Hv|]. rewrite <- app_assoc. reflexivity.
Qed.

Section Words.
Variable E : Env.

Lemma word_chars_not_space u :
  forallb (is_word E) u = true -> forallb (fun c => negb (isspace c)) u = true.
Proof.
  intros H. rewrite forallb_forall in *. intros x Hx.
  rewrite (word_not_space E x (H x Hx)). reflexivity.
Qed.

Lemma word_chars_no (d : char) u :
  is_word E d = false -> forallb (is_word E) u = true -> ~ In d u.
Proof.
  intros Hd H Hin. rewrite forallb_forall in H. rewrite (H d Hin) in Hd. discriminate.
Qed.

Lemma match_here_nil r prev :
  nullable r = false -> Re.match_here (is_word E) r prev [] = None.
Proof.
  intros Hr. destruct (Re.match_here (is_word E) r prev []) as [[rest cs]|] eqn:Hm;
    [|reflexivity].
  apply match_here_inv in Hm as (u & Hu & Hn).
  symmetry in Hu. apply app_eq_nil in Hu as [-> _]. exfalso. apply (Hn Hr). reflexivity.
Qed.

Lemma rejoin_without_hyphen s : ~ In 0x2D s -> rejoin E s = s.
Proof.
  induction s as [|c s IH]; intros H; [reflexivity|].
  rewrite rejoin_cons.
  destruct (hyphen_match (is_word E) c s) as [[e rest]|] eqn:Hm.
  - apply hyphen_match_shape in Hm as (_ & _ & ws1 & ws2 & -> & _).
    exfalso. apply H. right. apply in_or_app. right. left. reflexivity.
  - f_equal. apply IH. intros Hin. apply H. right. exact Hin.
Qed.

Lemma rejoin_word_hyphen_word u1 : forall c v1 v2 e u2,
  is_word E c = true -> forallb (is_word E) u1 = true ->
  forallb isspace v1 = true -> forallb isspace v2 = true ->
  is_word E e = true -> forallb (is_word E) u2 = true ->
  rejoin E (c :: u1 ++ v1 ++ 0x2D :: v2 ++ e :: u2) = c :: u1 ++ 0x2D :: e :: u2.
Proof.
  induction u1 as [|d u1 IH]; intros c v1 v2 e u2 Hc Hu1 H1 H2 He Hu2; rewrite rejoin_cons.
  - cbn [app].
    assert (Hm : hyphen_match (is_word E) c (v1 ++ 0x2D :: v2 ++ e :: u2) = Some (e, u2)).
    { unfold hyphen_match. rewrite Hc.
      rewrite drop_while_app; [|exact H1|reflexivity].
      rewrite Z.eqb_refl.
      rewrite drop_while_app; [|exact H2|apply (word_not_space E), He].
      rewrite He. reflexivity. }
    rewrite Hm. do 3 f_equal. apply rejoin_without_hyphen.
    apply word_chars_no; [reflexivity|exact Hu2].
  - cbn in Hu1. apply andb_true_iff in Hu1 as [Hd Hu1]. cbn [app].
    assert (Hm : hyphen_match (is_word E) c (d :: u1 ++ v1 ++ 0x2D :: v2 ++ e :: u2) = None).
    { unfold hyphen_match. rewrite Hc. cbn [drop_while].
      rewrite (word_not_space E d Hd).
      destruct (0x2D =? d) eqn:H45; [|reflexivity].
      apply Z.eqb_eq in H45. subst d. discriminate. }
    rewrite Hm. f_equal. apply IH; assumption.
Qed.

Lemma dehyphenate_broken_word c u1 ws1 ws2 e u2 :
  is_word E c = true -> forallb (is_word E) u1 = true ->
  forallb isspace ws1 = true -> forallb isspace ws2 = true ->
  is_word E e = true -> forallb (is_word E) u2 = true ->
  dehyphenate E (c :: u1 ++ 0x2D :: ws1 ++ 0x0A :: ws2 ++ e :: u2) = (c :: u1) ++ e :: u2.
Proof.
  intros Hc Hu1 H1 H2 He Hu2. unfold dehyphenate, sub, Re.sub.
  pose proof (match_here_broken_word E c u1 ws1 ws2 e u2 Hc Hu1 H1 H2 He Hu2) as Hm.
  rewrite <- (app_nil_r (c :: u1 ++ 0x2D :: ws1 ++ 0x0A :: ws2 ++ e :: u2)).
  cbn [app]. rewrite <- (app_nil_r (c :: u1 ++ 0x2D :: ws1 ++ 0x0A :: ws2 ++ e :: u2)) in Hm.
  cbn [app] in Hm.
  rewrite (sub_from_match _ _ _ _ c _ [] _ Hm).
  cbn [Re.expand Re.group Nat.eqb]. cbn [Re.sub_from].
  rewrite match_here_nil by reflexivity.
  rewrite !app_nil_r. reflexivity.
Qed.

(** With no correction to apply and outside Portuguese, a word broken by a
    hyphen at the end of a line is put together, whatever white space
    surrounds the line break. *)
Theorem broken_word_is_joined st w1 ws1 ws2 w2 :
  correction_map st = [] -> language st <> Portuguese ->
  w1 <> [] -> w2 <> [] ->
  forallb (is_word E) (w1 ++ w2) = true -> no_surrogate (w1 ++ w2) ->
  forallb isspace (ws1 ++ ws2) = true ->
  auto_correct E st (w1 ++ lit "-" ++ ws1 ++ [0x0A] ++ ws2 ++ w2) = w1 ++ w2.
Proof.
  intros Hmap Hl Hn1 Hn2 Hw Hsur Hws.
  rewrite forallb_app in Hw, Hws. apply andb_true_iff in Hw as [Hw1 Hw2].
  apply andb_true_iff in Hws as [H1 H2].
  rewrite (auto_correct_outside_portuguese E st _ Hl), Hmap.
  change (apply_corrections [] ?t) with t.
  change (w1 ++ lit "-" ++ ws1 ++ [0x0A] ++ ws2 ++ w2)
    with (w1 ++ 0x2D :: ws1 ++ 0x0A :: ws2 ++ w2).
  rewrite drop_surrogates_fix.
  2:{ intros x Hx.
      apply in_app_or in Hx as [Hx|[<-|Hx]];
        [apply Hsur, in_or_app; auto|reflexivity|].
      apply in_app_or in Hx as [Hx|[<-|Hx]];
        [rewrite forallb_forall in H1; apply isspace_not_surrogate, H1, Hx|reflexivity|].
      apply in_app_or in Hx as [Hx|Hx];
        [rewrite forallb_forall in H2; apply isspace_not_surrogate, H2, Hx|].
      apply Hsur, in_or_app; auto. }
  destruct w1 as [|c u1]; [congruence|]. destruct w2 as [|e u2]; [congruence|].
  cbn in Hw1, Hw2. apply andb_true_iff in Hw1 as [Hc Hu1]. apply andb_true_iff in Hw2 as [He Hu2].
  unfold tidy. cbn [app].
  rewrite dehyphenate_broken_word by assumption.
  assert (Hwords : forallb (is_word E) ((c :: u1) ++ e :: u2) = true).
  { rewrite forallb_app. cbn [forallb]. rewrite Hc, Hu1, He, Hu2. reflexivity. }
  rewrite sub_spaces_collapse, normal_collapse
    by (apply normal_without_spaces, word_chars_not_space, Hwords).
  apply rejoin_without_hyphen. apply word_chars_no; [reflexivity|exact Hwords].
Qed.

(** In the same conditions, white space other than a line break on either
    side of a hyphen between two words is removed. *)
Theorem spaced_hyphen_is_tightened st w1 ws1 ws2 w2 :
  correction_map st = [] -> language st <> Portuguese ->
  w1 <> [] -> w2 <> [] ->
  forallb (is_word E) (w1 ++ w2) = true -> no_surrogate (w1 ++ w2) ->
  forallb isspace (ws1 ++ ws2) = true -> ~ In 0x0A (ws1 ++ ws2) ->
  auto_correct E st (w1 ++ ws1 ++ lit "-" ++ ws2 ++ w2) = w1 ++ lit "-" ++ w2.
Proof.
  intros Hmap Hl Hn1 Hn2 Hw Hsur Hws Hnl.
  rewrite forallb_app in Hw, Hws. apply andb_true_iff in Hw as [Hw1 Hw2].
  apply andb_true_iff in Hws as [H1 H2].
  rewrite (auto_correct_outside_portuguese E st _ Hl), Hmap.
  change (apply_corrections [] ?t) with t.
  change (w1 ++ ws1 ++ lit "-" ++ ws2 ++ w2) with (w1 ++ ws1 ++ 0x2D :: ws2 ++ w2).
  rewrite drop_surrogates_fix.
  2:{ intros x Hx.
      apply in_app_or in Hx as [Hx|Hx]; [apply Hsur, in_or_app; auto|].
      apply in_app_or in Hx as [Hx|[<-|Hx]];
        [rewrite forallb_forall in H1; apply isspace_not_surrogate, H1, Hx|reflexivity|].
      apply in_app_or in Hx as [Hx|Hx];
        [rewrite forallb_forall in H2; apply isspace_not_surrogate, H2, Hx|].
      apply Hsur, in_or_app; auto. }
  assert (Hd : dehyphenate E (w1 ++ ws1 ++ 0x2D :: ws2 ++ w2) =
               w1 ++ ws1 ++ 0x2D :: ws2 ++ w2).
  { unfold dehyphenate, sub, Re.sub. apply sub_dehyphenate_nothing.
    intros Hx. apply in_app_or in Hx as [Hx|Hx];
      [revert Hx; apply word_chars_no; [reflexivity|exact Hw1]|].
    apply in_app_or in Hx as [Hx|[Hx|Hx]];
      [apply Hnl, in_or_app; auto|discriminate|].
    apply in_app_or in Hx as [Hx|Hx]; [apply Hnl, in_or_app; auto|].
    revert Hx. apply word_chars_no; [reflexivity|exact Hw2]. }
  unfold tidy. rewrite Hd, sub_spaces_collapse.
  destruct w1 as [|c u1]; [congruence|]. destruct w2 as [|e u2]; [congruence|].
  pose proof Hw1 as Hw1'. pose proof Hw2 as Hw2'.
  cbn in Hw1, Hw2. apply andb_true_iff in Hw1 as [Hc Hu1]. apply andb_true_iff in Hw2 as [He Hu2].
  rewrite collapse_word by (discriminate || apply word_chars_not_space, Hw1').
  destruct (collapse_spaces ws1 false 0x2D (ws2 ++ e :: u2) H1 eq_refl) as (v1 & Hv1 & Heq1).
  destruct (collapse_spaces ws2 false e u2 H2 (word_not_space E e He)) as (v2 & Hv2 & Heq2).
  rewrite Heq2 in Heq1.
  rewrite (normal_collapse u2 false) in Heq1
    by (apply normal_without_spaces, word_chars_not_space, Hu2).
  transitivity (rejoin E ((c :: u1) ++ v1 ++ 0x2D :: v2 ++ e :: u2)).
  { apply (f_equal (fun t => rejoin E ((c :: u1) ++ t))). exact Heq1. }
  apply rejoin_word_hyphen_word; assumption.
Qed.
End Words.

(** The two halves of [window]. *)
Lemma broken_word_is_joined_witness :
  auto_correct world_pt init (lit "win" ++ lit "-" ++ lit " " ++ [0x0A] ++ lit "  " ++ lit "dow") =
  lit "win" ++ lit "dow".
Proof.
  apply (broken_word_is_joined world_pt init (lit "win") (lit " ") (lit "  ") (lit "dow"));
    try reflexivity; try discriminate.
  intros x Hx. vm_compute in Hx. intuition (subst; reflexivity).
Defined.

(** A hyphen with spaces on both sides. *)
Lemma spaced_hyphen_is_tightened_witness :
  auto_correct world_pt init (lit "twin" ++ lit "  " ++ lit "-" ++ lit " " ++ lit "ring") =
  lit "twin" ++ lit "-" ++ lit "ring".
Proof.
  apply (spaced_hyphen_is_tightened world_pt init (lit "twin") (lit "  ") (lit " ") (lit "ring"));
    try reflexivity; try discriminate.
  - intros x Hx. vm_compute in Hx. intuition (subst; reflexivity).
  - vm_compute. intuition discriminate.
Defined.

(** ** Control characters *)

Section Controls.
Variable E : Env.

Lemma sanitize_drops_control (u v : str) c :
  is_control c = true ->
  sanitize_before_blank_lines E (u ++ c :: v) = sanitize_before_blank_lines E (u ++ v).
Proof.
  intros Hc. unfold sanitize_before_blank_lines, sub, Re.sub, control_re.
  rewrite !sub_chr_delete, !filter_app. cbn [filter]. rewrite Hc. reflexivity.
Qed.

(** A control character, a line break or a tab included, is deleted before
    white space is collapsed: [sanitize_text] joins the words on either
    side of it. *)
Theorem sanitize_text_deletes_control_characters (u v : str) c :
  is_control c = true -> sanitize_text E (u ++ c :: v) = sanitize_text E (u ++ v).
Proof.
  intros Hc. rewrite !sanitize_text_eq. apply sanitize_drops_control, Hc.
Qed.
End Controls.

(** A word broken by a line break. *)
Lemma sanitize_text_deletes_control_characters_witness :
  sanitize_text world_pt (lit "pro" ++ 0x0A :: lit "grama") =
  sanitize_text world_pt (lit "pro" ++ lit "grama").
Proof.
  apply (sanitize_text_deletes_control_characters world_pt (lit "pro") (lit "grama") 0x0A).
  reflexivity.
Defined.

(** ** Slugs *)

Lemma replace_char_map k v s :
  replace [k] [v] s = map (fun c => if k =? c then v else c) s.
Proof.
  unfold replace. induction s as [|c s IH]; [reflexivity|].
  cbn [replace_from startswith map]. rewrite andb_true_r.
  destruct (k =? c); cbn [app length Nat.pred]; f_equal; exact IH.
Qed.

Lemma drop_while_In p s x : In x (drop_while p s) -> In x s.
Proof.
  induction s as [|c s IH]; cbn; [auto|]. destruct (p c); cbn; auto.
Qed.

Lemma strip_In s x : In x (strip s) -> In x s.
Proof.
  unfold strip. intros H. apply in_rev, drop_while_In, in_rev, drop_while_In in H. exact H.
Qed.

Lemma drop_while_head p s : forall c t, drop_while p s = c :: t -> p c = false.
Proof.
  induction s as [|d s IH]; intros c t H; cbn in H; [discriminate|].
  destruct (p d) eqn:Hd; [eauto|]. injection H as <- _. exact Hd.
Qed.

Lemma strip_head s c t : strip s = c :: t -> isspace c = false.
Proof.
  unfold strip. intros H.
  destruct (drop_while isspace s) as [|d s'] eqn:Hd.
  - cbn in H. discriminate.
  - assert (Hdc : isspace d = false) by (eapply drop_while_head; eauto).
    destruct (drop_while isspace (rev (d :: s'))) as [|x r] eqn:Hr; [discriminate|].
    assert (Hlast : exists r', x :: r = r' ++ [d]).
    { assert (Hsuf : forall a l, isspace d = false ->
                drop_while isspace (l ++ [d]) = a -> exists r', a = r' ++ [d]).
      { intros a l Hd'. revert a. induction l as [|y l IH]; intros a Ha; cbn in Ha.
        - rewrite Hd' in Ha. exists []. subst a. reflexivity.
        - destruct (isspace y); [apply IH, Ha|]. subst a. exists (y :: l). reflexivity. }
      apply (Hsuf _ (rev s') Hdc). cbn [rev] in Hr. exact Hr. }
    destruct Hlast as (r' & Hr').
    rewrite Hr', rev_app_distr in H. cbn in H. injection H as <- _. exact Hdc.
Qed.

Lemma strip_last s : strip s <> [] -> isspace (last (strip s) 0) = false.
Proof.
  unfold strip. intros Hne.
  destruct (drop_while isspace (rev (drop_while isspace s))) as [|x r] eqn:Hr;
    [contradiction Hne; reflexivity|].
  cbn [rev]. rewrite last_last. eapply drop_while_head; eauto.
Qed.

(** A property of the ASCII characters, checked on each of them. *)
Lemma ascii_cases (P : char -> bool) :
  forallb P (map Z.of_nat (seq 0 128)) = true ->
  forall c, 0 <= c < 128 -> P c = true.
Proof.
  intros H c Hc. rewrite forallb_forall in H. apply H.
  apply in_map_iff. exists (Z.to_nat c). split; [lia|]. apply in_seq. lia.
Qed.

Section Slug.
Variable E : Env.

Lemma slug_kept text : sub E not_slug_re [] text = filter slug_source text.
Proof.
  unfold sub, Re.sub, not_slug_re. rewrite sub_chr_delete.
  apply filter_ext. intros c. apply negb_involutive.
Qed.

Lemma slug_source_latin1 s :
  (forall c, In c s -> slug_source c = true) -> forallb (fun c => c <? 256) s = true.
Proof.
  intros H. apply forallb_forall. intros c Hc. apply H in Hc.
  unfold slug_source, in_range in Hc. apply Z.ltb_lt.
  repeat match goal with
         | H : (_ || _) = true |- _ => apply orb_true_iff in H as [H|H]
         | H : (_ && _) = true |- _ => apply andb_true_iff in H as [? ?]
         | H : (_ <=? _) = true |- _ => apply Z.leb_le in H
         | H : (_ =? _) = true |- _ => apply Z.eqb_eq in H
         end; lia.
Qed.

Lemma slugify_map text :
  slugify E text = map slug_of (strip (filter slug_source text)).
Proof.
  unfold slugify. rewrite slug_kept. unfold lower.
  rewrite slug_source_latin1.
  - change (lit " ") with [0x20]. change (lit "-") with [0x2D].
    rewrite replace_char_map, map_map. reflexivity.
  - intros c Hc. apply strip_In, filter_In in Hc. apply Hc.
Qed.

Lemma slug_source_ascii c : slug_source c = true -> 0 <= c < 128.
Proof.
  unfold slug_source, in_range. intros H.
  repeat match goal with
         | H : (_ || _) = true |- _ => apply orb_true_iff in H as [H|H]
         | H : (_ && _) = true |- _ => apply andb_true_iff in H as [? ?]
         | H : (_ <=? _) = true |- _ => apply Z.leb_le in H
         | H : (_ =? _) = true |- _ => apply Z.eqb_eq in H
         end; lia.
Qed.

Lemma slug_of_char c : slug_source c = true -> slug_char (slug_of c) = true.
Proof.
  intros H. pose proof (slug_source_ascii c H) as Hc.
  pose proof (ascii_cases (fun c => implb (slug_source c) (slug_char (slug_of c)))
                eq_refl c Hc) as Hi.
  cbv beta in Hi. rewrite H in Hi. exact Hi.
Qed.

Lemma slug_of_hyphen c : slug_source c = true -> slug_of c = 0x2D -> c = 0x20.
Proof.
  intros H. pose proof (slug_source_ascii c H) as Hc.
  pose proof (ascii_cases
                (fun c => implb (slug_source c)
                            (implb (slug_of c =? 0x2D) (c =? 0x20)))
                eq_refl c Hc) as Hi.
  cbv beta in Hi. rewrite H in Hi. intros He. rewrite He in Hi.
  apply Z.eqb_eq. exact Hi.
Qed.

(** A slug holds lower-case ASCII letters, digits and hyphens only, and
    neither starts nor ends with a hyphen. *)
Theorem slugify_alphabet text :
  (forall c, In c (slugify E text) -> slug_char c = true) /\
  hd_error (slugify E text) <> Some 0x2D /\
  (slugify E text <> [] -> last (slugify E text) 0 <> 0x2D).
Proof.
  rewrite slugify_map.
  set (kept := filter slug_source text).
  assert (Hk : forall c, In c (strip kept) -> slug_source c = true).
  { intros c Hc. apply strip_In, filter_In in Hc. apply Hc. }
  split; [|split].
  - intros c Hc. apply in_map_iff in Hc as (d & <- & Hd). apply slug_of_char, Hk, Hd.
  - destruct (strip kept) as [|c t] eqn:Hs; [discriminate|].
    cbn [map hd_error]. intros [= Hc].
    apply slug_of_hyphen in Hc; [|apply Hk; left; reflexivity].
    apply strip_head in Hs. subst c. discriminate.
  - intros Hne Hl.
    assert (Hne' : strip kept <> []).
    { intros H0. rewrite H0 in Hne. apply Hne. reflexivity. }
    pose proof (strip_last kept Hne') as Hsp.
    destruct (exists_last Hne') as (l & c & Hlc).
    rewrite Hlc in Hl, Hsp, Hk. rewrite map_app in Hl. cbn [map] in Hl.
    rewrite last_last in Hl, Hsp.
    apply slug_of_hyphen in Hl; [|apply Hk, in_or_app; right; left; reflexivity].
    subst c. discriminate.
Qed.

Lemma drop_while_nil_iff p (s : str) :
  drop_while p s = [] <-> forall c, In c s -> p c = true.
Proof.
  induction s as [|d s IH]; cbn.
  - split; [intros _ c []|reflexivity].
  - destruct (p d) eqn:Hd.
    + rewrite IH. split; [intros H c [<-|Hc]; auto|intros H c Hc; apply H; auto].
    + split; [discriminate|]. intros H. rewrite H in Hd by auto. discriminate.
Qed.

(** The slug is empty exactly when the text has no ASCII letter or digit;
    accented letters do not count. *)
Theorem slugify_empty_iff text :
  slugify E text = [] <-> forall c, In c text -> ascii_alnum c = false.
Proof.
  rewrite slugify_map. split.
  - intros H c Hc. apply map_eq_nil in H. unfold strip in H.
    assert (Hd : drop_while isspace (filter slug_source text) = []).
    { destruct (drop_while isspace (filter slug_source text)) as [|x r] eqn:Hx; [reflexivity|].
      exfalso. pose proof (drop_while_head _ _ _ _ Hx) as Hsp.
      apply (f_equal (@rev char)) in H. rewrite rev_involutive in H. cbn [rev] in H.
      assert (Hnil : forall y, In y (rev r ++ [x]) -> isspace y = true)
        by (apply drop_while_nil_iff, H).
      rewrite Hnil in Hsp by (apply in_or_app; right; left; reflexivity). discriminate. }
    destruct (ascii_alnum c) eqn:Ha; [|reflexivity]. exfalso.
    assert (Hin : In c (filter slug_source text)).
    { apply filter_In. split; [exact Hc|]. unfold slug_source. unfold ascii_alnum in Ha.
      rewrite Ha. reflexivity. }
    pose proof (proj1 (drop_while_nil_iff isspace _) Hd c Hin) as Hsp.
    unfold ascii_alnum, isspace, in_range in *.
    repeat match goal with
           | H : (_ || _) = true |- _ => apply orb_true_iff in H as [H|H]
           | H : (_ && _) = true |- _ => apply andb_true_iff in H as [? ?]
           | H : (_ <=? _) = true |- _ => apply Z.leb_le in H
           | H : (_ =? _) = true |- _ => apply Z.eqb_eq in H
           end; lia.
  - intros H. unfold strip.
    assert (Hd : drop_while isspace (filter slug_source text) = []).
    { apply drop_while_nil_iff. intros c Hc. apply filter_In in Hc as [Hc Hs].
      apply H in Hc. unfold slug_source in Hs. unfold ascii_alnum in Hc. rewrite Hc in Hs.
      cbn in Hs. apply Z.eqb_eq in Hs. subst c. reflexivity. }
    rewrite Hd. reflexivity.
Qed.
End Slug.

(** ** The retry loop of [call_ollama] *)

Section Retries.
Context {Payload Json : Type}.
Variable server : Payload -> nat -> result Json.
Variable payload : Payload.


End Retries.
